(** * A shallow embedding of the BSON codec entry points (src/bson.ts)

    The entry points of [bson.ts] ([serialize], [serializeWithBufferAndIndex],
    [deserialize], [calculateObjectSize], [deserializeStream],
    [setInternalBufferSize]) are embedded as state-passing functions over the
    module-level serialization buffer.  The three parser functions they import
    ([serializeInto], the internal [deserialize] and the internal
    [calculateObjectSize]) are section variables of the embedding; they are
    instantiated further down with a codec written after the binary layout of
    the format description.  The small value classes ([MinKey], [MaxKey],
    [Int32]) are embedded from their sources. *)

From Stdlib Require Import ZArith Lia List String Ascii Bool DecimalString DecimalZ DecimalPos.
From stdpp Require Import gmap strings list.

Local Open Scope Z_scope.

(** ** Errors and the error monad *)

(** The concrete failures, and the classes the error taxonomy groups them in. *)
Inductive error :=
| InvalidKey
| CyclicStructure
| TruncatedDocument
| BadLengthPrefix
| UnknownBSONType
| RangeError.

Inductive error_class := MalformedInput | InvalidValue | StructuralError | HostError.

Definition class_of (e : error) : error_class :=
  match e with
  | InvalidKey => InvalidValue
  | CyclicStructure => StructuralError
  | TruncatedDocument | BadLengthPrefix | UnknownBSONType => MalformedInput
  | RangeError => HostError
  end.

Inductive result (A : Type) :=
| Ok (a : A)
| Err (e : error).
Arguments Ok {A} a.
Arguments Err {A} e.

#[global] Instance result_ret : MRet result := fun _ a => Ok a.
#[global] Instance result_bind : MBind result := fun _ _ f m =>
  match m with Ok a => f a | Err e => Err e end.
#[global] Instance result_fmap : FMap result := fun _ _ f m =>
  match m with Ok a => Ok (f a) | Err e => Err e end.

Definition is_ok {A} (r : result A) : bool :=
  match r with Ok _ => true | Err _ => false end.

(** ** Bytes, little-endian integers, strings *)

(** A byte is an integer in [0, 256); a buffer is a list of them. *)
Definition is_byte (b : Z) : Prop := 0 <= b < 256.
Abbreviation Buffer := (list Z).

(** [int_le n z]: the [n] low bytes of [z], least significant first. *)
Fixpoint int_le (n : nat) (z : Z) : list Z :=
  match n with
  | O => []
  | S n' => z mod 256 :: int_le n' (z / 256)
  end.

(** The unsigned value of a little-endian byte sequence. *)
Fixpoint le_uint (bs : list Z) : Z :=
  match bs with
  | [] => 0
  | b :: r => b + 256 * le_uint r
  end.

(** Two's-complement reinterpretation of an unsigned [w]-bit value. *)
Definition to_signed (w : Z) (u : Z) : Z :=
  if u <? 2 ^ (w - 1) then u else u - 2 ^ w.

(** JavaScript's ToInt32 on an integer. *)
Definition toInt32 (z : Z) : Z := (z + 2 ^ 31) mod 2 ^ 32 - 2 ^ 31.

Definition byte_of_ascii (c : ascii) : Z := Z.of_N (N_of_ascii c).
Definition ascii_of_byte (b : Z) : ascii := ascii_of_N (Z.to_N b).

Fixpoint bytes_of_string (s : string) : list Z :=
  match s with
  | EmptyString => []
  | String c r => byte_of_ascii c :: bytes_of_string r
  end.

Fixpoint string_of_bytes (bs : list Z) : string :=
  match bs with
  | [] => EmptyString
  | b :: r => String (ascii_of_byte b) (string_of_bytes r)
  end.

Definition zlen {A} (l : list A) : Z := Z.of_nat (length l).

(** A NUL-terminated string. *)
Definition cstring (s : string) : list Z := bytes_of_string s ++ [0].

(** A length-prefixed string: int32 length (counting the NUL), bytes, NUL. *)
Definition lstring (s : string) : list Z :=
  int_le 4 (zlen (bytes_of_string s) + 1) ++ bytes_of_string s ++ [0].

(** Decimal rendering of an integer, as [Number.prototype.toString] gives it
    for an integer value. *)
Definition decimal (z : Z) : string := NilZero.string_of_int (Z.to_int z).

#[local] Set Warnings "-register-all".

(** ** The value model

    The closed union of value kinds.  Fixed-width payloads are kept as the
    integer or the raw bytes the wire format stores: a [VDouble] holds the
    64-bit pattern of the binary64 number, an [VObjectId] its 12 bytes, a
    [VDecimal128] its 16 bytes.  JavaScript code without and with a captured
    scope are two constructors, as they are two type tags.  [VFunction] is a
    function-typed value of the host, which is only ever written. *)
Inductive value :=
| VDouble (bits : Z)
| VString (s : string)
| VDocument (d : list (string * value))
| VArray (a : list value)
| VBinary (subtype : Z) (data : list Z)
| VUndefined
| VObjectId (id : list Z)
| VBoolean (b : bool)
| VDateTime (ms : Z)
| VNull
| VRegExp (pattern flags : string)
| VDBPointer (ns : string) (id : list Z)
| VCode (code : string)
| VSymbol (s : string)
| VCodeWithScope (code : string) (scope : list (string * value))
| VInt32 (n : Z)
| VTimestamp (t i : Z)
| VInt64 (n : Z)
| VDecimal128 (bits : list Z)
| VMinKey
| VMaxKey
| VFunction (src : string).

(** The kinds that hold other values. *)
Definition compound (v : value) : bool :=
  match v with
  | VDocument _ | VArray _ | VCodeWithScope _ _ => true
  | _ => false
  end.

(** A document: string-keyed entries in insertion order. *)
Abbreviation Document := (list (string * value)).

(** The type tags of the binary layout, under the names [bson.ts] re-exports
    from [./constants]. *)
Definition BSON_DATA_NUMBER : Z := 1.
Definition BSON_DATA_STRING : Z := 2.
Definition BSON_DATA_OBJECT : Z := 3.
Definition BSON_DATA_ARRAY : Z := 4.
Definition BSON_DATA_BINARY : Z := 5.
Definition BSON_DATA_UNDEFINED : Z := 6.
Definition BSON_DATA_OID : Z := 7.
Definition BSON_DATA_BOOLEAN : Z := 8.
Definition BSON_DATA_DATE : Z := 9.
Definition BSON_DATA_NULL : Z := 10.
Definition BSON_DATA_REGEXP : Z := 11.
Definition BSON_DATA_DBPOINTER : Z := 12.
Definition BSON_DATA_CODE : Z := 13.
Definition BSON_DATA_SYMBOL : Z := 14.
Definition BSON_DATA_CODE_W_SCOPE : Z := 15.
Definition BSON_DATA_INT : Z := 16.
Definition BSON_DATA_TIMESTAMP : Z := 17.
Definition BSON_DATA_LONG : Z := 18.
Definition BSON_DATA_DECIMAL128 : Z := 19.
Definition BSON_DATA_MIN_KEY : Z := 255.
Definition BSON_DATA_MAX_KEY : Z := 127.
Definition BSON_INT32_MAX : Z := 2 ^ 31 - 1.
Definition BSON_INT32_MIN : Z := - 2 ^ 31.
Definition JS_INT_MAX : Z := 2 ^ 53.
Definition JS_INT_MIN : Z := - 2 ^ 53.

(** ** Serializer *)

(** A framed document body: int32 total length, the entries, a closing NUL. *)
Definition frame (body : list Z) : list Z :=
  int_le 4 (4 + zlen body + 1) ++ body ++ [0].

(** One entry: type tag, NUL-terminated key, payload. *)
Definition element (tag : Z) (key : string) (payload : list Z) : list Z :=
  tag :: cstring key ++ payload.

(** Regular-expression flags are written in alphabetical order. *)
Fixpoint insert_flag (c : ascii) (l : string) : string :=
  match l with
  | EmptyString => String c EmptyString
  | String d r =>
      if (N_of_ascii c <=? N_of_ascii d)%N then String c l
      else String d (insert_flag c r)
  end.

Fixpoint sort_flags (f : string) : string :=
  match f with
  | EmptyString => EmptyString
  | String c r => insert_flag c (sort_flags r)
  end.

(** The key an array gives its [i]-th item. *)
Definition index_key (i : nat) : string := decimal (Z.of_nat i).

Section Serializer.
Variables (serializeFunctions ignoreUndefined : bool).

(** Modelled from the spec: the per-entry part of [serializeInto]
    ([./parser/serializer] is not among the sources), after the binary layout
    table: the bytes one entry contributes, none when the entry is omitted. *)
Fixpoint serializeEntry (key : string) (v : value) : list Z :=
  match v with
  | VDouble bits => element BSON_DATA_NUMBER key (int_le 8 bits)
  | VString s => element BSON_DATA_STRING key (lstring s)
  | VDocument d =>
      element BSON_DATA_OBJECT key
        (frame ((fix entries (l : list (string * value)) : list Z :=
                   match l with
                   | [] => []
                   | (k, x) :: r => serializeEntry k x ++ entries r
                   end) d))
  | VArray a =>
      element BSON_DATA_ARRAY key
        (frame ((fix items (i : nat) (l : list value) : list Z :=
                   match l with
                   | [] => []
                   | x :: r => serializeEntry (index_key i) x ++ items (S i) r
                   end) 0%nat a))
  | VBinary subtype data =>
      element BSON_DATA_BINARY key (int_le 4 (zlen data) ++ int_le 1 subtype ++ map (fun b => b mod 256) data)
  | VUndefined =>
      if ignoreUndefined then [] else element BSON_DATA_UNDEFINED key []
  | VObjectId id => element BSON_DATA_OID key (map (fun b => b mod 256) id)
  | VBoolean b => element BSON_DATA_BOOLEAN key [if b then 1 else 0]
  | VDateTime ms => element BSON_DATA_DATE key (int_le 8 ms)
  | VNull => element BSON_DATA_NULL key []
  | VRegExp pattern flags =>
      element BSON_DATA_REGEXP key (cstring pattern ++ cstring (sort_flags flags))
  | VDBPointer ns id =>
      element BSON_DATA_DBPOINTER key (lstring ns ++ map (fun b => b mod 256) id)
  | VCode code => element BSON_DATA_CODE key (lstring code)
  | VSymbol s => element BSON_DATA_SYMBOL key (lstring s)
  | VCodeWithScope code scope =>
      let body :=
        lstring code ++
        frame ((fix entries (l : list (string * value)) : list Z :=
                  match l with
                  | [] => []
                  | (k, x) :: r => serializeEntry k x ++ entries r
                  end) scope) in
      element BSON_DATA_CODE_W_SCOPE key (int_le 4 (4 + zlen body) ++ body)
  | VInt32 n => element BSON_DATA_INT key (int_le 4 n)
  | VTimestamp t i => element BSON_DATA_TIMESTAMP key (int_le 4 i ++ int_le 4 t)
  | VInt64 n => element BSON_DATA_LONG key (int_le 8 n)
  | VDecimal128 bits => element BSON_DATA_DECIMAL128 key (map (fun b => b mod 256) bits)
  | VMinKey => element BSON_DATA_MIN_KEY key []
  | VMaxKey => element BSON_DATA_MAX_KEY key []
  | VFunction src =>
      if serializeFunctions then element BSON_DATA_CODE key (lstring src) else []
  end.

Fixpoint serializeEntries (d : Document) : list Z :=
  match d with
  | [] => []
  | (k, x) :: r => serializeEntry k x ++ serializeEntries r
  end.

Fixpoint serializeItems (i : nat) (a : list value) : list Z :=
  match a with
  | [] => []
  | x :: r => serializeEntry (index_key i) x ++ serializeItems (S i) r
  end.

(** The encoding of a whole document. *)
Definition encodeDocument (d : Document) : list Z := frame (serializeEntries d).

(** Modelled from the spec: the size calculator ([./parser/calculate_size] is
    not among the sources): per entry 1 (type tag) + key length + 1 (NUL) +
    the payload size of the kind; an omitted entry counts nothing. *)
Fixpoint calculateElement (key : string) (v : value) : Z :=
  let name := 1 + zlen (bytes_of_string key) + 1 in
  match v with
  | VDouble _ => name + 8
  | VString s => name + (4 + zlen (bytes_of_string s) + 1)
  | VDocument d =>
      name + (4 + (fix entries (l : list (string * value)) : Z :=
                     match l with
                     | [] => 0
                     | (k, x) :: r => calculateElement k x + entries r
                     end) d + 1)
  | VArray a =>
      name + (4 + (fix items (i : nat) (l : list value) : Z :=
                     match l with
                     | [] => 0
                     | x :: r => calculateElement (index_key i) x + items (S i) r
                     end) 0%nat a + 1)
  | VBinary _ data => name + (4 + 1 + zlen data)
  | VUndefined => if ignoreUndefined then 0 else name
  | VObjectId id => name + zlen id
  | VBoolean _ => name + 1
  | VDateTime _ => name + 8
  | VNull => name
  | VRegExp pattern flags =>
      name + (zlen (bytes_of_string pattern) + 1) + (zlen (bytes_of_string flags) + 1)
  | VDBPointer ns id => name + (4 + zlen (bytes_of_string ns) + 1) + zlen id
  | VCode code => name + (4 + zlen (bytes_of_string code) + 1)
  | VSymbol s => name + (4 + zlen (bytes_of_string s) + 1)
  | VCodeWithScope code scope =>
      name + 4 + (4 + zlen (bytes_of_string code) + 1)
      + (4 + (fix entries (l : list (string * value)) : Z :=
                match l with
                | [] => 0
                | (k, x) :: r => calculateElement k x + entries r
                end) scope + 1)
  | VInt32 _ => name + 4
  | VTimestamp _ _ => name + 8
  | VInt64 _ => name + 8
  | VDecimal128 bits => name + zlen bits
  | VMinKey => name
  | VMaxKey => name
  | VFunction src =>
      if serializeFunctions then name + (4 + zlen (bytes_of_string src) + 1) else 0
  end.

Fixpoint calculateEntries (d : Document) : Z :=
  match d with
  | [] => 0
  | (k, x) :: r => calculateElement k x + calculateEntries r
  end.

Fixpoint calculateItems (i : nat) (a : list value) : Z :=
  match a with
  | [] => 0
  | x :: r => calculateElement (index_key i) x + calculateItems (S i) r
  end.

(** 4 (length prefix) + the entries + the closing NUL. *)
Definition objectSize (object : Document) : Z :=
  4 + calculateEntries object + 1.

End Serializer.

(** Modelled from the spec: the internal [calculateObjectSize] of
    [./parser/calculate_size] (not among the sources), with the parameter
    list [bson.ts] calls it with. *)
Definition internalCalculateObjectSize (object : Document)
    (serializeFunctions ignoreUndefined : bool) : Z :=
  objectSize serializeFunctions ignoreUndefined object.

(** Modelled from the spec: the key validation of [checkKeys], which the
    serializer does ([./parser/serializer] is not among the sources): a key
    may not start with [$] nor contain a [.]. *)
Fixpoint has_dot (k : string) : bool :=
  match k with
  | EmptyString => false
  | String c r => (c =? ".")%char || has_dot r
  end.

Definition key_ok (k : string) : bool :=
  match k with
  | String c _ => negb (c =? "$")%char && negb (has_dot k)
  | EmptyString => true
  end.

(** Every document key of the value, nested ones included, passes [key_ok];
    array indices are not document keys. *)
Fixpoint keys_ok (v : value) : bool :=
  match v with
  | VDocument d | VCodeWithScope _ d =>
      (fix entries (l : list (string * value)) : bool :=
         match l with
         | [] => true
         | (k, x) :: r => key_ok k && keys_ok x && entries r
         end) d
  | VArray a =>
      (fix items (l : list value) : bool :=
         match l with
         | [] => true
         | x :: r => keys_ok x && items r
         end) a
  | _ => true
  end.

Definition document_keys_ok (d : Document) : bool := keys_ok (VDocument d).

(** ** The host's byte buffers *)

(** [buffer[i] = b] for a byte [b]: a store outside the buffer is dropped. *)
Definition set_byte (buf : Buffer) (i : Z) (b : Z) : Buffer :=
  if 0 <=? i then <[Z.to_nat i := b]> buf else buf.

(** Consecutive stores [buffer[index++] = b] of the bytes [bs]. *)
Fixpoint write_bytes (buf : Buffer) (i : Z) (bs : list Z) : Buffer :=
  match bs with
  | [] => buf
  | b :: r => write_bytes (set_byte buf i b) (i + 1) r
  end.

(** [buffer[i]] read in an integer context: a missing element reads as
    [undefined], which the bitwise operators take as 0. *)
Definition byte_at (buf : Buffer) (i : Z) : Z :=
  if 0 <=? i then default 0 (buf !! Z.to_nat i) else 0.

(** [Buffer.alloc(size)]: a zero-filled buffer. *)
Definition Buffer_alloc (size : Z) : result Buffer :=
  if size <? 0 then Err RangeError else Ok (replicate (Z.to_nat size) 0).

(** [source.copy(target, targetStart, sourceStart, sourceEnd)]: copies the
    bytes of [source] between [sourceStart] and [sourceEnd] (clamped to the
    source) into [target] from [targetStart] on, as far as the target
    reaches; negative positions are refused.  The mutated target is
    returned.  The entry points call it with [sourceStart] 0 only. *)
Definition Buffer_copy (source target : Buffer) (targetStart sourceStart sourceEnd : Z)
  : result Buffer :=
  if (targetStart <? 0) || (sourceStart <? 0) || (sourceEnd <? 0) then Err RangeError
  else
    let stop := Z.min sourceEnd (zlen source) in
    Ok (write_bytes target targetStart
          (take (Z.to_nat (stop - sourceStart)) (drop (Z.to_nat sourceStart) source))).

(** ** Options *)

Module SerializationOptions.
Record t := mk {
  checkKeys : option bool;
  serializeFunctions : option bool;
  ignoreUndefined : option bool;
  minInternalBufferSize : option Z;
  index : option Z
}.
Definition empty : t := mk None None None None None.
End SerializationOptions.

(** [Pick<SerializationOptions, 'serializeFunctions' | 'ignoreUndefined'>] *)
Module CalculateObjectSizeOptions.
Record t := mk {
  serializeFunctions : option bool;
  ignoreUndefined : option bool
}.
Definition empty : t := mk None None.
Definition pick (o : SerializationOptions.t) : t :=
  mk (SerializationOptions.serializeFunctions o) (SerializationOptions.ignoreUndefined o).
End CalculateObjectSizeOptions.

(** The deserialization options the codec model interprets.  The options
    that only choose the host representation of a kind (a raw buffer for a
    Binary, a native regular expression, a big integer) and raw-field
    extraction are left out: they do not change the kind a value decodes to. *)
Module DeserializationOptions.
Record t := mk {
  promoteLongs : option bool;
  promoteValues : option bool;
  allowObjectSmallerThanBufferSize : option bool;
  index : option Z
}.
Definition empty : t := mk None None None None.

(** [Object.assign(defaults, options)]: a property present in [options]
    overrides the default. *)
Definition assign (defaults options : t) : t :=
  mk (match promoteLongs options with Some b => Some b | None => promoteLongs defaults end)
     (match promoteValues options with Some b => Some b | None => promoteValues defaults end)
     (match allowObjectSmallerThanBufferSize options with
      | Some b => Some b
      | None => allowObjectSmallerThanBufferSize defaults
      end)
     (match index options with Some i => Some i | None => index defaults end).

(** [options.index = i] *)
Definition set_index (o : t) (i : Z) : t :=
  mk (promoteLongs o) (promoteValues o) (allowObjectSmallerThanBufferSize o) (Some i).
End DeserializationOptions.

(** ** The entry points of bson.ts *)

(** Default Max Size *)
Definition MAXSIZE : Z := 1024 * 1024 * 17.

(** The module state: the current internal temporary serialization buffer. *)
Record State := mkState { buffer : Buffer }.

(** [ensureBuffer] on a value that already is a byte buffer. *)
Definition ensureBuffer (b : Buffer) : Buffer := b.

(** [data[index] | (data[index + 1] << 8) | (data[index + 2] << 16) |
    (data[index + 3] << 24)], in the 32-bit signed arithmetic of the bitwise
    operators. *)
Definition js_shl (a k : Z) : Z := toInt32 (Z.shiftl (toInt32 a) (k mod 32)).
Definition js_or (a b : Z) : Z := toInt32 (Z.lor (toInt32 a) (toInt32 b)).

Definition size_at (data : Buffer) (index : Z) : Z :=
  js_or (js_or (js_or (byte_at data index) (js_shl (byte_at data (index + 1)) 8))
               (js_shl (byte_at data (index + 2)) 16))
        (js_shl (byte_at data (index + 3)) 24).

(** The state at load time: [let buffer = Buffer.alloc(MAXSIZE)]. *)
Definition initial_state : State := mkState (replicate (Z.to_nat MAXSIZE) 0).

(** The buffer [serialize] hands to the internal pass: the current one, or a
    fresh one of [minInternalBufferSize] bytes when the current one is shorter. *)
Definition working_buffer (options : SerializationOptions.t) (st : State) : Buffer :=
  let m := default MAXSIZE (SerializationOptions.minInternalBufferSize options) in
  if zlen (buffer st) <? m then replicate (Z.to_nat m) 0 else buffer st.

Section BsonTs.

(** The type of documents, and the three functions imported from the parser
    modules.  A call that mutates a buffer returns the buffer as it leaves
    it, next to the value returned or the error thrown. *)
Context {Doc : Type}.
Variable internalSerialize :
  Buffer -> Doc -> bool -> Z -> Z -> bool -> bool -> option (list Doc) -> Buffer * result Z.
Variable internalDeserialize : Buffer -> DeserializationOptions.t -> result Doc.
Variable internalCalculateObjectSize : Doc -> bool -> bool -> Z.

Definition setInternalBufferSize (size : Z) (st : State) : State :=
  (* Resize the internal serialization buffer if needed *)
  if zlen (buffer st) <? size then
    match Buffer_alloc size with
    | Ok b => mkState b
    | Err _ => st
    end
  else st.

Definition serialize (object : Doc) (options : SerializationOptions.t) (st : State)
  : result Buffer * State :=
  (* Unpack the options *)
  let checkKeys := default false (SerializationOptions.checkKeys options) in
  let serializeFunctions := default false (SerializationOptions.serializeFunctions options) in
  let ignoreUndefined := default true (SerializationOptions.ignoreUndefined options) in
  let minInternalBufferSize :=
    default MAXSIZE (SerializationOptions.minInternalBufferSize options) in
  (* Resize the internal serialization buffer if needed *)
  match (if zlen (buffer st) <? minInternalBufferSize
         then Buffer_alloc minInternalBufferSize else Ok (buffer st)) with
  | Err e => (Err e, st)
  | Ok buffer0 =>
      (* Attempt to serialize *)
      match internalSerialize buffer0 object checkKeys 0 0
              serializeFunctions ignoreUndefined (Some []) with
      | (buffer1, Err e) => (Err e, mkState buffer1)
      | (buffer1, Ok serializationIndex) =>
          (* Create the final buffer *)
          match Buffer_alloc serializationIndex with
          | Err e => (Err e, mkState buffer1)
          | Ok finishedBuffer =>
              (* Copy into the finished buffer *)
              match Buffer_copy buffer1 finishedBuffer 0 0 (zlen finishedBuffer) with
              | Err e => (Err e, mkState buffer1)
              | Ok finishedBuffer' => (Ok finishedBuffer', mkState buffer1)
              end
          end
      end
  end.

(** The caller's [finalBuffer] is mutated in place: it is returned as it
    leaves the call, with the value returned and the new module state. *)
Definition serializeWithBufferAndIndex (object : Doc) (finalBuffer : Buffer)
    (options : SerializationOptions.t) (st : State) : result Z * Buffer * State :=
  (* Unpack the options *)
  let checkKeys := default false (SerializationOptions.checkKeys options) in
  let serializeFunctions := default false (SerializationOptions.serializeFunctions options) in
  let ignoreUndefined := default true (SerializationOptions.ignoreUndefined options) in
  let startIndex := default 0 (SerializationOptions.index options) in
  (* Attempt to serialize *)
  match internalSerialize (buffer st) object checkKeys 0 0
          serializeFunctions ignoreUndefined None with
  | (buffer1, Err e) => (Err e, finalBuffer, mkState buffer1)
  | (buffer1, Ok serializationIndex) =>
      match Buffer_copy buffer1 finalBuffer startIndex 0 serializationIndex with
      | Err e => (Err e, finalBuffer, mkState buffer1)
      | Ok finalBuffer' =>
          (* Return the index *)
          (Ok (startIndex + serializationIndex - 1), finalBuffer', mkState buffer1)
      end
  end.

Definition deserialize (buffer : Buffer) (options : DeserializationOptions.t) : result Doc :=
  let buffer := ensureBuffer buffer in
  internalDeserialize buffer options.

Definition calculateObjectSize (object : Doc) (options : CalculateObjectSizeOptions.t) : Z :=
  let serializeFunctions :=
    default false (CalculateObjectSizeOptions.serializeFunctions options) in
  let ignoreUndefined := default true (CalculateObjectSizeOptions.ignoreUndefined options) in
  internalCalculateObjectSize object serializeFunctions ignoreUndefined.

(** The loop of [deserializeStream], [n] iterations from counter [i] on.  The
    [documents] array is a map from indices to documents that is updated in
    place; when a document fails to parse, the documents stored so far stay. *)
Fixpoint deserializeStream_loop (n : nat) (data : Buffer) (internalOptions : DeserializationOptions.t)
    (docStartIndex : Z) (i : Z) (index : Z) (documents : gmap Z Doc)
  : result Z * gmap Z Doc :=
  match n with
  | O => (Ok index, documents)
  | S n' =>
      (* Find size of the document *)
      let size := size_at data index in
      (* Update options with index *)
      let internalOptions := DeserializationOptions.set_index internalOptions index in
      (* Parse the document at this point *)
      match internalDeserialize data internalOptions with
      | Err e => (Err e, documents)
      | Ok doc =>
          let documents := <[docStartIndex + i := doc]> documents in
          (* Adjust index by the document size *)
          deserializeStream_loop n' data internalOptions docStartIndex (i + 1) (index + size)
            documents
      end
  end.

Definition deserializeStream (data : Buffer) (startIndex : Z) (numberOfDocuments : Z)
    (documents : gmap Z Doc) (docStartIndex : Z) (options : DeserializationOptions.t)
  : result Z * gmap Z Doc :=
  let internalOptions :=
    DeserializationOptions.assign
      (DeserializationOptions.mk None None (Some true) (Some 0)) options in
  let data := ensureBuffer data in
  deserializeStream_loop (Z.to_nat numberOfDocuments) data internalOptions docStartIndex 0
    startIndex documents.

End BsonTs.

(** ** The codec on documents of the value model *)

(** Modelled from the spec: [serializeInto] of [./parser/serializer] (not
    among the sources), with the parameter list [bson.ts] calls it with.
    With [checkKeys] a forbidden key fails with [InvalidKey]; otherwise the
    framed encoding is stored from [startingIndex] on and the end offset is
    returned.  A document of the value model is a tree, so the ancestor path
    has nothing to detect here (object graphs are treated in [Graph]). *)
Definition serializeInto (buffer : Buffer) (object : Document) (checkKeys : bool)
    (startingIndex depth : Z) (serializeFunctions ignoreUndefined : bool)
    (path : option (list Document)) : Buffer * result Z :=
  if checkKeys && negb (document_keys_ok object) then (buffer, Err InvalidKey)
  else
    let bytes := encodeDocument serializeFunctions ignoreUndefined object in
    (write_bytes buffer startingIndex bytes, Ok (startingIndex + zlen bytes)).

(** *** Deserializer *)

Fixpoint read_cstring (bs : list Z) : result (string * list Z) :=
  match bs with
  | [] => Err TruncatedDocument
  | b :: r =>
      if b =? 0 then Ok (EmptyString, r)
      else '(s, rest) ← read_cstring r; Ok (String (ascii_of_byte b) s, rest)
  end.

Definition read_bytes (n : Z) (bs : list Z) : result (list Z * list Z) :=
  if (n <? 0) || (zlen bs <? n) then Err TruncatedDocument
  else Ok (take (Z.to_nat n) bs, drop (Z.to_nat n) bs).

Definition read_uint (n : Z) (bs : list Z) : result (Z * list Z) :=
  '(b, r) ← read_bytes n bs; Ok (le_uint b, r).

Definition read_int (n : Z) (bs : list Z) : result (Z * list Z) :=
  '(u, r) ← read_uint n bs; Ok (to_signed (8 * n) u, r).

Definition read_lstring (bs : list Z) : result (string * list Z) :=
  '(n, r) ← read_int 4 bs;
  if n <? 1 then Err BadLengthPrefix
  else
    '(s, r') ← read_bytes (n - 1) r;
    match r' with
    | 0 :: r'' => Ok (string_of_bytes s, r'')
    | _ => Err TruncatedDocument
    end.

(** The IEEE 754 binary64 pattern of an integer of magnitude at most 2^53. *)
Definition double_bits_of_Z (z : Z) : Z :=
  if z =? 0 then 0
  else
    let a := Z.abs z in
    let e := Z.log2 a in
    (if z <? 0 then 2 ^ 63 else 0) + (e + 1023) * 2 ^ 52 + Z.shiftl (a - 2 ^ e) (52 - e).

(** A plain number of the host holding an integer: it is of the Int32 kind
    when it fits, of the Double kind otherwise. *)
Definition number_of_Z (z : Z) : value :=
  if (BSON_INT32_MIN <=? z) && (z <=? BSON_INT32_MAX) then VInt32 z
  else VDouble (double_bits_of_Z z).

Section Deserializer.
(** Whether 64-bit integers in the safe range are promoted to plain numbers. *)
Variable promote : bool.

(** Modelled from the spec: the dispatch of the deserializer on the type
    tag, after the binary layout table; the Undefined tag is write-only and
    is not recognised. *)
Definition parse_value (parse_document : list Z -> result (Document * list Z))
    (tag : Z) (bs : list Z) : result (value * list Z) :=
  if tag =? BSON_DATA_NUMBER then '(u, r) ← read_uint 8 bs; Ok (VDouble u, r)
  else if tag =? BSON_DATA_STRING then '(s, r) ← read_lstring bs; Ok (VString s, r)
  else if tag =? BSON_DATA_OBJECT then '(d, r) ← parse_document bs; Ok (VDocument d, r)
  else if tag =? BSON_DATA_ARRAY then '(d, r) ← parse_document bs; Ok (VArray (map snd d), r)
  else if tag =? BSON_DATA_BINARY then
    '(n, r) ← read_int 4 bs;
    '(st, r) ← read_uint 1 r;
    '(data, r) ← read_bytes n r;
    Ok (VBinary st data, r)
  else if tag =? BSON_DATA_OID then '(id, r) ← read_bytes 12 bs; Ok (VObjectId id, r)
  else if tag =? BSON_DATA_BOOLEAN then '(b, r) ← read_uint 1 bs; Ok (VBoolean (b =? 1), r)
  else if tag =? BSON_DATA_DATE then '(ms, r) ← read_int 8 bs; Ok (VDateTime ms, r)
  else if tag =? BSON_DATA_NULL then Ok (VNull, bs)
  else if tag =? BSON_DATA_REGEXP then
    '(p, r) ← read_cstring bs;
    '(f, r) ← read_cstring r;
    Ok (VRegExp p f, r)
  else if tag =? BSON_DATA_DBPOINTER then
    '(ns, r) ← read_lstring bs;
    '(id, r) ← read_bytes 12 r;
    Ok (VDBPointer ns id, r)
  else if tag =? BSON_DATA_CODE then '(s, r) ← read_lstring bs; Ok (VCode s, r)
  else if tag =? BSON_DATA_SYMBOL then '(s, r) ← read_lstring bs; Ok (VSymbol s, r)
  else if tag =? BSON_DATA_CODE_W_SCOPE then
    '(total, r1) ← read_int 4 bs;
    '(code, r2) ← read_lstring r1;
    '(scope, r3) ← parse_document r2;
    if total =? zlen bs - zlen r3 then Ok (VCodeWithScope code scope, r3)
    else Err BadLengthPrefix
  else if tag =? BSON_DATA_INT then '(n, r) ← read_int 4 bs; Ok (VInt32 n, r)
  else if tag =? BSON_DATA_TIMESTAMP then
    '(i, r) ← read_uint 4 bs;
    '(t, r) ← read_uint 4 r;
    Ok (VTimestamp t i, r)
  else if tag =? BSON_DATA_LONG then
    '(n, r) ← read_int 8 bs;
    if promote && (JS_INT_MIN <=? n) && (n <=? JS_INT_MAX) then Ok (number_of_Z n, r)
    else Ok (VInt64 n, r)
  else if tag =? BSON_DATA_DECIMAL128 then
    '(bits, r) ← read_bytes 16 bs; Ok (VDecimal128 bits, r)
  else if tag =? BSON_DATA_MIN_KEY then Ok (VMinKey, bs)
  else if tag =? BSON_DATA_MAX_KEY then Ok (VMaxKey, bs)
  else Err UnknownBSONType.

(** Modelled from the spec: the recursive part of the deserializer.  A
    framed document at the head of [bs]: the declared length must be at
    least 5 and within the bytes at hand, the byte closing it must be NUL, and
    the entries must fill it exactly.  Returns the entries and the bytes after
    the document.  The fuel bounds the nesting; every call consumes input, so
    fuel above the length of the input never runs out ([fuel_is_enough]). *)
Fixpoint parse_document (fuel : nat) (bs : list Z) : result (Document * list Z) :=
  match fuel with
  | O => Err TruncatedDocument
  | S f =>
      '(size, r) ← read_int 4 bs;
      if size <? 5 then Err BadLengthPrefix
      else if zlen bs <? size then Err TruncatedDocument
      else
        let body := take (Z.to_nat (size - 4)) r in
        let rest := drop (Z.to_nat (size - 4)) r in
        match last body with
        | Some 0 =>
            '(es, over) ← parse_elements f body;
            match over with
            | [] => Ok (es, rest)
            | _ => Err BadLengthPrefix
            end
        | _ => Err TruncatedDocument
        end
  end
with parse_elements (fuel : nat) (bs : list Z) : result (Document * list Z) :=
  match fuel with
  | O => Err TruncatedDocument
  | S f =>
      match bs with
      | [] => Err TruncatedDocument
      | tag :: r =>
          if tag =? 0 then Ok ([], r)
          else
            '(key, r1) ← read_cstring r;
            '(v, r2) ← parse_value (parse_document f) tag r1;
            '(es, r3) ← parse_elements f r2;
            Ok ((key, v) :: es, r3)
      end
  end.

End Deserializer.

(** Whether the options make the deserializer promote 64-bit integers. *)
Definition promotes (options : DeserializationOptions.t) : bool :=
  default true (DeserializationOptions.promoteLongs options)
  && default true (DeserializationOptions.promoteValues options).

(** Modelled from the spec: the internal [deserialize] of
    [./parser/deserializer] (not among the sources): parses the document that
    starts at [options.index]; unless [allowObjectSmallerThanBufferSize] is
    set, the buffer must end where the document ends. *)
Definition internalDeserialize (buffer : Buffer) (options : DeserializationOptions.t)
  : result Document :=
  let index := default 0 (DeserializationOptions.index options) in
  let allow := default false (DeserializationOptions.allowObjectSmallerThanBufferSize options) in
  let promote := promotes options in
  if (index <? 0) || (zlen buffer <? index) then Err TruncatedDocument
  else
    let bs := drop (Z.to_nat index) buffer in
    '(d, rest) ← parse_document promote (S (length bs)) bs;
    match rest with
    | [] => Ok d
    | _ => if allow then Ok d else Err BadLengthPrefix
    end.

(** The entries an array is read back as. *)
Fixpoint keyed (i : nat) (a : list value) : Document :=
  match a with
  | [] => []
  | x :: r => (index_key i, x) :: keyed (S i) r
  end.

(** *** Values that survive a round trip *)

Fixpoint no_nul (s : string) : bool :=
  match s with
  | EmptyString => true
  | String c r => negb (c =? "000")%char && no_nul r
  end.

Definition bytes_ok (l : list Z) : bool := forallb (fun b => (0 <=? b) && (b <? 256)) l.

(** The values of kinds that are both written and read back as themselves:
    no [VUndefined] and no [VFunction]; a [VInt64] only when the decoder keeps
    it wide; integers within the width of their kind; NUL-free keys and
    regular-expression strings (they are written NUL-terminated); flags in
    the order they are written in. *)
Fixpoint supported (promote : bool) (v : value) : bool :=
  match v with
  | VDouble bits => (0 <=? bits) && (bits <? 2 ^ 64)
  | VString _ | VCode _ | VSymbol _ | VBoolean _ | VNull | VMinKey | VMaxKey => true
  | VDocument d | VCodeWithScope _ d =>
      (fix entries (l : list (string * value)) : bool :=
         match l with
         | [] => true
         | (k, x) :: r => no_nul k && supported promote x && entries r
         end) d
  | VArray a =>
      (fix items (l : list value) : bool :=
         match l with
         | [] => true
         | x :: r => supported promote x && items r
         end) a
  | VBinary subtype data => (0 <=? subtype) && (subtype <? 256) && bytes_ok data
  | VObjectId id => (zlen id =? 12) && bytes_ok id
  | VDateTime ms => (- 2 ^ 63 <=? ms) && (ms <? 2 ^ 63)
  | VRegExp pattern flags => no_nul pattern && no_nul flags && String.eqb (sort_flags flags) flags
  | VDBPointer _ id => (zlen id =? 12) && bytes_ok id
  | VInt32 n => (BSON_INT32_MIN <=? n) && (n <=? BSON_INT32_MAX)
  | VTimestamp t i => (0 <=? t) && (t <? 2 ^ 32) && (0 <=? i) && (i <? 2 ^ 32)
  | VInt64 n =>
      (- 2 ^ 63 <=? n) && (n <? 2 ^ 63)
      && negb (promote && (JS_INT_MIN <=? n) && (n <=? JS_INT_MAX))
  | VDecimal128 bits => (zlen bits =? 16) && bytes_ok bits
  | VUndefined | VFunction _ => false
  end.

(** The entry the serializer writes for [v] is a tag, the key and a payload
    from which the deserializer reads [v] back, given fuel for its length. *)
Definition entry_reads_back (sf iu promote : bool) (v : value) : Prop :=
  forall k fuel rest,
    supported promote v = true ->
    zlen (serializeEntry sf iu k v) < 2 ^ 31 ->
    (length (serializeEntry sf iu k v) <= fuel)%nat ->
    exists tag payload,
      serializeEntry sf iu k v = tag :: cstring k ++ payload
      /\ (tag =? 0) = false
      /\ parse_value promote (parse_document promote fuel) tag (payload ++ rest) = Ok (v, rest).

Definition supported_document (promote : bool) (d : Document) : bool :=
  supported promote (VDocument d).

(** The nesting depth of documents and arrays in a value. *)
Fixpoint depth (v : value) : nat :=
  match v with
  | VDocument d | VCodeWithScope _ d =>
      S ((fix entries (l : list (string * value)) : nat :=
            match l with
            | [] => O
            | (_, x) :: r => Nat.max (depth x) (entries r)
            end) d)
  | VArray a =>
      S ((fix items (l : list value) : nat :=
            match l with
            | [] => O
            | x :: r => Nat.max (depth x) (items r)
            end) a)
  | _ => O
  end.

(** Examples: a small document, and a chain of [n] nested documents. *)
Definition sample_document : Document :=
  [("a"%string, VInt32 1);
   ("b"%string, VArray [VString "x"; VDocument [("c"%string, VBoolean true)]])].

Fixpoint nested (n : nat) : Document :=
  match n with
  | O => [("leaf"%string, VInt32 7)]
  | S n' => [("d"%string, VDocument (nested n')); ("a"%string, VArray [VNull; VString "s"])]
  end.

(** ** Object graphs

    A document handed to the serializer is an object of the host: nested
    documents and arrays are held by reference, so the same object can occur
    several times and can be reachable from itself.  An object graph is a
    heap of objects; an entry holds either a value without references or a
    reference to an object of the heap. *)
Module Graph.

Inductive entry :=
| Leaf (v : value)
| Ref (r : nat).

Inductive object :=
| ODocument (entries : list (string * entry))
| OArray (items : list entry).

Record Doc := mkDoc { heap : gmap nat object; root : nat }.

Definition entries_of (o : object) : list (string * entry) :=
  match o with
  | ODocument es => es
  | OArray items => imap (fun i e => (index_key i, e)) items
  end.

Definition is_document (o : object) : bool :=
  match o with ODocument _ => true | OArray _ => false end.

Definition tag_of (o : object) : Z :=
  match o with ODocument _ => BSON_DATA_OBJECT | OArray _ => BSON_DATA_ARRAY end.

(** [r'] is held by reference in an entry of the object at [r]. *)
Definition edge (h : gmap nat object) (r r' : nat) : Prop :=
  exists o k, h !! r = Some o /\ (k, Ref r') ∈ entries_of o.

(** Every reference in the heap names an object of the heap. *)
Definition closed (h : gmap nat object) : Prop :=
  forall r r', edge h r r' -> is_Some (h !! r').

(** Some object reachable from the root is reachable from itself. *)
Definition cyclic (g : Doc) : Prop :=
  exists r, rtc (edge (heap g)) (root g) r /\ tc (edge (heap g)) r r.

Section GraphSerializer.
Variables (checkKeys serializeFunctions ignoreUndefined : bool).
Variable h : gmap nat object.

(** Modelled from the spec: the recursive descent of the serializer with
    its ancestor path ([./parser/serializer] is not among the sources).
    One entry of an object whose ancestors (itself included) are [path].  A
    reference to an ancestor is a cycle; any other reference is followed by
    [rec]. [None] stands for a traversal that does not come to an end. *)
Definition serialize_one (rec : nat -> option (result (list Z))) (path : gset nat)
    (key : string) (e : entry) : option (result (list Z)) :=
  match e with
  | Leaf v =>
      if checkKeys && negb (keys_ok v) then Some (Err InvalidKey)
      else Some (Ok (serializeEntry serializeFunctions ignoreUndefined key v))
  | Ref r' =>
      if decide (r' ∈ path) then Some (Err CyclicStructure)
      else
        match h !! r', rec r' with
        | Some o, Some (Ok bytes) => Some (Ok (element (tag_of o) key bytes))
        | Some _, Some (Err e) => Some (Err e)
        | _, _ => None
        end
  end.

Fixpoint serialize_entries (rec : nat -> option (result (list Z))) (path : gset nat)
    (keyed : bool) (es : list (string * entry)) : option (result (list Z)) :=
  match es with
  | [] => Some (Ok [])
  | (k, e) :: rest =>
      if checkKeys && keyed && negb (key_ok k) then Some (Err InvalidKey)
      else
        match serialize_one rec path k e with
        | Some (Ok bytes) =>
            match serialize_entries rec path keyed rest with
            | Some (Ok bytes') => Some (Ok (bytes ++ bytes'))
            | other => other
            end
        | other => other
        end
  end.

(** The framed encoding of the object at [r], whose proper ancestors are
    [path]. *)
Fixpoint serialize_object (fuel : nat) (path : gset nat) (r : nat)
  : option (result (list Z)) :=
  match fuel with
  | O => None
  | S f =>
      match h !! r with
      | None => None
      | Some o =>
          let path' := {[r]} ∪ path in
          match serialize_entries (serialize_object f path') path' (is_document o)
                  (entries_of o) with
          | Some (Ok body) => Some (Ok (frame body))
          | other => other
          end
      end
  end.

End GraphSerializer.

(** Modelled from the spec: [serializeInto] of [./parser/serializer] (not
    among the sources) on an object graph: the recursive descent threads the
    set of ancestors and fails with [CyclicStructure] on a reference to one
    of them.  The recursion is given as many steps as the heap has objects,
    plus one; a descent that would need more has exhausted the call stack. *)
Definition serializeInto (buffer : Buffer) (object : Doc) (checkKeys : bool)
    (startingIndex depth : Z) (serializeFunctions ignoreUndefined : bool)
    (path : option (list Doc)) : Buffer * result Z :=
  let ancestors : gset nat := list_to_set (root <$> default [] path) in
  match serialize_object checkKeys serializeFunctions ignoreUndefined (heap object)
          (S (size (heap object))) ancestors (root object) with
  | Some (Ok bytes) =>
      (write_bytes buffer startingIndex bytes, Ok (startingIndex + zlen bytes))
  | Some (Err e) => (buffer, Err e)
  | None => (buffer, Err RangeError)
  end.

(** The errors a descent can end in: a cycle, or under [checkKeys] a
    forbidden key. *)
Definition expected (checkKeys : bool) (e : error) : Prop :=
  e = CyclicStructure \/ (checkKeys = true /\ e = InvalidKey).

(** A document of the value model as an object graph: one object, whose
    entries hold the values of the document. *)
Definition of_document (d : Document) : Doc :=
  mkDoc {[ 0%nat := ODocument (map (fun kv => (fst kv, Leaf (snd kv))) d) ]} 0%nat.

(** Examples: a document that holds itself, and two documents that hold each
    other below an array. *)
Definition self_loop : Doc :=
  mkDoc {[ 0%nat := ODocument [("a"%string, Leaf (VInt32 1)); ("self"%string, Ref 0%nat)] ]} 0%nat.

Definition two_cycle : Doc :=
  mkDoc {[ 0%nat := ODocument [("list"%string, Ref 1%nat)];
           1%nat := OArray [Leaf VNull; Ref 2%nat];
           2%nat := ODocument [("up"%string, Ref 1%nat)] ]} 0%nat.

(** A graph without a cycle, sharing one object twice. *)
Definition shared : Doc :=
  mkDoc {[ 0%nat := ODocument [("x"%string, Ref 1%nat); ("y"%string, Ref 1%nat)];
           1%nat := ODocument [("n"%string, Leaf (VInt32 5))] ]} 0%nat.

End Graph.

(** ** Long and Timestamp *)

Module Long.

(** Modelled from the spec: the 64-bit integer ([./long] is not among the
    sources): two 32-bit halves kept as signed 32-bit integers, and a flag
    that selects the unsigned reading. *)
Record t := mk { low : Z; high : Z; unsigned : bool }.

(** [new Long(low, high, unsigned)] *)
Definition make (low high : Z) (unsigned : bool) : t :=
  mk (toInt32 low) (toInt32 high) unsigned.

(** The 64-bit pattern as an unsigned integer. *)
Definition bits (l : t) : Z := (high l mod 2 ^ 32) * 2 ^ 32 + low l mod 2 ^ 32.

(** The integer the value denotes under its flag. *)
Definition toZ (l : t) : Z := if unsigned l then bits l else to_signed 64 (bits l).

Definition toString (l : t) : string := decimal (toZ l).

Definition MAX_UNSIGNED_VALUE : t := make 4294967295 4294967295 true.

End Long.

Module Timestamp.

(** The arguments a Timestamp is constructed from. *)
Inductive args :=
| NoArguments
| Pair (t i : Z)
| LowHigh (low high : Z)
| OfLong (l : Long.t).

(** Modelled from the spec: the Timestamp constructor ([./timestamp] is not
    among the sources): a Timestamp is a Long whose high half is the seconds
    [t] and whose low half is the ordinal [i]; whatever it is built from, it
    is flagged unsigned, the halves being reinterpreted, not rejected. *)
Definition make (a : args) : Long.t :=
  match a with
  | NoArguments => Long.make 0 0 true
  | Pair t i => Long.make i t true
  | LowHigh low high => Long.make low high true
  | OfLong l => Long.make (Long.low l) (Long.high l) true
  end.

Definition MAX_VALUE : Long.t := Long.MAX_UNSIGNED_VALUE.

Definition toString (ts : Long.t) : string := Long.toString ts.

(** [toJSON()]: the object [{ $timestamp: this.toString() }]. *)
Definition toJSON (ts : Long.t) : list (string * string) :=
  [("$timestamp"%string, toString ts)].

(** The constructions of the test suite. *)
Definition test_cases : list args :=
  [ NoArguments;
    Pair 255 4294967295;
    Pair 4294967295 4294967295;
    Pair (-1) (-1);
    OfLong (make (Pair 4294967295 4294967295));
    OfLong (Long.make 4294967295 68719476735 false);
    OfLong (Long.make 4294967295 68719476735 true) ].

End Timestamp.

(** ** Extended JSON of MinKey, MaxKey and Int32 *)

Inductive json :=
| JNumber (n : Z)
| JString (s : string)
| JObject (fields : list (string * json)).

Module EJSONOptions.
Record t := mk { relaxed : option bool }.
End EJSONOptions.

Module MinKey.
Record t := mk { _bsontype : string }.
(** [new MinKey()] *)
Definition make : t := mk "MinKey".
Definition toExtendedJSON (self : t) : json := JObject [("$minKey"%string, JNumber 1)].
Definition fromExtendedJSON : t := make.
Definition inspect (self : t) : string := "new MinKey()".
End MinKey.

Module MaxKey.
Record t := mk { _bsontype : string }.
(** [new MaxKey()] *)
Definition make : t := mk "MaxKey".
Definition toExtendedJSON (self : t) : json := JObject [("$maxKey"%string, JNumber 1)].
Definition fromExtendedJSON : t := make.
Definition inspect (self : t) : string := "new MaxKey()".
End MaxKey.

Module Int32.
Record t := mk { value : Z }.

(** [new Int32(value)] on an integer-valued number: [this.value = +value | 0]. *)
Definition make (value : Z) : t := mk (toInt32 value).

Definition valueOf (self : t) : Z := value self.

(** [toString()] without a radix. *)
Definition toString (self : t) : string := decimal (value self).

Definition toJSON (self : t) : Z := value self.

(** [options?.relaxed] is taken as false when the options or the flag are
    absent. *)
Definition toExtendedJSON (self : t) (options : option EJSONOptions.t) : json :=
  if default false (options ≫= EJSONOptions.relaxed) then JNumber (value self)
  else JObject [("$numberInt"%string, JString (toString self))].

Definition inspect (self : t) : string :=
  ("new Int32(" ++ decimal (valueOf self) ++ ")")%string.

End Int32.

(** Reading a decimal string back. *)
Definition parse_decimal (s : string) : option Z :=
  Z.of_int <$> NilZero.int_of_string s.

(** ** Sequences of operations on the module state *)

Section Operations.
Context {Doc : Type}.
Variable internalSerialize :
  Buffer -> Doc -> bool -> Z -> Z -> bool -> bool -> option (list Doc) -> Buffer * result Z.

(** The exported operations.  The deserializing operations and
    [calculateObjectSize] are not given the module state: they cannot reach
    the internal buffer. *)
Inductive operation :=
| OpSetInternalBufferSize (size : Z)
| OpSerialize (object : Doc) (options : SerializationOptions.t)
| OpSerializeWithBufferAndIndex (object : Doc) (finalBuffer : Buffer)
    (options : SerializationOptions.t)
| OpDeserialize (buffer : Buffer) (options : DeserializationOptions.t)
| OpCalculateObjectSize (object : Doc) (options : CalculateObjectSizeOptions.t)
| OpDeserializeStream (data : Buffer) (startIndex numberOfDocuments : Z)
    (documents : gmap Z Doc) (docStartIndex : Z) (options : DeserializationOptions.t).

(** The module state after an operation. *)
Definition run (op : operation) (st : State) : State :=
  match op with
  | OpSetInternalBufferSize size => setInternalBufferSize size st
  | OpSerialize object options => snd (serialize internalSerialize object options st)
  | OpSerializeWithBufferAndIndex object finalBuffer options =>
      snd (serializeWithBufferAndIndex internalSerialize object finalBuffer options st)
  | OpDeserialize _ _ | OpCalculateObjectSize _ _ | OpDeserializeStream _ _ _ _ _ _ => st
  end.

Definition run_all (ops : list operation) (st : State) : State :=
  fold_left (fun s op => run op s) ops st.

End Operations.

(** ** Streams of framed documents *)

(** The length prefix a frame opens with, read as an unsigned integer. *)
Definition prefix_of (f : list Z) : Z := le_uint (take 4 f).

(** A framed document: at least the four prefix bytes, which give the length
    of the whole frame, a length that fits a signed 32-bit integer. *)
Definition framed (f : list Z) : Prop :=
  (4 <= length f)%nat /\ Forall is_byte (take 4 f) /\ prefix_of f = zlen f /\ zlen f < 2 ^ 31.

(** Where consecutive frames start, the first one at [start]. *)
Fixpoint offsets (start : Z) (frames : list (list Z)) : list Z :=
  match frames with
  | [] => []
  | f :: r => start :: offsets (start + zlen f) r
  end.

Definition sum_prefixes (frames : list (list Z)) : Z :=
  fold_right (fun f acc => prefix_of f + acc) 0 frames.

(** [documents[at] = d0; documents[at + 1] = d1; ...] *)
Fixpoint store_all {Doc} (at_ : Z) (docs : list Doc) (documents : gmap Z Doc) : gmap Z Doc :=
  match docs with
  | [] => documents
  | d :: r => store_all (at_ + 1) r (<[at_ := d]> documents)
  end.

(** ** Keys of a document *)

(** A key that [checkKeys] is to reject: it starts with [$] or contains a
    [.] somewhere. *)
Definition forbidden_key (k : string) : Prop :=
  (exists r, k = String "$" r) \/ (exists a b, k = (a ++ String "." b)%string).

(** Whether the serializer leaves an entry of this value out. *)
Definition omitted (serializeFunctions ignoreUndefined : bool) (v : value) : bool :=
  match v with
  | VUndefined => ignoreUndefined
  | VFunction _ => negb serializeFunctions
  | _ => false
  end.

(** [k] is a key of the document value [v] or of a document nested in it;
    [written] asks in addition that the entry under [k] is not left out. *)
Inductive has_key (written : value -> bool) (k : string) : value -> Prop :=
| has_key_here d x : In (k, x) d -> written x = true -> has_key written k (VDocument d)
| has_key_below d k' x :
    In (k', x) d -> has_key written k x -> has_key written k (VDocument d)
| has_key_item a x : In x a -> has_key written k x -> has_key written k (VArray a)
| has_key_scope c d : has_key written k (VDocument d) -> has_key written k (VCodeWithScope c d).

(** [s] occurs in [l] as a block of consecutive bytes. *)
Definition occurs_in (s l : list Z) : Prop := exists pre post, l = pre ++ s ++ post.

(** [s] occurs in the entries the serializer writes for the document or
    array [v]. *)
Definition occurs_inside (serializeFunctions ignoreUndefined : bool) (s : list Z)
    (v : value) : Prop :=
  match v with
  | VDocument d | VCodeWithScope _ d =>
      occurs_in s (serializeEntries serializeFunctions ignoreUndefined d)
  | VArray a =>
      forall i, occurs_in s (serializeItems serializeFunctions ignoreUndefined i a)
  | _ => False
  end.

(** ** A document larger than the default internal buffer *)

(** A string of [MAXSIZE] letters [x], and a document that holds it. *)
Definition big_string : string := string_of_bytes (replicate (Z.to_nat MAXSIZE) 120).

Definition big_document : Document :=
  [("a"%string, VString big_string); ("b"%string, VNull)].

(** ** Concrete inputs *)

(** A document with a forbidden key two levels down. *)
Definition document_with_forbidden_key : Document :=
  [("ok"%string, VInt32 1);
   ("nested"%string, VDocument [("$bad"%string, VString "x"); ("a.b"%string, VNull)])].

(** Two framed documents back to back, after two bytes and before one. *)
Definition stream_frames : list (list Z) :=
  [encodeDocument false true sample_document; encodeDocument false true (nested 1)].

Definition stream_data : Buffer := [255; 255] ++ concat stream_frames ++ [7].

(** A run of operations on the module state. *)
Definition sample_operations : list (@operation Document) :=
  [OpSetInternalBufferSize 5;
   OpSerialize sample_document SerializationOptions.empty;
   OpSerializeWithBufferAndIndex sample_document (replicate 64 0) SerializationOptions.empty;
   OpDeserialize [5; 0; 0; 0; 0] DeserializationOptions.empty;
   OpSetInternalBufferSize (MAXSIZE + 1)].

(** ** Further notions for the entry points *)

(** The length an operation asks the internal buffer to have at least:
    [setInternalBufferSize(size)] asks for [size], [serialize] for
    [minInternalBufferSize] ([MAXSIZE] by default); the other operations ask
    for nothing. *)
Definition requested {Doc} (op : @operation Doc) : Z :=
  match op with
  | OpSetInternalBufferSize size => size
  | OpSerialize _ options =>
      default MAXSIZE (SerializationOptions.minInternalBufferSize options)
  | _ => 0
  end.

Definition largest_request {Doc} (ops : list (@operation Doc)) (current : Z) : Z :=
  fold_left (fun m op => Z.max m (requested op)) ops current.

(** Where the loop of [deserializeStream] stands after [k] rounds of
    [index = index + size]. *)
Fixpoint advance (k : nat) (data : Buffer) (index : Z) : Z :=
  match k with
  | O => index
  | S k' => advance k' data (index + size_at data index)
  end.

(** The options [deserializeStream] parses with:
    [Object.assign({ allowObjectSmallerThanBufferSize: true, index: 0 }, options)]. *)
Definition stream_options (options : DeserializationOptions.t) : DeserializationOptions.t :=
  DeserializationOptions.assign
    (DeserializationOptions.mk None None (Some true) (Some 0)) options.

(** The four bytes the size expression of [deserializeStream] reads at
    [index]. *)
Definition prefix_at (data : Buffer) (index : Z) : list Z :=
  [byte_at data index; byte_at data (index + 1); byte_at data (index + 2);
   byte_at data (index + 3)].

(** ** Int32 from Extended JSON *)

(** [Int32Extended]: the object [{ $numberInt: string }]. *)
Module Int32Extended.
Record t := mk { numberInt : string }.
End Int32Extended.

(** The number a string converts to, for the strings that are a decimal
    integer literal (an optional [-], then digits) of magnitude at most 2^53:
    on these [+s] and [parseInt(s, 10)] agree and are exact.  Other strings
    (blanks, a [+] sign, fractions, exponents, other radices, longer digit
    strings, which are rounded) are not covered: the result is [None]. *)
Definition integer_of_string (s : string) : option Z :=
  z ← parse_decimal s;
  if Z.abs z <=? 2 ^ 53 then Some z else None.

(** [new Int32(value)] on a string: [this.value = +value | 0]. *)
Definition Int32_of_string (value : string) : option Int32.t :=
  Int32.make <$> integer_of_string value.

(** [Int32.fromExtendedJSON(doc, options)]: a plain number in relaxed mode,
    an [Int32] otherwise. *)
Definition Int32_fromExtendedJSON (doc : Int32Extended.t) (options : option EJSONOptions.t)
  : option (Z + Int32.t) :=
  if default false (options ≫= EJSONOptions.relaxed)
  then inl <$> integer_of_string (Int32Extended.numberInt doc)
  else inr <$> Int32_of_string (Int32Extended.numberInt doc).

(** The object [toExtendedJSON] returns, read as an [Int32Extended]. *)
Definition as_Int32Extended (j : json) : option Int32Extended.t :=
  match j with
  | JObject [(k, JString s)] =>
      if String.eqb k "$numberInt" then Some (Int32Extended.mk s) else None
  | _ => None
  end.

(** ** The byte array of the test on wrapper types *)

(** [bytes] of the test "Should Correctly Deserialize object with all wrapper
    types". *)
Definition wrapper_types_bytes : list Z :=
  [26; 1; 0; 0; 7; 95; 105; 100; 0; 161; 190; 98; 75; 118; 169; 3; 0; 0; 3; 0;
   0; 4; 97; 114; 114; 97; 121; 0; 26; 0; 0; 0; 16; 48; 0; 1; 0; 0; 0; 16; 49;
   0; 2; 0; 0; 0; 16; 50; 0; 3; 0; 0; 0; 0; 2; 115; 116; 114; 105; 110; 103; 0;
   6; 0; 0; 0; 104; 101; 108; 108; 111; 0; 3; 104; 97; 115; 104; 0; 19; 0; 0;
   0; 16; 97; 0; 1; 0; 0; 0; 16; 98; 0; 2; 0; 0; 0; 0; 9; 100; 97; 116; 101; 0;
   161; 190; 98; 75; 0; 0; 0; 0; 7; 111; 105; 100; 0; 161; 190; 98; 75; 90;
   217; 18; 0; 0; 1; 0; 0; 5; 98; 105; 110; 97; 114; 121; 0; 7; 0; 0; 0; 2; 3;
   0; 0; 0; 49; 50; 51; 16; 105; 110; 116; 0; 42; 0; 0; 0; 1; 102; 108; 111;
   97; 116; 0; 223; 224; 11; 147; 169; 170; 64; 64; 11; 114; 101; 103; 101;
   120; 112; 0; 102; 111; 111; 98; 97; 114; 0; 105; 0; 8; 98; 111; 111; 108;
   101; 97; 110; 0; 1; 15; 119; 104; 101; 114; 101; 0; 25; 0; 0; 0; 12; 0; 0;
   0; 116; 104; 105; 115; 46; 120; 32; 61; 61; 32; 51; 0; 5; 0; 0; 0; 0; 3;
   100; 98; 114; 101; 102; 0; 37; 0; 0; 0; 2; 36; 114; 101; 102; 0; 5; 0; 0; 0;
   116; 101; 115; 116; 0; 7; 36; 105; 100; 0; 161; 190; 98; 75; 2; 180; 1; 0;
   0; 2; 0; 0; 0; 10; 110; 117; 108; 108; 0; 0].

(** The field [key] of a document, as [object.key] reads it. *)
Definition field (d : Document) (key : string) : option value :=
  snd <$> find (fun kv => String.eqb (fst kv) key) d.

(** The IEEE 754 binary64 pattern [bits] of a normal positive number is the
    double nearest to [num / den]: with mantissa [m] and exponent [e], the
    value [m * 2^e] is within half a unit in the last place. *)
Definition nearest_double (bits num den : Z) : bool :=
  let e := bits / 2 ^ 52 - 1075 in
  let m := 2 ^ 52 + bits mod 2 ^ 52 in
  (0 <? bits / 2 ^ 52) && (bits / 2 ^ 52 <? 2047) && (e <? 0)
  && (2 * Z.abs (m * den - num * 2 ^ (- e)) <=? den).

(** ** Packing documents into a caller's buffer *)

(** A caller that packs documents back to back into its own buffer: each
    document is written by [serializeWithBufferAndIndex] (with the default
    options but for [index]) at the index after the one the previous call
    returned.  Returns the index after the last document. *)
Fixpoint pack_documents (ds : list Document) (finalBuffer : Buffer) (index : Z) (st : State)
  : result Z * Buffer * State :=
  match ds with
  | [] => (Ok index, finalBuffer, st)
  | d :: r =>
      match serializeWithBufferAndIndex serializeInto d finalBuffer
              (SerializationOptions.mk None None None None (Some index)) st with
      | (Ok last, finalBuffer', st') => pack_documents r finalBuffer' (last + 1) st'
      | (Err e, finalBuffer', st') => (Err e, finalBuffer', st')
      end
  end.

(** * Properties *)

(** ** Little-endian integers and strings *)

Lemma zlen_nil {A} : zlen (@nil A) = 0.
Proof. reflexivity. Qed.

Lemma zlen_cons {A} (x : A) l : zlen (x :: l) = 1 + zlen l.
Proof. unfold zlen. simpl length. lia. Qed.

Lemma zlen_app {A} (l1 l2 : list A) : zlen (l1 ++ l2) = zlen l1 + zlen l2.
Proof. unfold zlen. rewrite length_app. lia. Qed.

Lemma zlen_nonneg {A} (l : list A) : 0 <= zlen l.
Proof. unfold zlen. lia. Qed.

Lemma zlen_map {A B} (f : A -> B) l : zlen (map f l) = zlen l.
Proof. unfold zlen. now rewrite length_map. Qed.

Lemma length_int_le n z : length (int_le n z) = n.
Proof. revert z. induction n as [|n IH]; intros z; simpl; [reflexivity | now rewrite IH]. Qed.

Lemma zlen_int_le n z : zlen (int_le n z) = Z.of_nat n.
Proof. unfold zlen. now rewrite length_int_le. Qed.

Lemma int_le_bytes n z : Forall is_byte (int_le n z).
Proof.
  revert z. induction n as [|n IH]; intros z; simpl; constructor; [|apply IH].
  unfold is_byte. apply Z.mod_pos_bound. lia.
Qed.

Lemma le_uint_int_le n z : le_uint (int_le n z) = z mod 2 ^ (8 * Z.of_nat n).
Proof.
  revert z. induction n as [|n IH]; intros z.
  - simpl. now rewrite Z.mod_1_r.
  - cbn [int_le le_uint]. rewrite IH.
    replace (8 * Z.of_nat (S n)) with (8 + 8 * Z.of_nat n) by lia.
    rewrite Z.pow_add_r by lia. change (2 ^ 8) with 256.
    rewrite Z.rem_mul_r by lia. reflexivity.
Qed.

Lemma le_uint_bounds bs :
  Forall is_byte bs -> 0 <= le_uint bs < 2 ^ (8 * zlen bs).
Proof.
  induction 1 as [|b r Hb _ IH]; [change (0 <= 0 < 1); lia|].
  rewrite zlen_cons. cbn [le_uint].
  replace (8 * (1 + zlen r)) with (8 + 8 * zlen r) by lia.
  pose proof (zlen_nonneg r).
  rewrite Z.pow_add_r by lia. change (2 ^ 8) with 256.
  unfold is_byte in Hb. nia.
Qed.

Lemma to_signed_wrap w z :
  0 < w -> - 2 ^ (w - 1) <= z < 2 ^ (w - 1) -> to_signed w (z mod 2 ^ w) = z.
Proof.
  intros Hw Hz. unfold to_signed.
  assert (E : 2 ^ w = 2 * 2 ^ (w - 1)).
  { replace w with (1 + (w - 1)) at 1 by lia. rewrite Z.pow_add_r by lia. reflexivity. }
  destruct (Z.ltb_spec z 0) as [Hneg|Hpos].
  - replace (z mod 2 ^ w) with (z + 2 ^ w).
    + destruct (Z.ltb_spec (z + 2 ^ w) (2 ^ (w - 1))); lia.
    + apply Z.mod_unique with (q := -1); lia.
  - rewrite Z.mod_small by lia.
    destruct (Z.ltb_spec z (2 ^ (w - 1))); lia.
Qed.

Lemma byte_of_ascii_range c : is_byte (byte_of_ascii c).
Proof.
  unfold is_byte, byte_of_ascii. pose proof (N_ascii_bounded c). lia.
Qed.

Lemma ascii_of_byte_of_ascii c : ascii_of_byte (byte_of_ascii c) = c.
Proof.
  unfold ascii_of_byte, byte_of_ascii. rewrite N2Z.id. apply ascii_N_embedding.
Qed.

Lemma bytes_of_string_bytes s : Forall is_byte (bytes_of_string s).
Proof. induction s; simpl; constructor; auto using byte_of_ascii_range. Qed.

Lemma string_of_bytes_of_string s : string_of_bytes (bytes_of_string s) = s.
Proof. induction s as [|c s IH]; simpl; [reflexivity|]. now rewrite ascii_of_byte_of_ascii, IH. Qed.

Lemma byte_of_ascii_zero c : byte_of_ascii c = 0 -> c = "000"%char.
Proof.
  intros H. rewrite <- (ascii_of_byte_of_ascii c), H. reflexivity.
Qed.

Lemma mod_small_bytes l : Forall is_byte l -> map (fun b => b mod 256) l = l.
Proof.
  induction 1 as [|b r Hb _ IH]; simpl; [reflexivity|].
  rewrite IH, Z.mod_small by exact Hb. reflexivity.
Qed.

Lemma zlen_cstring s : zlen (cstring s) = zlen (bytes_of_string s) + 1.
Proof. unfold cstring. rewrite zlen_app, zlen_cons, zlen_nil. lia. Qed.

Lemma zlen_lstring s : zlen (lstring s) = 4 + zlen (bytes_of_string s) + 1.
Proof. unfold lstring. rewrite !zlen_app, zlen_int_le, zlen_cons, zlen_nil. lia. Qed.

Lemma zlen_frame body : zlen (frame body) = 4 + zlen body + 1.
Proof. unfold frame. rewrite !zlen_app, zlen_int_le, zlen_cons, zlen_nil. lia. Qed.

Lemma zlen_element tag key payload :
  zlen (element tag key payload) = 1 + zlen (bytes_of_string key) + 1 + zlen payload.
Proof. unfold element. rewrite zlen_cons, zlen_app, zlen_cstring. lia. Qed.

(** ** Induction on values *)

Section value_induction.
Variable P : value -> Prop.
Hypothesis Hscalar : forall v, compound v = false -> P v.
Hypothesis Hdocument : forall d, Forall (fun kv => P (snd kv)) d -> P (VDocument d).
Hypothesis Harray : forall a, Forall P a -> P (VArray a).
Hypothesis Hscope : forall c d, Forall (fun kv => P (snd kv)) d -> P (VCodeWithScope c d).

Fixpoint value_nested_ind (v : value) : P v :=
  let entries :=
    fix entries (l : list (string * value)) : Forall (fun kv => P (snd kv)) l :=
      match l with
      | [] => List.Forall_nil _
      | kv :: r => List.Forall_cons _ kv r (value_nested_ind (snd kv)) (entries r)
      end in
  match v with
  | VDocument d => Hdocument d (entries d)
  | VArray a =>
      Harray a ((fix items (l : list value) : Forall P l :=
                   match l with
                   | [] => List.Forall_nil _
                   | x :: r => List.Forall_cons _ x r (value_nested_ind x) (items r)
                   end) a)
  | VCodeWithScope c d => Hscope c d (entries d)
  | v' => Hscalar v' eq_refl
  end.
End value_induction.

(** ** The size calculator agrees with the serializer *)

Section SizeAgreement.
Variables (sf iu : bool).

Lemma serializeEntry_document k d :
  serializeEntry sf iu k (VDocument d)
  = element BSON_DATA_OBJECT k (frame (serializeEntries sf iu d)).
Proof. reflexivity. Qed.

Lemma serializeEntry_array k a :
  serializeEntry sf iu k (VArray a)
  = element BSON_DATA_ARRAY k (frame (serializeItems sf iu 0 a)).
Proof. reflexivity. Qed.

Lemma serializeEntry_scope k c d :
  serializeEntry sf iu k (VCodeWithScope c d)
  = element BSON_DATA_CODE_W_SCOPE k
      (int_le 4 (4 + zlen (lstring c ++ frame (serializeEntries sf iu d)))
       ++ lstring c ++ frame (serializeEntries sf iu d)).
Proof. reflexivity. Qed.

Lemma calculateElement_document k d :
  calculateElement sf iu k (VDocument d)
  = 1 + zlen (bytes_of_string k) + 1 + (4 + calculateEntries sf iu d + 1).
Proof. reflexivity. Qed.

Lemma calculateElement_array k a :
  calculateElement sf iu k (VArray a)
  = 1 + zlen (bytes_of_string k) + 1 + (4 + calculateItems sf iu 0 a + 1).
Proof. reflexivity. Qed.

Lemma calculateElement_scope k c d :
  calculateElement sf iu k (VCodeWithScope c d)
  = 1 + zlen (bytes_of_string k) + 1 + 4 + (4 + zlen (bytes_of_string c) + 1)
    + (4 + calculateEntries sf iu d + 1).
Proof. reflexivity. Qed.

Lemma serializeEntry_size v : forall k,
  zlen (serializeEntry sf iu k v) = calculateElement sf iu k v.
Proof.
  induction v as [v Hv|d IH|a IH|c d IH] using value_nested_ind; intros k.
  - destruct v; try discriminate Hv; cbn [serializeEntry calculateElement];
      repeat match goal with |- context [if ?b then _ else _] => destruct b end;
      rewrite ?zlen_element, ?zlen_app, ?zlen_lstring, ?zlen_cstring, ?zlen_int_le,
        ?zlen_map, ?zlen_cons, ?zlen_nil; try lia.
    (* regular expression: sorting the flags keeps their number *)
    assert (E : forall f, zlen (bytes_of_string (sort_flags f)) = zlen (bytes_of_string f)).
    { assert (I : forall c l, zlen (bytes_of_string (insert_flag c l))
                              = 1 + zlen (bytes_of_string l)).
      { intros c l. induction l as [|d' r IHr]; cbn [insert_flag]; [reflexivity|].
        destruct (_ <=? _)%N; cbn [bytes_of_string]; rewrite ?zlen_cons, ?IHr; lia. }
      intros f. induction f as [|c r IHr]; cbn [sort_flags bytes_of_string]; [reflexivity|].
      rewrite I, zlen_cons, IHr. lia. }
    rewrite E. lia.
  - rewrite serializeEntry_document, calculateElement_document, zlen_element, zlen_frame.
    do 3 f_equal.
    induction IH as [|[k' x] r Hx _ IHr]; [reflexivity|].
    cbn [snd] in Hx. cbn [serializeEntries calculateEntries]. rewrite zlen_app, (Hx k'), IHr. reflexivity.
  - rewrite serializeEntry_array, calculateElement_array, zlen_element, zlen_frame.
    do 3 f_equal. generalize 0%nat.
    induction IH as [|x r Hx _ IHr]; intros i; [reflexivity|].
    cbn [serializeItems calculateItems]. rewrite zlen_app, Hx, IHr. reflexivity.
  - rewrite serializeEntry_scope, calculateElement_scope, zlen_element, !zlen_app,
      zlen_int_le, zlen_lstring, zlen_frame.
    assert (E : zlen (serializeEntries sf iu d) = calculateEntries sf iu d).
    { induction IH as [|[k' x] r Hx _ IHr]; [reflexivity|].
      cbn [snd] in Hx. cbn [serializeEntries calculateEntries]. rewrite zlen_app, (Hx k'), IHr. reflexivity. }
    rewrite E. lia.
Qed.

Lemma serializeEntries_size d :
  zlen (serializeEntries sf iu d) = calculateEntries sf iu d.
Proof.
  induction d as [|[k x] r IH]; [reflexivity|].
  cbn [serializeEntries calculateEntries]. rewrite zlen_app, serializeEntry_size, IH. reflexivity.
Qed.

Lemma encodeDocument_size d :
  zlen (encodeDocument sf iu d) = internalCalculateObjectSize d sf iu.
Proof.
  unfold encodeDocument, internalCalculateObjectSize, objectSize.
  rewrite zlen_frame, serializeEntries_size. reflexivity.
Qed.

End SizeAgreement.

(** ** Buffers *)

Lemma length_set_byte buf i b : length (set_byte buf i b) = length buf.
Proof. unfold set_byte. destruct (0 <=? i); [apply length_insert | reflexivity]. Qed.

Lemma length_write_bytes bs : forall buf i, length (write_bytes buf i bs) = length buf.
Proof.
  induction bs as [|b r IH]; intros buf i; cbn [write_bytes]; [reflexivity|].
  now rewrite IH, length_set_byte.
Qed.

Lemma write_bytes_beyond bs : forall buf i,
  zlen buf <= i -> write_bytes buf i bs = buf.
Proof.
  induction bs as [|b r IH]; intros buf i Hi; cbn [write_bytes]; [reflexivity|].
  assert (E : set_byte buf i b = buf).
  { unfold set_byte, zlen in *. destruct (0 <=? i); [|reflexivity].
    apply list_insert_ge. lia. }
  rewrite E. apply IH. lia.
Qed.

(** Storing [bs] from position [n] on overwrites what fits and leaves the
    rest of the buffer alone. *)
Lemma write_bytes_spec bs : forall buf (n : nat),
  (n <= length buf)%nat ->
  write_bytes buf (Z.of_nat n) bs
  = take n buf ++ take (length buf - n) bs ++ drop (n + length bs) buf.
Proof.
  induction bs as [|b r IH]; intros buf n Hn; cbn [write_bytes].
  - rewrite take_nil, Nat.add_0_r. cbn [app]. now rewrite take_drop.
  - destruct (decide (n = length buf)) as [->|Hne].
    + rewrite write_bytes_beyond by (unfold zlen; rewrite length_set_byte; lia).
      unfold set_byte. destruct (0 <=? _); [rewrite list_insert_ge by lia|];
        rewrite Nat.sub_diag, take_0, take_ge, drop_ge by (cbn [length]; lia);
        now rewrite app_nil_r.
    + assert (Hlt : (n < length buf)%nat) by lia.
      assert (E : set_byte buf (Z.of_nat n) b = take n buf ++ b :: drop (S n) buf).
      { unfold set_byte. destruct (Z.leb_spec 0 (Z.of_nat n)); [|lia].
        rewrite Nat2Z.id. now apply insert_take_drop. }
      replace (Z.of_nat n + 1) with (Z.of_nat (S n)) by lia.
      rewrite IH by (rewrite length_set_byte; lia).
      rewrite length_set_byte, E.
      assert (Ht : length (take n buf) = n) by (rewrite length_take; lia).
      rewrite take_app_ge by lia. rewrite Ht.
      replace (S n - n)%nat with 1%nat by lia. cbn [take]. rewrite take_0.
      rewrite drop_app_ge by lia. rewrite Ht.
      replace (S n + length r - n)%nat with (S (length r)) by lia. cbn [drop].
      rewrite drop_drop.
      replace (length buf - n)%nat with (S (length buf - S n)) by lia.
      cbn [take length]. rewrite <- !app_assoc. cbn [app].
      replace (S n + length r)%nat with (n + S (length r))%nat by lia. reflexivity.
Qed.

Lemma Buffer_alloc_ok size : 0 <= size -> Buffer_alloc size = Ok (replicate (Z.to_nat size) 0).
Proof. intros H. unfold Buffer_alloc. destruct (Z.ltb_spec size 0); [lia | reflexivity]. Qed.

Lemma Buffer_copy_from_start source target (start : Z) (n : nat) :
  0 <= start ->
  Buffer_copy source target start 0 (Z.of_nat n)
  = Ok (write_bytes target start (take n source)).
Proof.
  intros Hstart. unfold Buffer_copy.
  destruct (Z.ltb_spec start 0); [lia|].
  destruct (Z.ltb_spec (Z.of_nat n) 0); [lia|]. cbn [orb Z.ltb Z.compare].
  rewrite Z.sub_0_r. cbn [Z.to_nat drop]. rewrite drop_0. do 2 f_equal.
  unfold zlen. rewrite <- Nat2Z.inj_min, Nat2Z.id.
  destruct (Nat.le_ge_cases n (length source)).
  - now rewrite Nat.min_l.
  - rewrite Nat.min_r by assumption. now rewrite !take_ge by lia.
Qed.

(** ** The entry points, whatever the parser functions are *)

Section BsonTsFacts.
Context {Doc : Type}.
Variable internalSerialize :
  Buffer -> Doc -> bool -> Z -> Z -> bool -> bool -> option (list Doc) -> Buffer * result Z.

(** A buffer of the host has a fixed length: serializing into one changes
    its bytes only. *)
Hypothesis internalSerialize_length :
  forall buf object ck start depth sf iu path,
    length (fst (internalSerialize buf object ck start depth sf iu path)) = length buf.

Lemma setInternalBufferSize_spec size st :
  buffer (setInternalBufferSize size st)
  = if zlen (buffer st) <? size then replicate (Z.to_nat size) 0 else buffer st.
Proof.
  unfold setInternalBufferSize.
  destruct (Z.ltb_spec (zlen (buffer st)) size) as [Hlt|Hge]; [|reflexivity].
  pose proof (zlen_nonneg (buffer st)). rewrite Buffer_alloc_ok by lia. reflexivity.
Qed.

Lemma serialize_state object options st :
  zlen (buffer (snd (serialize internalSerialize object options st)))
  = Z.max (zlen (buffer st)) (default MAXSIZE (SerializationOptions.minInternalBufferSize options)).
Proof.
  unfold serialize.
  set (m := default MAXSIZE _).
  pose proof (zlen_nonneg (buffer st)) as Hnn.
  assert (E : exists b0,
    (if zlen (buffer st) <? m then Buffer_alloc m else Ok (buffer st)) = Ok b0
    /\ zlen b0 = Z.max (zlen (buffer st)) m).
  { destruct (Z.ltb_spec (zlen (buffer st)) m).
    - rewrite Buffer_alloc_ok by lia. eexists; split; [reflexivity|].
      unfold zlen in *. rewrite length_replicate. lia.
    - eexists; split; [reflexivity|]. lia. }
  destruct E as (b0 & -> & Hb0).
  pose proof (internalSerialize_length b0 object
    (default false (SerializationOptions.checkKeys options)) 0 0
    (default false (SerializationOptions.serializeFunctions options))
    (default true (SerializationOptions.ignoreUndefined options)) (Some [])) as Hlen.
  destruct (internalSerialize _ _ _ _ _ _ _ _) as [b1 [n|e]]; cbn [fst] in Hlen.
  - assert (zlen b1 = zlen b0) by (unfold zlen; now rewrite Hlen).
    destruct (Buffer_alloc n) as [fb|]; [|cbn; lia].
    destruct (Buffer_copy _ _ _ _ _); cbn; lia.
  - cbn. unfold zlen in *. rewrite Hlen. lia.
Qed.

Lemma serializeWithBufferAndIndex_state object finalBuffer options st :
  buffer (snd (serializeWithBufferAndIndex internalSerialize object finalBuffer options st))
  = fst (internalSerialize (buffer st) object
           (default false (SerializationOptions.checkKeys options)) 0 0
           (default false (SerializationOptions.serializeFunctions options))
           (default true (SerializationOptions.ignoreUndefined options)) None).
Proof.
  unfold serializeWithBufferAndIndex.
  destruct (internalSerialize _ _ _ _ _ _ _ _) as [b1 [n|e]]; [|reflexivity].
  destruct (Buffer_copy _ _ _ _ _); reflexivity.
Qed.

Lemma run_length op st :
  (length (buffer st) <= length (buffer (run internalSerialize op st)))%nat.
Proof.
  destruct op as [size|object options|object finalBuffer options| | |]; cbn [run];
    try lia.
  - rewrite setInternalBufferSize_spec.
    destruct (Z.ltb_spec (zlen (buffer st)) size); [|lia].
    rewrite length_replicate. unfold zlen in *. lia.
  - pose proof (serialize_state object options st). unfold zlen in *. lia.
  - rewrite serializeWithBufferAndIndex_state, internalSerialize_length. lia.
Qed.

(** C10: the length of the internal serialization buffer never decreases,
    whatever sequence of operations runs; [setInternalBufferSize] replaces
    the buffer by a zero-filled one of the requested size exactly when that
    size exceeds the current length and leaves the state alone otherwise;
    [serialize] leaves a buffer whose length is the larger of the current
    length and [minInternalBufferSize] (by default [MAXSIZE]);
    [serializeWithBufferAndIndex] keeps the length. *)
Theorem internal_buffer_never_shrinks :
  (forall ops st,
     (length (buffer st) <= length (buffer (run_all internalSerialize ops st)))%nat)
  /\ (forall size st,
        setInternalBufferSize size st
        = if zlen (buffer st) <? size then mkState (replicate (Z.to_nat size) 0) else st)
  /\ (forall object options st,
        zlen (buffer (snd (serialize internalSerialize object options st)))
        = Z.max (zlen (buffer st))
            (default MAXSIZE (SerializationOptions.minInternalBufferSize options)))
  /\ (forall object finalBuffer options st,
        length (buffer (snd (serializeWithBufferAndIndex internalSerialize
                               object finalBuffer options st)))
        = length (buffer st)).
Proof.
  split; [|split; [|split]].
  - intros ops. induction ops as [|op ops IH]; intros st; cbn [run_all fold_left]; [lia|].
    etransitivity; [apply (run_length op)|apply IH].
  - intros size st. unfold setInternalBufferSize.
    destruct (Z.ltb_spec (zlen (buffer st)) size); [|reflexivity].
    pose proof (zlen_nonneg (buffer st)). rewrite Buffer_alloc_ok by lia. reflexivity.
  - apply serialize_state.
  - intros. now rewrite serializeWithBufferAndIndex_state, internalSerialize_length.
Qed.

(** C3, as amended: [serializeWithBufferAndIndex] hands the shared internal
    buffer to the internal serialization pass, so the shared buffer ends as
    that pass leaves it; the call never replaces it by another buffer (its
    length stays), and the caller's buffer receives a copy of the encoding. *)
Theorem serializeWithBufferAndIndex_shared_buffer object finalBuffer options st :
  let pass := internalSerialize (buffer st) object
                (default false (SerializationOptions.checkKeys options)) 0 0
                (default false (SerializationOptions.serializeFunctions options))
                (default true (SerializationOptions.ignoreUndefined options)) None in
  let '(r, finalBuffer', st') :=
    serializeWithBufferAndIndex internalSerialize object finalBuffer options st in
  buffer st' = fst pass
  /\ length (buffer st') = length (buffer st)
  /\ (forall n, snd pass = Ok n -> 0 <= default 0 (SerializationOptions.index options) ->
      0 <= n ->
      finalBuffer' = write_bytes finalBuffer (default 0 (SerializationOptions.index options))
                       (take (Z.to_nat n) (fst pass))).
Proof.
  intros pass.
  pose proof (serializeWithBufferAndIndex_state object finalBuffer options st) as Hst.
  pose proof (internalSerialize_length (buffer st) object
    (default false (SerializationOptions.checkKeys options)) 0 0
    (default false (SerializationOptions.serializeFunctions options))
    (default true (SerializationOptions.ignoreUndefined options)) None) as Hlen.
  fold pass in Hst, Hlen.
  unfold serializeWithBufferAndIndex in *. fold pass in Hst |- *.
  destruct pass as [b1 [n|e]]; cbn [fst snd] in *.
  - set (start := default 0 (SerializationOptions.index options)) in *.
    destruct (Buffer_copy b1 finalBuffer start 0 n) as [fb|e] eqn:Hcopy; cbn [snd buffer] in *.
    + split; [reflexivity|]. split; [assumption|].
      intros n' [= <-] Hstart Hn.
      rewrite <- (Z2Nat.id n) in Hcopy by lia.
      rewrite Buffer_copy_from_start in Hcopy by lia.
      congruence.
    + split; [reflexivity|]. split; [assumption|].
      intros n' [= <-] Hstart Hn.
      rewrite <- (Z2Nat.id n) in Hcopy by lia.
      rewrite Buffer_copy_from_start in Hcopy by lia. discriminate.
  - split; [reflexivity|]. split; [assumption|]. intros n [=].
Qed.

End BsonTsFacts.

Section BsonTsResults.
Context {Doc : Type}.
Variable internalSerialize :
  Buffer -> Doc -> bool -> Z -> Z -> bool -> bool -> option (list Doc) -> Buffer * result Z.

Lemma zlen_working_buffer options st :
  zlen (working_buffer options st)
  = Z.max (zlen (buffer st)) (default MAXSIZE (SerializationOptions.minInternalBufferSize options)).
Proof.
  unfold working_buffer. pose proof (zlen_nonneg (buffer st)).
  destruct (Z.ltb_spec (zlen (buffer st))
              (default MAXSIZE (SerializationOptions.minInternalBufferSize options))); [|lia].
  unfold zlen in *. rewrite length_replicate. lia.
Qed.

(** What [serialize] returns once the internal pass has returned the end
    offset [n]: the first [n] bytes of the internal buffer, zero-padded when
    the buffer is shorter than [n]. *)
Lemma serialize_result object options st buffer1 (n : nat) :
  internalSerialize (working_buffer options st) object
    (default false (SerializationOptions.checkKeys options)) 0 0
    (default false (SerializationOptions.serializeFunctions options))
    (default true (SerializationOptions.ignoreUndefined options)) (Some [])
  = (buffer1, Ok (Z.of_nat n)) ->
  serialize internalSerialize object options st
  = (Ok (take n buffer1 ++ replicate (n - length buffer1) 0), mkState buffer1).
Proof.
  intros Hpass. unfold serialize. unfold working_buffer in Hpass.
  pose proof (zlen_nonneg (buffer st)).
  destruct (Z.ltb_spec (zlen (buffer st))
              (default MAXSIZE (SerializationOptions.minInternalBufferSize options))).
  - rewrite Buffer_alloc_ok by lia. rewrite Hpass.
    rewrite Buffer_alloc_ok by lia. rewrite Nat2Z.id.
    replace (zlen (replicate n 0)) with (Z.of_nat n)
      by (unfold zlen; now rewrite length_replicate).
    rewrite (Buffer_copy_from_start buffer1 (replicate n 0) 0 n) by lia.
    rewrite (write_bytes_spec _ _ 0%nat) by lia.
    rewrite take_0, Nat.sub_0_r, length_replicate. cbn [app Nat.add].
    rewrite (take_ge (take n buffer1)) by (rewrite length_take; lia).
    rewrite drop_replicate, length_take.
    replace (n - n `min` length buffer1)%nat with (n - length buffer1)%nat by lia.
    reflexivity.
  - rewrite Hpass.
    rewrite Buffer_alloc_ok by lia. rewrite Nat2Z.id.
    replace (zlen (replicate n 0)) with (Z.of_nat n)
      by (unfold zlen; now rewrite length_replicate).
    rewrite (Buffer_copy_from_start buffer1 (replicate n 0) 0 n) by lia.
    rewrite (write_bytes_spec _ _ 0%nat) by lia.
    rewrite take_0, Nat.sub_0_r, length_replicate. cbn [app Nat.add].
    rewrite (take_ge (take n buffer1)) by (rewrite length_take; lia).
    rewrite drop_replicate, length_take.
    replace (n - n `min` length buffer1)%nat with (n - length buffer1)%nat by lia.
    reflexivity.
Qed.

Lemma serialize_error object options st buffer1 e :
  internalSerialize (working_buffer options st) object
    (default false (SerializationOptions.checkKeys options)) 0 0
    (default false (SerializationOptions.serializeFunctions options))
    (default true (SerializationOptions.ignoreUndefined options)) (Some [])
  = (buffer1, Err e) ->
  serialize internalSerialize object options st = (Err e, mkState buffer1).
Proof.
  intros Hpass. unfold serialize. unfold working_buffer in Hpass.
  pose proof (zlen_nonneg (buffer st)).
  destruct (Z.ltb_spec (zlen (buffer st))
              (default MAXSIZE (SerializationOptions.minInternalBufferSize options)));
    rewrite ?Buffer_alloc_ok by lia; now rewrite Hpass.
Qed.

Lemma serializeWithBufferAndIndex_result object finalBuffer options st buffer1 n :
  internalSerialize (buffer st) object
    (default false (SerializationOptions.checkKeys options)) 0 0
    (default false (SerializationOptions.serializeFunctions options))
    (default true (SerializationOptions.ignoreUndefined options)) None
  = (buffer1, Ok n) ->
  0 <= default 0 (SerializationOptions.index options) -> 0 <= n ->
  serializeWithBufferAndIndex internalSerialize object finalBuffer options st
  = (Ok (default 0 (SerializationOptions.index options) + n - 1),
     write_bytes finalBuffer (default 0 (SerializationOptions.index options))
       (take (Z.to_nat n) buffer1),
     mkState buffer1).
Proof.
  intros Hpass Hstart Hn. unfold serializeWithBufferAndIndex. rewrite Hpass.
  rewrite <- (Z2Nat.id n) at 1 by lia.
  rewrite Buffer_copy_from_start by lia. reflexivity.
Qed.

Lemma serializeWithBufferAndIndex_error object finalBuffer options st buffer1 e :
  internalSerialize (buffer st) object
    (default false (SerializationOptions.checkKeys options)) 0 0
    (default false (SerializationOptions.serializeFunctions options))
    (default true (SerializationOptions.ignoreUndefined options)) None
  = (buffer1, Err e) ->
  serializeWithBufferAndIndex internalSerialize object finalBuffer options st
  = (Err e, finalBuffer, mkState buffer1).
Proof. intros Hpass. unfold serializeWithBufferAndIndex. now rewrite Hpass. Qed.

(** C5: when the internal pass over the document returns the end offset
    [n], [serializeWithBufferAndIndex] returns [startIndex + n - 1], where
    [startIndex] is [options.index] or 0 by default.  The bytes [0 .. n-1] of
    the internal buffer are copied to the target from [startIndex] on, so
    when the target has room for them the returned value is the index of the
    last byte written to it. *)
Theorem serializeWithBufferAndIndex_returns_last_index
    object finalBuffer options st buffer1 n :
  let startIndex := default 0 (SerializationOptions.index options) in
  internalSerialize (buffer st) object
    (default false (SerializationOptions.checkKeys options)) 0 0
    (default false (SerializationOptions.serializeFunctions options))
    (default true (SerializationOptions.ignoreUndefined options)) None
  = (buffer1, Ok n) ->
  0 <= startIndex -> 0 <= n ->
  exists finalBuffer',
    serializeWithBufferAndIndex internalSerialize object finalBuffer options st
    = (Ok (startIndex + n - 1), finalBuffer', mkState buffer1)
    /\ finalBuffer' = write_bytes finalBuffer startIndex (take (Z.to_nat n) buffer1)
    /\ (n <= zlen buffer1 -> startIndex + n <= zlen finalBuffer ->
        finalBuffer' = take (Z.to_nat startIndex) finalBuffer
                       ++ take (Z.to_nat n) buffer1
                       ++ drop (Z.to_nat (startIndex + n)) finalBuffer).
Proof.
  intros startIndex Hpass Hstart Hn.
  rewrite (serializeWithBufferAndIndex_result _ _ _ _ buffer1 n Hpass Hstart Hn).
  fold startIndex.
  eexists. split; [reflexivity|]. split; [reflexivity|].
  intros Hfit1 Hfit2. unfold zlen in *.
  rewrite <- (Z2Nat.id startIndex) at 1 by lia.
  rewrite write_bytes_spec by lia.
  rewrite length_take, Nat.min_l by lia.
  rewrite (take_ge (take _ buffer1)) by (rewrite length_take; lia).
  replace (Z.to_nat startIndex + Z.to_nat n)%nat with (Z.to_nat (startIndex + n)) by lia.
  reflexivity.
Qed.

End BsonTsResults.

(** ** The length prefix as the bitwise expression reads it *)

Lemma toInt32_small z : - 2 ^ 31 <= z < 2 ^ 31 -> toInt32 z = z.
Proof. intros H. unfold toInt32. rewrite Z.mod_small; lia. Qed.

Lemma lor_disjoint a b n :
  0 <= n -> 0 <= a < 2 ^ n -> Z.lor a (b * 2 ^ n) = a + b * 2 ^ n.
Proof.
  intros Hn Ha. symmetry. apply Z.add_nocarry_lor.
  apply Z.bits_inj'. intros i Hi. rewrite Z.land_spec, Z.bits_0.
  destruct (Z.lt_ge_cases i n) as [Hlt|Hge].
  - rewrite Z.mul_pow2_bits_low by lia. apply andb_false_r.
  - rewrite <- (Z.mod_small a (2 ^ n)) by lia.
    rewrite Z.mod_pow2_bits_high by lia. reflexivity.
Qed.

Lemma js_shl_byte b k :
  is_byte b -> 0 <= k < 32 -> b * 2 ^ k < 2 ^ 31 -> js_shl b k = b * 2 ^ k.
Proof.
  intros Hb Hk Hlt. unfold js_shl, is_byte in *.
  rewrite Z.mod_small by lia. rewrite (toInt32_small b) by lia.
  rewrite Z.shiftl_mul_pow2 by lia. apply toInt32_small.
  assert (0 < 2 ^ k) by (apply Z.pow_pos_nonneg; lia). nia.
Qed.

Lemma size_expression b0 b1 b2 b3 :
  is_byte b0 -> is_byte b1 -> is_byte b2 -> is_byte b3 ->
  le_uint [b0; b1; b2; b3] < 2 ^ 31 ->
  js_or (js_or (js_or b0 (js_shl b1 8)) (js_shl b2 16)) (js_shl b3 24)
  = le_uint [b0; b1; b2; b3].
Proof.
  unfold is_byte. cbn [le_uint]. intros H0 H1 H2 H3 Hlt.
  rewrite !js_shl_byte by (unfold is_byte; lia).
  unfold js_or.
  rewrite (toInt32_small b0), (toInt32_small (b1 * 2 ^ 8)) by lia.
  rewrite (lor_disjoint b0 b1 8) by lia.
  rewrite (toInt32_small (b0 + b1 * 2 ^ 8)) by lia.
  rewrite (toInt32_small (b0 + b1 * 2 ^ 8)), (toInt32_small (b2 * 2 ^ 16)) by lia.
  rewrite (lor_disjoint (b0 + b1 * 2 ^ 8) b2 16) by lia.
  rewrite (toInt32_small (b0 + b1 * 2 ^ 8 + b2 * 2 ^ 16)) by lia.
  rewrite (toInt32_small (b0 + b1 * 2 ^ 8 + b2 * 2 ^ 16)), (toInt32_small (b3 * 2 ^ 24)) by lia.
  rewrite (lor_disjoint (b0 + b1 * 2 ^ 8 + b2 * 2 ^ 16) b3 24) by lia.
  rewrite toInt32_small by lia. lia.
Qed.

Lemma byte_at_app pre l (k : nat) :
  byte_at (pre ++ l) (zlen pre + Z.of_nat k) = default 0 (l !! k).
Proof.
  unfold byte_at, zlen. destruct (Z.leb_spec 0 (Z.of_nat (length pre) + Z.of_nat k)); [|lia].
  replace (Z.to_nat (Z.of_nat (length pre) + Z.of_nat k)) with (length pre + k)%nat by lia.
  now rewrite lookup_app_r, Nat.add_comm, Nat.add_sub by lia.
Qed.

Lemma size_at_frame pre f post :
  framed f -> size_at (pre ++ f ++ post) (zlen pre) = zlen f.
Proof.
  intros (Hlen & Hbytes & Hprefix & Hsmall). unfold size_at.
  destruct f as [|b0 [|b1 [|b2 [|b3 rest]]]]; cbn [length] in Hlen; try lia.
  unfold prefix_of in Hprefix. cbn [take] in Hprefix, Hbytes. rewrite take_0 in Hprefix, Hbytes.
  rewrite <- (Z.add_0_r (zlen pre)) at 1.
  rewrite (byte_at_app pre _ 0), (byte_at_app pre _ 1), (byte_at_app pre _ 2),
    (byte_at_app pre _ 3).
  cbn [app lookup list_lookup default id].
  inversion Hbytes as [|? ? B0 Hb1]; subst. inversion Hb1 as [|? ? B1 Hb2]; subst.
  inversion Hb2 as [|? ? B2 Hb3]; subst. inversion Hb3 as [|? ? B3 _]; subst.
  rewrite size_expression by (assumption || lia). exact Hprefix.
Qed.

(** ** deserializeStream *)

Lemma store_all_lookup {Doc} (docs : list Doc) : forall at_ documents (k : nat) d,
  docs !! k = Some d -> store_all at_ docs documents !! (at_ + Z.of_nat k) = Some d.
Proof.
  assert (Hother : forall (docs : list Doc) at_ documents j,
            j < at_ -> store_all at_ docs documents !! j = documents !! j).
  { intros l. induction l as [|d r IH]; intros at_ documents j Hj; cbn [store_all];
      [reflexivity|].
    rewrite IH by lia. apply lookup_insert_ne. lia. }
  induction docs as [|d r IH]; intros at_ documents k x Hk; [discriminate|].
  cbn [store_all]. destruct k as [|k].
  - injection Hk as <-. rewrite Hother by lia.
    rewrite Z.add_0_r. apply lookup_insert_eq.
  - replace (at_ + Z.of_nat (S k)) with (at_ + 1 + Z.of_nat k) by lia.
    apply IH. exact Hk.
Qed.

Lemma store_all_other {Doc} (docs : list Doc) : forall at_ documents j,
  j < at_ \/ at_ + zlen docs <= j -> store_all at_ docs documents !! j = documents !! j.
Proof.
  induction docs as [|d r IH]; intros at_ documents j Hj; cbn [store_all]; [reflexivity|].
  rewrite zlen_cons in Hj. pose proof (zlen_nonneg r).
  rewrite IH by lia. apply lookup_insert_ne. lia.
Qed.

Lemma sum_prefixes_framed frames :
  Forall framed frames -> sum_prefixes frames = zlen (concat frames).
Proof.
  induction 1 as [|f r Hf _ IH]; [reflexivity|].
  cbn [sum_prefixes fold_right concat]. fold (sum_prefixes r).
  destruct Hf as (_ & _ & -> & _). rewrite zlen_app, IH. reflexivity.
Qed.

Section DeserializeStream.
Context {Doc : Type}.
Variable internalDeserialize : Buffer -> DeserializationOptions.t -> result Doc.

Lemma set_index_twice o i j :
  DeserializationOptions.set_index (DeserializationOptions.set_index o i) j
  = DeserializationOptions.set_index o j.
Proof. reflexivity. Qed.

Lemma deserializeStream_loop_frames frames : forall docs pre post opts docStartIndex i documents,
  Forall framed frames ->
  Forall2 (fun off doc =>
             internalDeserialize (pre ++ concat frames ++ post)
               (DeserializationOptions.set_index opts off) = Ok doc)
          (offsets (zlen pre) frames) docs ->
  deserializeStream_loop internalDeserialize (length frames) (pre ++ concat frames ++ post)
    opts docStartIndex i (zlen pre) documents
  = (Ok (zlen pre + zlen (concat frames)), store_all (docStartIndex + i) docs documents).
Proof.
  induction frames as [|f frames IH]; intros docs pre post opts docStartIndex i documents Hfr Hdocs.
  - inversion Hdocs; subst. cbn. now rewrite Z.add_0_r.
  - cbn [offsets] in Hdocs. inversion Hdocs as [|off doc offs docs' Hdoc Hrest]; subst.
    inversion Hfr as [|? ? Hf Hfr']; subst. clear Hdocs Hfr.
    assert (E : pre ++ concat (f :: frames) ++ post = (pre ++ f) ++ concat frames ++ post)
      by (cbn [concat]; now rewrite <- !app_assoc).
    assert (Hsize : size_at (pre ++ concat (f :: frames) ++ post) (zlen pre) = zlen f).
    { cbn [concat]. rewrite <- (app_assoc f). now apply size_at_frame. }
    cbn [length deserializeStream_loop]. rewrite Hdoc, Hsize. rewrite E in Hrest |- *.
    replace (zlen pre + zlen f) with (zlen (pre ++ f)) in * by apply zlen_app.
    rewrite (IH docs' (pre ++ f) post) with (docStartIndex := docStartIndex); [| assumption |].
    + cbn [store_all concat]. rewrite !zlen_app. do 2 f_equal; [lia|].
      replace (docStartIndex + (i + 1)) with (docStartIndex + i + 1) by lia. reflexivity.
    + eapply Forall2_impl; [exact Hrest|]. intros off doc' H.
      rewrite set_index_twice. exact H.
Qed.

Lemma deserializeStream_frames_result
    pre frames post docs documents docStartIndex options :
  Forall framed frames ->
  Forall2 (fun off doc =>
             internalDeserialize (pre ++ concat frames ++ post)
               (DeserializationOptions.set_index
                  (DeserializationOptions.assign
                     (DeserializationOptions.mk None None (Some true) (Some 0)) options)
                  off)
             = Ok doc)
          (offsets (zlen pre) frames) docs ->
  deserializeStream internalDeserialize (pre ++ concat frames ++ post) (zlen pre)
    (zlen frames) documents docStartIndex options
  = (Ok (zlen pre + zlen (concat frames)), store_all docStartIndex docs documents).
Proof.
  intros Hfr Hdocs. unfold deserializeStream, ensureBuffer.
  replace (Z.to_nat (zlen frames)) with (length frames) by (unfold zlen; lia).
  rewrite (deserializeStream_loop_frames frames docs pre post _ docStartIndex 0 documents
             Hfr Hdocs).
  now rewrite Z.add_0_r.
Qed.

(** C4: on a buffer that holds [numberOfDocuments] framed documents back to
    back from [startIndex] on, each of which the internal deserializer
    parses at its start position, [deserializeStream] stores the i-th parsed
    document at [documents[docStartIndex + i]], leaves the other elements of
    [documents] alone, and returns [startIndex] plus the sum of the frames'
    little-endian length prefixes, which is the index after the last frame. *)
Theorem deserializeStream_stores_and_advances
    pre frames post docs documents docStartIndex options :
  let data := pre ++ concat frames ++ post in
  let startIndex := zlen pre in
  let internalOptions :=
    DeserializationOptions.assign
      (DeserializationOptions.mk None None (Some true) (Some 0)) options in
  Forall framed frames ->
  Forall2 (fun off doc =>
             internalDeserialize data (DeserializationOptions.set_index internalOptions off)
             = Ok doc)
          (offsets startIndex frames) docs ->
  let out := deserializeStream internalDeserialize data startIndex (zlen frames)
               documents docStartIndex options in
  fst out = Ok (startIndex + sum_prefixes frames)
  /\ startIndex + sum_prefixes frames = zlen (pre ++ concat frames)
  /\ (forall (i : nat) doc, docs !! i = Some doc ->
        snd out !! (docStartIndex + Z.of_nat i) = Some doc)
  /\ (forall j, j < docStartIndex \/ docStartIndex + zlen frames <= j ->
        snd out !! j = documents !! j).
Proof.
  intros data startIndex internalOptions Hfr Hdocs out.
  subst out data startIndex.
  rewrite (deserializeStream_frames_result pre frames post docs documents docStartIndex
             options Hfr Hdocs).
  cbn [fst snd]. rewrite (sum_prefixes_framed frames Hfr).
  split; [reflexivity|]. split; [now rewrite zlen_app|]. split.
  - intros i doc Hi. now apply store_all_lookup.
  - intros j Hj. apply store_all_other.
    assert (length docs = length frames) as E.
    { apply Forall2_length in Hdocs. rewrite <- Hdocs.
      clear. generalize (zlen pre). induction frames; intros s; cbn; [reflexivity|].
      now rewrite IHframes. }
    unfold zlen in *. rewrite E. exact Hj.
Qed.

End DeserializeStream.

(** ** Reading back what the serializer writes *)

Lemma read_bytes_app a rest : read_bytes (zlen a) (a ++ rest) = Ok (a, rest).
Proof.
  unfold read_bytes. pose proof (zlen_nonneg a). pose proof (zlen_nonneg rest).
  destruct (Z.ltb_spec (zlen a) 0); [lia|].
  destruct (Z.ltb_spec (zlen (a ++ rest)) (zlen a)); [rewrite zlen_app in *; lia|].
  cbn [orb]. unfold zlen. rewrite Nat2Z.id.
  now rewrite take_app_length, drop_app_length.
Qed.

Lemma read_bytes_exact n a rest : n = zlen a -> read_bytes n (a ++ rest) = Ok (a, rest).
Proof. intros ->. apply read_bytes_app. Qed.

Lemma read_uint_int_le (n : nat) z rest :
  read_uint (Z.of_nat n) (int_le n z ++ rest) = Ok (z mod 2 ^ (8 * Z.of_nat n), rest).
Proof.
  unfold read_uint. rewrite (read_bytes_exact _ (int_le n z)) by now rewrite zlen_int_le.
  cbn. now rewrite le_uint_int_le.
Qed.

Lemma read_uint_small (n : nat) z rest :
  0 <= z < 2 ^ (8 * Z.of_nat n) -> read_uint (Z.of_nat n) (int_le n z ++ rest) = Ok (z, rest).
Proof. intros H. rewrite read_uint_int_le, Z.mod_small by exact H. reflexivity. Qed.

Lemma read_int_int_le (n : nat) z rest :
  (0 < n)%nat -> - 2 ^ (8 * Z.of_nat n - 1) <= z < 2 ^ (8 * Z.of_nat n - 1) ->
  read_int (Z.of_nat n) (int_le n z ++ rest) = Ok (z, rest).
Proof.
  intros Hn Hz. unfold read_int. rewrite read_uint_int_le. cbn.
  rewrite to_signed_wrap by lia. reflexivity.
Qed.

Lemma read_int4 z rest :
  - 2 ^ 31 <= z < 2 ^ 31 -> read_int 4 (int_le 4 z ++ rest) = Ok (z, rest).
Proof. intros H. apply (read_int_int_le 4); [lia | exact H]. Qed.

Lemma read_int8 z rest :
  - 2 ^ 63 <= z < 2 ^ 63 -> read_int 8 (int_le 8 z ++ rest) = Ok (z, rest).
Proof. intros H. apply (read_int_int_le 8); [lia | exact H]. Qed.

Lemma read_uint1 z rest :
  0 <= z < 2 ^ 8 -> read_uint 1 (int_le 1 z ++ rest) = Ok (z, rest).
Proof. apply (read_uint_small 1). Qed.

Lemma read_uint4 z rest :
  0 <= z < 2 ^ 32 -> read_uint 4 (int_le 4 z ++ rest) = Ok (z, rest).
Proof. apply (read_uint_small 4). Qed.

Lemma read_uint8 z rest :
  0 <= z < 2 ^ 64 -> read_uint 8 (int_le 8 z ++ rest) = Ok (z, rest).
Proof. apply (read_uint_small 8). Qed.

Lemma no_nul_byte c s : no_nul (String c s) = true -> (byte_of_ascii c =? 0) = false.
Proof.
  cbn [no_nul]. intros H. apply andb_prop in H as [H _].
  apply Z.eqb_neq. intros E. apply byte_of_ascii_zero in E. subst c. discriminate H.
Qed.

Lemma read_cstring_cstring s rest :
  no_nul s = true -> read_cstring (cstring s ++ rest) = Ok (s, rest).
Proof.
  unfold cstring. induction s as [|c s IH]; intros H; cbn [bytes_of_string app read_cstring].
  - reflexivity.
  - rewrite (no_nul_byte c s H). cbn [no_nul] in H. apply andb_prop in H as [_ H].
    rewrite <- app_assoc in IH. cbn [app] in IH. rewrite <- app_assoc. cbn [app].
    rewrite (IH H). cbn. now rewrite ascii_of_byte_of_ascii.
Qed.

Lemma read_lstring_lstring s rest :
  zlen (bytes_of_string s) + 1 < 2 ^ 31 -> read_lstring (lstring s ++ rest) = Ok (s, rest).
Proof.
  intros H. pose proof (zlen_nonneg (bytes_of_string s)).
  unfold read_lstring, lstring. rewrite <- !app_assoc.
  rewrite read_int4 by lia. cbn [mbind result_bind].
  destruct (Z.ltb_spec (zlen (bytes_of_string s) + 1) 1); [lia|].
  rewrite read_bytes_exact by lia. cbn. now rewrite string_of_bytes_of_string.
Qed.

Lemma no_nul_decimal z : no_nul (decimal z) = true.
Proof.
  assert (U : forall d, no_nul (NilEmpty.string_of_uint d) = true)
    by (induction d; cbn; auto).
  assert (V : forall d, no_nul (NilZero.string_of_uint d) = true)
    by (intros d; destruct d; try apply U; reflexivity).
  unfold decimal. destruct (Z.to_int z); cbn [NilZero.string_of_int no_nul]; [apply V|].
  rewrite V. reflexivity.
Qed.

Lemma sort_flags_sorted f : String.eqb (sort_flags f) f = true -> sort_flags f = f.
Proof. apply String.eqb_eq. Qed.

Lemma bytes_ok_Forall l : bytes_ok l = true -> Forall is_byte l.
Proof.
  unfold bytes_ok. induction l as [|b r IH]; cbn [forallb]; intros H; constructor.
  - apply andb_prop in H as [H _]. unfold is_byte. lia.
  - apply IH. now apply andb_prop in H as [_ H].
Qed.

Ltac bool_to_prop :=
  repeat match goal with
  | H : (_ && _) = true |- _ => apply andb_prop in H as [? ?]
  | H : (_ <=? _) = true |- _ => apply Z.leb_le in H
  | H : (_ <? _) = true |- _ => apply Z.ltb_lt in H
  | H : (_ =? _) = true |- _ => apply Z.eqb_eq in H
  | H : bytes_ok _ = true |- _ => apply bytes_ok_Forall in H
  end.

(** Records that the lengths mentioned in the hypotheses are not negative. *)
Ltac zlen_facts :=
  repeat match goal with
  | H : context [zlen ?l] |- _ =>
      lazymatch goal with
      | _ : 0 <= zlen l |- _ => fail
      | _ => pose proof (zlen_nonneg l)
      end
  end.

(** Reduces the tag dispatch of [parse_value] on a known tag. *)
Ltac pick_tag :=
  unfold parse_value;
  repeat match goal with
  | |- context [Z.eqb ?a ?b] =>
      let r := eval vm_compute in (Z.eqb a b) in
      match r with
      | true => change (Z.eqb a b) with true
      | false => change (Z.eqb a b) with false
      end; cbv iota
  end.

(** ** Round trip of the codec *)

Section RoundTrip.
Variables (sf iu promote : bool).

Lemma map_snd_keyed a : forall i, map snd (keyed i a) = a.
Proof. induction a as [|x r IH]; intros i; cbn; [reflexivity | now rewrite IH]. Qed.

Lemma supported_document_cons k x r :
  supported promote (VDocument ((k, x) :: r)) = true ->
  no_nul k = true /\ supported promote x = true /\ supported promote (VDocument r) = true.
Proof.
  cbn [supported]. intros H. apply andb_prop in H as [H Hr]. apply andb_prop in H as [Hk Hx].
  auto.
Qed.

Lemma supported_array_cons x r :
  supported promote (VArray (x :: r)) = true ->
  supported promote x = true /\ supported promote (VArray r) = true.
Proof. cbn [supported]. intros H. apply andb_prop in H as [Hx Hr]. auto. Qed.

(** A framed body is read through its entries; bytes left over before the
    closing NUL of the frame are refused. *)
Lemma parse_document_frame_over body es over fuel rest :
  zlen (frame body) < 2 ^ 31 ->
  parse_elements promote fuel (body ++ [0]) = Ok (es, over) ->
  parse_document promote (S fuel) (frame body ++ rest)
  = match over with [] => Ok (es, rest) | _ => Err BadLengthPrefix end.
Proof.
  intros Hsize Hes. rewrite zlen_frame in Hsize. pose proof (zlen_nonneg body) as Hnn.
  assert (E : frame body ++ rest = int_le 4 (4 + zlen body + 1) ++ (body ++ [0]) ++ rest)
    by (unfold frame; now rewrite <- !app_assoc).
  rewrite E. cbn [parse_document].
  rewrite read_int4 by lia. cbn [mbind result_bind].
  destruct (Z.ltb_spec (4 + zlen body + 1) 5); [lia|].
  assert (Hlen : zlen (int_le 4 (4 + zlen body + 1) ++ (body ++ [0]) ++ rest)
                 = 4 + zlen body + 1 + zlen rest).
  { rewrite !zlen_app, zlen_int_le, zlen_cons, zlen_nil. lia. }
  rewrite Hlen. pose proof (zlen_nonneg rest).
  destruct (Z.ltb_spec (4 + zlen body + 1 + zlen rest) (4 + zlen body + 1)); [lia|].
  replace (Z.to_nat (4 + zlen body + 1 - 4)) with (length (body ++ [0]))
    by (rewrite length_app; cbn [length]; unfold zlen in *; lia).
  rewrite take_app_length, drop_app_length.
  rewrite last_snoc, Hes. reflexivity.
Qed.

Lemma parse_document_frame body es fuel rest :
  zlen (frame body) < 2 ^ 31 ->
  parse_elements promote fuel (body ++ [0]) = Ok (es, []) ->
  parse_document promote (S fuel) (frame body ++ rest) = Ok (es, rest).
Proof. intros Hsize Hes. now rewrite (parse_document_frame_over body es []). Qed.


Local Abbreviation reads_back := (entry_reads_back sf iu promote).

Lemma scalar_reads_back v : compound v = false -> reads_back v.
Proof.
  intros Hv k fuel rest Hsup Hsize _.
  rewrite serializeEntry_size in Hsize.
  destruct v; try discriminate Hv; try discriminate Hsup;
    cbn [supported] in Hsup; cbn [calculateElement] in Hsize; bool_to_prop;
    cbn [serializeEntry]; unfold element; eexists _, _;
    (split; [reflexivity|]); (split; [reflexivity|]); pick_tag;
    zlen_facts.
  - (* Double *) rewrite read_uint8 by lia. reflexivity.
  - (* String *) rewrite read_lstring_lstring by lia. reflexivity.
  - (* Binary *)
    rewrite <- !app_assoc, read_int4 by lia. cbn [mbind result_bind].
    rewrite read_uint1 by lia. cbn [mbind result_bind].
    rewrite mod_small_bytes, read_bytes_app by assumption. reflexivity.
  - (* ObjectId *)
    rewrite mod_small_bytes by assumption. rewrite read_bytes_exact by lia. reflexivity.
  - (* Boolean *)
    unfold read_uint. rewrite (read_bytes_exact 1 [_]) by reflexivity.
    destruct b; reflexivity.
  - (* DateTime *) rewrite read_int8 by lia. reflexivity.
  - (* Null *) reflexivity.
  - (* RegExp *)
    match goal with H : String.eqb _ _ = true |- _ => apply String.eqb_eq in H; rewrite H end.
    rewrite <- app_assoc, read_cstring_cstring by assumption. cbn [mbind result_bind].
    rewrite read_cstring_cstring by assumption. reflexivity.
  - (* DBPointer *)
    rewrite <- app_assoc, read_lstring_lstring by lia. cbn [mbind result_bind].
    rewrite mod_small_bytes by assumption. rewrite read_bytes_exact by lia. reflexivity.
  - (* Code *) rewrite read_lstring_lstring by lia. reflexivity.
  - (* Symbol *) rewrite read_lstring_lstring by lia. reflexivity.
  - (* Int32 *) rewrite read_int4 by (unfold BSON_INT32_MIN, BSON_INT32_MAX in *; lia). reflexivity.
  - (* Timestamp *)
    rewrite <- app_assoc, read_uint4 by lia. cbn [mbind result_bind].
    rewrite read_uint4 by lia. reflexivity.
  - (* Int64 *)
    rewrite read_int8 by lia. cbn [mbind result_bind].
    match goal with H : negb ?c = true |- _ => apply negb_true_iff in H; rewrite H end.
    reflexivity.
  - (* Decimal128 *)
    rewrite mod_small_bytes by assumption. rewrite read_bytes_exact by lia. reflexivity.
  - (* MinKey *) reflexivity.
  - (* MaxKey *) reflexivity.
Qed.

Lemma entry_nonempty v k tag payload :
  serializeEntry sf iu k v = tag :: cstring k ++ payload ->
  (2 <= length (serializeEntry sf iu k v))%nat.
Proof.
  intros ->. unfold cstring. cbn [length]. rewrite !length_app. cbn [length]. lia.
Qed.

Lemma entries_read_back d :
  Forall (fun kv => reads_back (snd kv)) d ->
  forall fuel rest,
    supported promote (VDocument d) = true ->
    zlen (serializeEntries sf iu d) < 2 ^ 31 ->
    (length (serializeEntries sf iu d) < fuel)%nat ->
    parse_elements promote fuel (serializeEntries sf iu d ++ 0 :: rest) = Ok (d, rest).
Proof.
  induction 1 as [|[k x] r Hx _ IH]; intros fuel rest Hsup Hsize Hfuel.
  - destruct fuel as [|f]; [cbn in Hfuel; lia|]. reflexivity.
  - destruct fuel as [|f]; [lia|].
    apply supported_document_cons in Hsup as (Hk & Hsx & Hsr).
    cbn [serializeEntries] in *. rewrite zlen_app in Hsize. rewrite length_app in Hfuel.
    cbn [snd] in Hx. zlen_facts.
    destruct (Hx k f (serializeEntries sf iu r ++ 0 :: rest) Hsx ltac:(lia) ltac:(lia))
      as (tag & payload & E & Htag & Hparse).
    pose proof (entry_nonempty x k tag payload E) as H2.
    rewrite E. rewrite <- !app_assoc. cbn [app parse_elements]. rewrite Htag.
    rewrite <- !app_assoc.
    rewrite read_cstring_cstring by exact Hk. cbn [mbind result_bind].
    rewrite Hparse. cbn [mbind result_bind].
    rewrite IH by (assumption || lia). reflexivity.
Qed.

Lemma items_read_back a :
  Forall reads_back a ->
  forall i fuel rest,
    supported promote (VArray a) = true ->
    zlen (serializeItems sf iu i a) < 2 ^ 31 ->
    (length (serializeItems sf iu i a) < fuel)%nat ->
    parse_elements promote fuel (serializeItems sf iu i a ++ 0 :: rest)
    = Ok (keyed i a, rest).
Proof.
  induction 1 as [|x r Hx _ IH]; intros i fuel rest Hsup Hsize Hfuel.
  - destruct fuel as [|f]; [cbn in Hfuel; lia|]. reflexivity.
  - destruct fuel as [|f]; [lia|].
    apply supported_array_cons in Hsup as (Hsx & Hsr).
    cbn [serializeItems keyed] in *. rewrite zlen_app in Hsize. rewrite length_app in Hfuel.
    zlen_facts.
    destruct (Hx (index_key i) f (serializeItems sf iu (S i) r ++ 0 :: rest) Hsx
                ltac:(lia) ltac:(lia)) as (tag & payload & E & Htag & Hparse).
    pose proof (entry_nonempty x _ tag payload E) as H2.
    rewrite E. rewrite <- !app_assoc. cbn [app parse_elements]. rewrite Htag.
    rewrite <- !app_assoc.
    rewrite read_cstring_cstring by apply no_nul_decimal. cbn [mbind result_bind].
    rewrite Hparse. cbn [mbind result_bind].
    rewrite IH by (assumption || lia). reflexivity.
Qed.

Lemma every_value_reads_back v : reads_back v.
Proof.
  induction v as [v Hv|d IH|a IH|c d IH] using value_nested_ind.
  - now apply scalar_reads_back.
  - intros k fuel rest Hsup Hsize Hfuel.
    rewrite serializeEntry_document in *. unfold element in *.
    eexists _, _. split; [reflexivity|]. split; [reflexivity|]. pick_tag.
    rewrite zlen_cons, zlen_app in Hsize. cbn [length] in Hfuel. rewrite length_app in Hfuel.
    zlen_facts. destruct fuel as [|f]; [lia|].
    rewrite (parse_document_frame _ d); [| lia |].
    2:{ rewrite zlen_frame in *. unfold frame in Hfuel.
        rewrite !length_app, length_int_le in Hfuel. cbn [length] in Hfuel.
        apply entries_read_back; [assumption | assumption | lia | lia]. }
    reflexivity.
  - intros k fuel rest Hsup Hsize Hfuel.
    rewrite serializeEntry_array in *. unfold element in *.
    eexists _, _. split; [reflexivity|]. split; [reflexivity|]. pick_tag.
    rewrite zlen_cons, zlen_app in Hsize. cbn [length] in Hfuel. rewrite length_app in Hfuel.
    zlen_facts. destruct fuel as [|f]; [lia|].
    rewrite (parse_document_frame _ (keyed 0 a)); [| lia |].
    2:{ rewrite zlen_frame in *. unfold frame in Hfuel.
        rewrite !length_app, length_int_le in Hfuel. cbn [length] in Hfuel.
        apply items_read_back; [assumption | assumption | lia | lia]. }
    cbn [mbind result_bind]. now rewrite map_snd_keyed.
  - intros k fuel rest Hsup Hsize Hfuel.
    rewrite serializeEntry_scope in *. unfold element in *.
    eexists _, _. split; [reflexivity|]. split; [reflexivity|]. pick_tag.
    rewrite zlen_cons, !zlen_app, zlen_int_le, zlen_lstring in Hsize.
    cbn [length] in Hfuel. rewrite !length_app, length_int_le in Hfuel.
    zlen_facts. destruct fuel as [|f]; [lia|].
    set (body := serializeEntries sf iu d) in *.
    rewrite <- !app_assoc.
    rewrite read_int4 by (rewrite zlen_app, zlen_lstring; lia). cbn [mbind result_bind].
    rewrite read_lstring_lstring by lia. cbn [mbind result_bind].
    rewrite (parse_document_frame _ d); [| lia |].
    2:{ rewrite zlen_frame in *. unfold frame in Hfuel.
        rewrite !length_app, length_int_le in Hfuel. cbn [length] in Hfuel.
        subst body. zlen_facts.
        apply entries_read_back; [assumption | assumption | lia | lia]. }
    cbn [mbind result_bind].
    replace (_ =? _) with true; [reflexivity|]. symmetry. apply Z.eqb_eq.
    rewrite !zlen_app, zlen_int_le. lia.
Qed.

(** The encoding of a supported document reads back as the document. *)
Lemma document_reads_back d rest :
  supported_document promote d = true ->
  zlen (encodeDocument sf iu d) < 2 ^ 31 ->
  parse_document promote (S (length (encodeDocument sf iu d ++ rest)))
    (encodeDocument sf iu d ++ rest) = Ok (d, rest).
Proof.
  intros Hsup Hsize. unfold encodeDocument in *.
  apply parse_document_frame; [exact Hsize|].
  rewrite zlen_frame in Hsize. zlen_facts.
  apply entries_read_back.
  - clear. induction d as [|[k x] r IH]; constructor; [apply every_value_reads_back | exact IH].
  - exact Hsup.
  - lia.
  - unfold frame. rewrite !length_app, length_int_le. cbn [length]. lia.
Qed.

End RoundTrip.

(** ** The entry points on documents of the value model *)

Lemma serializeInto_length buf object ck start depth sf iu path :
  length (fst (serializeInto buf object ck start depth sf iu path)) = length buf.
Proof.
  unfold serializeInto. destruct (ck && negb _); cbn [fst]; [reflexivity|].
  apply length_write_bytes.
Qed.

Lemma write_bytes_at_start buf bs :
  (length bs <= length buf)%nat ->
  write_bytes buf 0 bs = bs ++ drop (length bs) buf.
Proof.
  intros H. change 0 with (Z.of_nat 0). rewrite (write_bytes_spec bs buf 0) by lia.
  rewrite take_0, Nat.sub_0_r, take_ge by lia. reflexivity.
Qed.

Lemma write_bytes_overflow buf bs :
  (length buf <= length bs)%nat ->
  write_bytes buf 0 bs = take (length buf) bs.
Proof.
  intros H. change 0 with (Z.of_nat 0). rewrite (write_bytes_spec bs buf 0) by lia.
  rewrite take_0, Nat.sub_0_r, drop_ge by lia. cbn [app Nat.add]. now rewrite app_nil_r.
Qed.

Section TreeEntryPoints.
Variables (d : Document) (options : SerializationOptions.t) (st : State).

Let ck := default false (SerializationOptions.checkKeys options).
Let sf := default false (SerializationOptions.serializeFunctions options).
Let iu := default true (SerializationOptions.ignoreUndefined options).
Let enc := encodeDocument sf iu d.

Lemma serialize_accepts :
  ck && negb (document_keys_ok d) = false ->
  serialize serializeInto d options st
  = (Ok (take (length enc) (write_bytes (working_buffer options st) 0 enc)
         ++ replicate (length enc - length (working_buffer options st)) 0),
     mkState (write_bytes (working_buffer options st) 0 enc)).
Proof.
  intros Hkeys.
  rewrite (serialize_result serializeInto d options st
             (write_bytes (working_buffer options st) 0 enc) (length enc)).
  - now rewrite length_write_bytes.
  - unfold serializeInto. fold ck sf iu. rewrite Hkeys. fold enc.
    now rewrite Z.add_0_l.
Qed.

Lemma serialize_rejects :
  ck && negb (document_keys_ok d) = true ->
  serialize serializeInto d options st
  = (Err InvalidKey, mkState (working_buffer options st)).
Proof.
  intros Hkeys. apply serialize_error. unfold serializeInto. fold ck sf iu.
  now rewrite Hkeys.
Qed.

Lemma serialize_fits :
  ck && negb (document_keys_ok d) = false ->
  zlen enc <= zlen (working_buffer options st) ->
  fst (serialize serializeInto d options st) = Ok enc.
Proof.
  intros Hkeys Hfit. rewrite serialize_accepts by exact Hkeys. cbn [fst].
  unfold zlen in Hfit.
  rewrite write_bytes_at_start by lia.
  rewrite take_app_length.
  replace (length enc - length (working_buffer options st))%nat with 0%nat by lia.
  cbn [replicate]. now rewrite app_nil_r.
Qed.

Lemma serialize_overflows :
  ck && negb (document_keys_ok d) = false ->
  zlen (working_buffer options st) <= zlen enc ->
  fst (serialize serializeInto d options st)
  = Ok (take (length (working_buffer options st)) enc
        ++ replicate (length enc - length (working_buffer options st)) 0).
Proof.
  intros Hkeys Hfit. rewrite serialize_accepts by exact Hkeys. cbn [fst].
  unfold zlen in Hfit.
  rewrite write_bytes_overflow by lia.
  rewrite take_take, Nat.min_r by lia. reflexivity.
Qed.

End TreeEntryPoints.

(** C2: [serialize] returns a buffer exactly when [checkKeys] is off or the
    document has no forbidden key, and the buffer it returns is as long as
    [calculateObjectSize] says, under the same [serializeFunctions] and
    [ignoreUndefined]; the only failure is [InvalidKey]. *)
Theorem serialize_length_is_calculateObjectSize
    (d : Document) (options : SerializationOptions.t) (st : State) :
  match fst (serialize serializeInto d options st) with
  | Ok bytes =>
      zlen bytes = calculateObjectSize internalCalculateObjectSize d
                     (CalculateObjectSizeOptions.pick options)
  | Err e =>
      e = InvalidKey
      /\ SerializationOptions.checkKeys options = Some true
      /\ document_keys_ok d = false
  end.
Proof.
  destruct (default false (SerializationOptions.checkKeys options)
            && negb (document_keys_ok d)) eqn:Hkeys.
  - rewrite serialize_rejects by exact Hkeys. cbn [fst].
    apply andb_prop in Hkeys as [Hck Hbad]. apply negb_true_iff in Hbad.
    destruct (SerializationOptions.checkKeys options) as [[|]|]; try discriminate Hck. auto.
  - rewrite serialize_accepts by exact Hkeys. cbn [fst].
    unfold calculateObjectSize, CalculateObjectSizeOptions.pick.
    cbn [CalculateObjectSizeOptions.serializeFunctions CalculateObjectSizeOptions.ignoreUndefined].
    rewrite <- encodeDocument_size.
    set (enc := encodeDocument _ _ d). set (wb := working_buffer options st).
    unfold zlen. rewrite length_app, length_take, length_replicate, length_write_bytes. lia.
Qed.

Lemma deserialize_encoding sf iu d options :
  supported_document (promotes options) d = true ->
  zlen (encodeDocument sf iu d) < 2 ^ 31 ->
  default 0 (DeserializationOptions.index options) = 0 ->
  deserialize internalDeserialize (encodeDocument sf iu d) options = Ok d.
Proof.
  intros Hsup Hsize Hindex. unfold deserialize, ensureBuffer, internalDeserialize.
  rewrite Hindex. pose proof (zlen_nonneg (encodeDocument sf iu d)).
  destruct (Z.ltb_spec (zlen (encodeDocument sf iu d)) 0); [lia|].
  cbn [Z.ltb Z.compare orb Z.to_nat]. rewrite drop_0.
  pose proof (document_reads_back sf iu (promotes options) d [] Hsup Hsize) as Hread.
  rewrite app_nil_r in Hread. rewrite Hread. reflexivity.
Qed.


(** ** A document that outgrows the internal buffer *)

Lemma bytes_of_string_of_bytes l :
  Forall is_byte l -> bytes_of_string (string_of_bytes l) = l.
Proof.
  induction 1 as [|b r Hb _ IH]; cbn [string_of_bytes bytes_of_string]; [reflexivity|].
  rewrite IH. f_equal. unfold byte_of_ascii, ascii_of_byte, is_byte in *.
  rewrite N_ascii_embedding by lia. lia.
Qed.

Lemma replicate_bytes n b : is_byte b -> Forall is_byte (replicate n b).
Proof. intros Hb. induction n; cbn [replicate]; constructor; assumption. Qed.

(** What [serialize] and then [deserialize] make of a document that holds a
    string as long as the working buffer: the bytes beyond the buffer are
    lost, and the bytes returned are refused. *)
Lemma long_string_is_not_read_back (L : nat) options st :
  length (working_buffer options st) = L ->
  (11 <= L)%nat -> Z.of_nat L + 16 < 2 ^ 31 ->
  SerializationOptions.checkKeys options = None ->
  let d := [("a"%string, VString (string_of_bytes (replicate L 120))); ("b"%string, VNull)] in
  exists bytes,
    fst (serialize serializeInto d options st) = Ok bytes
    /\ deserialize internalDeserialize bytes DeserializationOptions.empty
       = Err BadLengthPrefix.
Proof.
  intros HL H11 Hsmall Hck d.
  set (sf := default false (SerializationOptions.serializeFunctions options)).
  set (iu := default true (SerializationOptions.ignoreUndefined options)).
  set (hdr := int_le 4 (Z.of_nat L + 16) ++ [2; 97; 0] ++ int_le 4 (Z.of_nat L + 1)).
  assert (Hhdr : length hdr = 11%nat)
    by (unfold hdr; rewrite !length_app, !length_int_le; reflexivity).
  assert (Hb : is_byte 120) by (unfold is_byte; lia).
  (* the encoding the serializer aims at *)
  assert (Eenc : encodeDocument sf iu d = hdr ++ replicate L 120 ++ [0; 10; 98; 0; 0]).
  { unfold encodeDocument, d, frame. cbn [serializeEntries serializeEntry].
    unfold element, lstring, cstring.
    rewrite bytes_of_string_of_bytes by now apply replicate_bytes.
    cbn [bytes_of_string byte_of_ascii N_of_ascii app].
    repeat rewrite ?zlen_app, ?zlen_cons, ?zlen_nil, ?zlen_int_le.
    replace (zlen (replicate L 120)) with (Z.of_nat L)
      by (unfold zlen; now rewrite length_replicate).
    unfold hdr. rewrite <- !app_assoc. cbn [app].
    do 2 f_equal. lia. }
  assert (Hlen : length (encodeDocument sf iu d) = (L + 16)%nat).
  { rewrite Eenc, !length_app, Hhdr, length_replicate. cbn [length]. lia. }
  (* the string the returned bytes hold instead *)
  set (s' := string_of_bytes (replicate (L - 11) 120 ++ replicate 11 0)).
  set (d' := [("a"%string, VString s')]).
  assert (Hs' : bytes_of_string s' = replicate (L - 11) 120 ++ replicate 11 0).
  { apply bytes_of_string_of_bytes. apply Forall_app. split; apply replicate_bytes.
    - exact Hb.
    - unfold is_byte; lia. }
  assert (Hbody : zlen (serializeEntries sf iu d' ++ [0; 0; 0]) = Z.of_nat L + 11).
  { rewrite zlen_app, serializeEntries_size. unfold d'.
    cbn [calculateEntries calculateElement].
    rewrite Hs'. rewrite !zlen_app.
    unfold zlen. rewrite !length_replicate. cbn. lia. }
  exists (frame (serializeEntries sf iu d' ++ [0; 0; 0])). split.
  - rewrite serialize_overflows.
    + fold sf iu. rewrite HL, Hlen, Eenc.
      rewrite take_app_ge by lia. rewrite Hhdr.
      rewrite take_app_le by (rewrite length_replicate; lia).
      rewrite take_replicate, Nat.min_l by lia.
      replace (L + 16 - L)%nat with 16%nat by lia.
      f_equal. unfold frame. rewrite Hbody.
      unfold d'. cbn [serializeEntries serializeEntry]. unfold element, lstring, cstring.
      rewrite Hs'. repeat rewrite ?zlen_app.
      replace (zlen (replicate (L - 11) 120) + zlen (replicate 11 0)) with (Z.of_nat L)
        by (unfold zlen; rewrite !length_replicate; lia).
      unfold hdr. cbn [bytes_of_string byte_of_ascii N_of_ascii app replicate].
      rewrite <- !app_assoc. cbn [app].
      replace (4 + (Z.of_nat L + 11) + 1) with (Z.of_nat L + 16) by lia.
      reflexivity.
    + rewrite Hck. reflexivity.
    + unfold zlen. fold sf iu. rewrite HL, Hlen. lia.
  - unfold deserialize, ensureBuffer, internalDeserialize.
    cbn [DeserializationOptions.index DeserializationOptions.empty default
         DeserializationOptions.allowObjectSmallerThanBufferSize].
    set (bytes := frame _). pose proof (zlen_nonneg bytes).
    destruct (Z.ltb_spec (zlen bytes) 0); [lia|].
    cbn [Z.ltb Z.compare orb Z.to_nat]. rewrite drop_0.
    rewrite <- (app_nil_r bytes) at 2. subst bytes.
    rewrite (parse_document_frame_over _ _ d' [0; 0; 0]).
    + reflexivity.
    + rewrite zlen_frame, Hbody. lia.
    + rewrite <- app_assoc. cbn [app].
      apply entries_read_back.
      * repeat constructor. apply every_value_reads_back.
      * reflexivity.
      * rewrite zlen_app in Hbody. zlen_facts. lia.
      * unfold frame. rewrite !length_app, length_int_le. cbn [length]. lia.
Qed.

Lemma initial_working_buffer :
  length (working_buffer SerializationOptions.empty initial_state) = Z.to_nat MAXSIZE.
Proof.
  unfold working_buffer, initial_state.
  cbn [buffer SerializationOptions.minInternalBufferSize SerializationOptions.empty default].
  unfold zlen. rewrite length_replicate, Z2Nat.id by (unfold MAXSIZE; lia).
  rewrite Z.ltb_irrefl. apply length_replicate.
Qed.


(** ** Keys *)

Lemma has_dot_app a b : has_dot (a ++ String "." b) = true.
Proof.
  induction a as [|c a IH]; simpl; [reflexivity|].
  rewrite IH. apply orb_true_r.
Qed.

Lemma forbidden_key_rejected k : forbidden_key k -> key_ok k = false.
Proof.
  intros [[r ->]|(a & b & ->)]; [reflexivity|].
  pose proof (has_dot_app a b) as Hdot.
  destruct (a +:+ String "." b) as [|c s]; [discriminate Hdot|].
  unfold key_ok. rewrite Hdot. apply andb_false_r.
Qed.

Lemma keys_ok_document d :
  keys_ok (VDocument d) = forallb (fun kv => key_ok (fst kv) && keys_ok (snd kv)) d.
Proof.
  cbn [keys_ok]. induction d as [|[k x] r IH]; cbn [forallb fst snd]; [reflexivity|].
  now rewrite IH.
Qed.

Lemma keys_ok_array a : keys_ok (VArray a) = forallb keys_ok a.
Proof.
  cbn [keys_ok]. induction a as [|x r IH]; cbn [forallb]; [reflexivity|]. now rewrite IH.
Qed.

Lemma forallb_false_In {A} (f : A -> bool) l x : In x l -> f x = false -> forallb f l = false.
Proof.
  intros Hin Hx. destruct (forallb f l) eqn:E; [|reflexivity].
  rewrite forallb_forall in E. rewrite (E x Hin) in Hx. discriminate.
Qed.

Lemma has_key_rejected w k v : has_key w k v -> forbidden_key k -> keys_ok v = false.
Proof.
  intros H Hk. induction H as [d x Hin _|d k' x Hin _ IH|a x Hin _ IH|c d _ IH].
  - rewrite keys_ok_document. apply (forallb_false_In _ _ (k, x) Hin).
    cbn [fst snd]. now rewrite forbidden_key_rejected.
  - rewrite keys_ok_document. apply (forallb_false_In _ _ (k', x) Hin).
    cbn [fst snd]. rewrite IH. apply andb_false_r.
  - rewrite keys_ok_array. now apply (forallb_false_In _ _ x Hin).
  - exact IH.
Qed.

(** An entry that is not left out is written as tag, key, NUL, payload: the
    key goes out byte for byte. *)
Lemma written_entry sf iu k v :
  omitted sf iu v = false ->
  exists tag payload, serializeEntry sf iu k v = tag :: cstring k ++ payload.
Proof.
  intros Hw. destruct v; cbn [omitted] in Hw;
    rewrite ?serializeEntry_document, ?serializeEntry_array, ?serializeEntry_scope;
    cbn [serializeEntry]; unfold element; try (eexists _, _; reflexivity).
  - rewrite Hw. eexists _, _; reflexivity.
  - apply negb_false_iff in Hw. rewrite Hw. eexists _, _; reflexivity.
Qed.

Lemma occurs_in_app_l s l pre : occurs_in s l -> occurs_in s (pre ++ l).
Proof.
  intros (a & b & ->). exists (pre ++ a), b. now rewrite <- app_assoc.
Qed.

Lemma occurs_in_app_r s l post : occurs_in s l -> occurs_in s (l ++ post).
Proof.
  intros (a & b & ->). exists a, (b ++ post). now rewrite <- !app_assoc.
Qed.

Lemma occurs_in_cons s l x : occurs_in s l -> occurs_in s (x :: l).
Proof. apply (occurs_in_app_l s l [x]). Qed.

Lemma occurs_in_frame s body : occurs_in s body -> occurs_in s (frame body).
Proof. intros H. unfold frame. now apply occurs_in_app_l, occurs_in_app_r. Qed.

Lemma occurs_in_element s tag key payload :
  occurs_in s payload -> occurs_in s (element tag key payload).
Proof. intros H. unfold element. now apply occurs_in_cons, occurs_in_app_l. Qed.

Section WrittenKeys.
Variables (sf iu : bool).

Lemma occurs_in_entries s d k x :
  In (k, x) d -> occurs_in s (serializeEntry sf iu k x) ->
  occurs_in s (serializeEntries sf iu d).
Proof.
  induction d as [|[k' x'] r IH]; intros Hin Hocc; [destruct Hin|].
  cbn [serializeEntries]. destruct Hin as [[= -> ->]|Hin].
  - now apply occurs_in_app_r.
  - now apply occurs_in_app_l, IH.
Qed.

Lemma occurs_in_items s a x :
  In x a -> (forall key, occurs_in s (serializeEntry sf iu key x)) ->
  forall i, occurs_in s (serializeItems sf iu i a).
Proof.
  induction a as [|x' r IH]; intros Hin Hocc i; [destruct Hin|].
  cbn [serializeItems]. destruct Hin as [->|Hin].
  - now apply occurs_in_app_r.
  - now apply occurs_in_app_l, IH.
Qed.

Lemma inside_entry s v :
  occurs_inside sf iu s v -> forall key, occurs_in s (serializeEntry sf iu key v).
Proof.
  intros H key. destruct v; try contradiction H; cbn [occurs_inside] in H.
  - rewrite serializeEntry_document. now apply occurs_in_element, occurs_in_frame.
  - rewrite serializeEntry_array. now apply occurs_in_element, occurs_in_frame.
  - rewrite serializeEntry_scope. apply occurs_in_element.
    now apply occurs_in_app_l, occurs_in_app_l, occurs_in_frame.
Qed.

Lemma written_key_inside k v :
  has_key (fun x => negb (omitted sf iu x)) k v -> occurs_inside sf iu (cstring k) v.
Proof.
  induction 1 as [d x Hin Hw|d k' x Hin _ IH|a x Hin _ IH|c d _ IH]; cbn [occurs_inside].
  - apply (occurs_in_entries _ _ k x Hin).
    apply negb_true_iff in Hw.
    destruct (written_entry sf iu k x Hw) as (tag & payload & ->).
    exists [tag], payload. reflexivity.
  - apply (occurs_in_entries _ _ k' x Hin). now apply inside_entry.
  - intros i. apply (occurs_in_items _ _ x Hin). now apply inside_entry.
  - exact IH.
Qed.

Lemma written_key_in_encoding k d :
  has_key (fun x => negb (omitted sf iu x)) k (VDocument d) ->
  occurs_in (cstring k) (encodeDocument sf iu d).
Proof.
  intros H. apply occurs_in_frame. exact (written_key_inside k (VDocument d) H).
Qed.

End WrittenKeys.


(** ** The shared buffer under serializeWithBufferAndIndex *)

Lemma write_bytes_head buf b bs :
  buf <> [] -> write_bytes buf 0 (b :: bs) !! 0%nat = Some b.
Proof.
  intros Hne. change 0 with (Z.of_nat 0).
  rewrite write_bytes_spec by lia. rewrite take_0, Nat.sub_0_r. cbn [app].
  destruct buf as [|x buf]; [contradiction|]. reflexivity.
Qed.

(** C3, counterexample: from the state the module is loaded in,
    [serializeWithBufferAndIndex] on [sample_document] and a caller's buffer
    of 64 bytes changes the shared internal buffer: its first byte becomes
    the low byte of the document's length. *)
Lemma serializeWithBufferAndIndex_writes_shared_buffer :
  buffer (snd (serializeWithBufferAndIndex serializeInto sample_document
                 (replicate 64 0) SerializationOptions.empty initial_state))
  <> buffer initial_state.
Proof.
  rewrite serializeWithBufferAndIndex_state.
  cbn [SerializationOptions.checkKeys SerializationOptions.serializeFunctions
       SerializationOptions.ignoreUndefined SerializationOptions.empty default].
  unfold serializeInto. cbn [andb fst].
  assert (E : encodeDocument false true sample_document
              = 41 :: tl (encodeDocument false true sample_document))
    by (vm_compute; reflexivity).
  rewrite E. intros Heq.
  assert (H0 : buffer initial_state !! 0%nat = Some 0).
  { unfold initial_state. cbn [buffer]. apply lookup_replicate_2. unfold MAXSIZE. lia. }
  rewrite <- Heq, write_bytes_head in H0; [discriminate H0|].
  intros Hnil. rewrite Hnil in H0. discriminate H0.
Qed.

(** ** Cycles in object graphs *)

Module GraphFacts.
Import Graph.

Section Descent.
Variables (checkKeys sf iu : bool).
Variable h : gmap nat object.

Abbreviation descend := (serialize_object checkKeys sf iu h).
Abbreviation entries := (serialize_entries checkKeys sf iu h).

(** *** The descent comes to an end *)

Lemma entries_end rec path keyed es :
  (forall k r', (k, Ref r') ∈ es -> r' ∉ path -> is_Some (h !! r') /\ rec r' <> None) ->
  entries rec path keyed es <> None.
Proof.
  induction es as [|[k e] rest IH]; intros Hrec; cbn [serialize_entries]; [discriminate|].
  destruct (checkKeys && keyed && negb (key_ok k)); [discriminate|].
  assert (Hone : serialize_one checkKeys sf iu h rec path k e <> None).
  { destruct e as [v|r']; cbn [serialize_one].
    - destruct (checkKeys && negb (keys_ok v)); discriminate.
    - destruct (decide (r' ∈ path)) as [|Hnot]; [discriminate|].
      destruct (Hrec k r' ltac:(left) Hnot) as [[o ->] Hr].
      destruct (rec r') as [[bytes|err]|]; [discriminate | discriminate | contradiction]. }
  destruct (serialize_one _ _ _ _ _ _ _ _) as [[bytes|err]|]; [|discriminate|contradiction].
  assert (Hrest : entries rec path keyed rest <> None)
    by (apply IH; intros k' r' Hin; apply (Hrec k' r'); now right).
  destruct (entries rec path keyed rest) as [[bytes'|err]|];
    [discriminate | discriminate | contradiction].
Qed.

Lemma descend_ends : closed h -> forall fuel path r,
  path ⊆ dom h -> is_Some (h !! r) -> r ∉ path ->
  (size (dom h) <= fuel + size path)%nat ->
  descend fuel path r <> None.
Proof.
  intros Hclosed fuel. induction fuel as [|f IH]; intros path r Hsub Hr Hnot Hsize.
  - exfalso. assert (Hlt : (size ({[r]} ∪ path) <= size (dom h))%nat).
    { apply subseteq_size. apply union_subseteq. split; [|exact Hsub].
      apply singleton_subseteq_l. now apply elem_of_dom. }
    rewrite size_union, size_singleton in Hlt by set_solver. lia.
  - cbn [serialize_object]. destruct Hr as [o Ho]. rewrite Ho.
    assert (Hentries : entries (descend f ({[r]} ∪ path)) ({[r]} ∪ path)
                         (is_document o) (entries_of o) <> None).
    { apply entries_end. intros k r' Hin Hnot'.
      assert (Hr' : is_Some (h !! r')) by (apply (Hclosed r r'); now exists o, k).
      split; [exact Hr'|]. apply IH; [| exact Hr' | exact Hnot' |].
      - apply union_subseteq. split; [|exact Hsub].
        apply singleton_subseteq_l, elem_of_dom. now exists o.
      - rewrite size_union, size_singleton by set_solver. lia. }
    destruct (entries _ _ _ _) as [[body|err]|]; [discriminate | discriminate | contradiction].
Qed.

(** *** A descent that succeeds met no reference to an ancestor *)

Lemma entries_ok rec path keyed es body k r' :
  entries rec path keyed es = Some (Ok body) -> (k, Ref r') ∈ es ->
  (r' ∉ path) /\ exists bytes, rec r' = Some (Ok bytes).
Proof.
  revert body. induction es as [|[k0 e] rest IH]; intros body Hok Hin;
    [now apply elem_of_nil in Hin|].
  cbn [serialize_entries] in Hok.
  destruct (checkKeys && keyed && negb (key_ok k0)); [discriminate|].
  destruct (serialize_one _ _ _ _ _ _ _ _) as [[bytes|err]|] eqn:Hone; try discriminate.
  destruct (entries rec path keyed rest) as [[bytes'|err]|] eqn:Hrest; try discriminate.
  apply elem_of_cons in Hin as [[= <- <-]|Hin]; [|now apply (IH bytes')].
  cbn [serialize_one] in Hone.
  destruct (decide (r' ∈ path)); [discriminate|].
  split; [assumption|].
  destruct (h !! r'); [|discriminate].
  destruct (rec r') as [[b|err]|]; try discriminate. now exists b.
Qed.

Lemma descend_ok_step fuel path r body r' :
  descend fuel path r = Some (Ok body) -> edge h r r' ->
  (r' ∉ ({[r]} ∪ path : gset nat))
  /\ exists f bytes, fuel = S f /\ descend f ({[r]} ∪ path) r' = Some (Ok bytes).
Proof.
  intros Hok (o & k & Ho & Hin). destruct fuel as [|f]; [discriminate|].
  cbn [serialize_object] in Hok. rewrite Ho in Hok.
  destruct (entries _ _ _ _) as [[b|err]|] eqn:Hentries; try discriminate.
  destruct (entries_ok _ _ _ _ _ k r' Hentries Hin) as [Hnot [bytes Hb]].
  split; [exact Hnot|]. now exists f, bytes.
Qed.

Lemma descend_ok_no_ancestor fuel : forall path r body x,
  descend fuel path r = Some (Ok body) -> tc (edge h) r x -> x ∉ ({[r]} ∪ path : gset nat).
Proof.
  induction fuel as [|f IH]; intros path r body x Hok Hreach; [discriminate|].
  assert (Hstep : exists y, edge h r y /\ (y = x \/ tc (edge h) y x)).
  { inversion Hreach as [? ? Hedge|? y ? Hedge Hrest]; subst; [exists x | exists y]; auto. }
  destruct Hstep as (y & Hedge & Hy).
  destruct (descend_ok_step _ _ _ _ _ Hok Hedge) as [Hnot (f' & bytes & [= <-] & Hok')].
  destruct Hy as [<-|Hrest]; [exact Hnot|].
  specialize (IH _ _ _ _ Hok' Hrest). intros Hx. apply IH.
  apply elem_of_union_r. exact Hx.
Qed.

Lemma descend_ok_reachable r x :
  rtc (edge h) r x -> forall fuel path body,
  descend fuel path r = Some (Ok body) ->
  exists fuel' path' body', descend fuel' path' x = Some (Ok body').
Proof.
  induction 1 as [r|r y x Hedge _ IH]; intros fuel path body Hok; [eauto|].
  destruct (descend_ok_step _ _ _ _ _ Hok Hedge) as [_ (f & bytes & _ & Hok')].
  eapply IH, Hok'.
Qed.

Lemma descend_on_cycle fuel path r body x :
  rtc (edge h) r x -> tc (edge h) x x -> descend fuel path r <> Some (Ok body).
Proof.
  intros Hreach Hcycle Hok.
  destruct (descend_ok_reachable _ _ Hreach _ _ _ Hok) as (f' & p' & b' & Hok').
  apply (descend_ok_no_ancestor _ _ _ _ _ Hok' Hcycle). set_solver.
Qed.

(** *** The errors of a descent *)

Local Abbreviation expected := (Graph.expected checkKeys).

Lemma entries_errors rec path keyed es e :
  (forall r' e', rec r' = Some (Err e') -> expected e') ->
  entries rec path keyed es = Some (Err e) -> expected e.
Proof.
  intros Hrec. induction es as [|[k x] rest IH]; cbn [serialize_entries]; [discriminate|].
  destruct (checkKeys && keyed && negb (key_ok k)) eqn:Hkey.
  { intros [= <-]. right. apply andb_prop in Hkey as [Hkey _].
    apply andb_prop in Hkey as [Hkey _]. auto. }
  destruct x as [v|r']; cbn [serialize_one].
  - destruct (checkKeys && negb (keys_ok v)) eqn:Hv.
    { intros [= <-]. right. apply andb_prop in Hv as [Hv _]. auto. }
    destruct (entries rec path keyed rest) as [[b|err]|]; try discriminate.
    intros [= <-]. now apply IH.
  - destruct (decide (r' ∈ path)); [intros [= <-]; now left|].
    destruct (h !! r'); [|discriminate].
    destruct (rec r') as [[b|err]|] eqn:Hr; try discriminate.
    + destruct (entries rec path keyed rest) as [[b'|err]|]; try discriminate.
      intros [= <-]. now apply IH.
    + intros [= <-]. now apply (Hrec r').
Qed.

Lemma descend_errors fuel : forall path r e,
  descend fuel path r = Some (Err e) -> expected e.
Proof.
  induction fuel as [|f IH]; intros path r e; cbn [serialize_object]; [discriminate|].
  destruct (h !! r) as [o|]; [|discriminate].
  destruct (entries _ _ _ _) as [[b|err]|] eqn:Hentries; try discriminate.
  intros [= <-]. eapply entries_errors; [|exact Hentries]. intros r' e'. apply IH.
Qed.

End Descent.

(** The internal pass on a closed graph with a cycle: it ends, and ends in
    an error, which is [CyclicStructure] unless a forbidden key was met
    first under [checkKeys]. *)
Lemma cyclic_pass (g : Doc) buffer ck sf iu path :
  closed (heap g) -> is_Some (heap g !! root g) -> cyclic g ->
  path = None \/ path = Some [] ->
  exists e,
    Graph.serializeInto buffer g ck 0 0 sf iu path = (buffer, Err e)
    /\ (e = CyclicStructure \/ (ck = true /\ e = InvalidKey)).
Proof.
  intros Hclosed Hroot (x & Hreach & Hcycle) Hpath. unfold Graph.serializeInto.
  assert (Hanc : (list_to_set (root <$> default [] path) : gset nat) = ∅)
    by (destruct Hpath as [-> | ->]; reflexivity).
  rewrite Hanc.
  pose proof (descend_ends ck sf iu (heap g) Hclosed (S (size (heap g))) ∅ (root g)
                ltac:(set_solver) Hroot ltac:(set_solver)) as Hend.
  rewrite size_dom, size_empty in Hend. specialize (Hend ltac:(lia)).
  destruct (serialize_object _ _ _ _ _ _ _) as [[bytes|e]|] eqn:Hpass; [| |contradiction].
  - exfalso. exact (descend_on_cycle ck sf iu (heap g) _ _ _ bytes x Hreach Hcycle Hpass).
  - exists e. split; [reflexivity|]. exact (descend_errors ck sf iu (heap g) _ _ _ _ Hpass).
Qed.

End GraphFacts.

(** On a document of the value model, taken as a one-object graph, the
    serializer of object graphs is the serializer of documents. *)
Lemma leaf_entries_serialize ck sf iu h rec path d :
  Graph.serialize_entries ck sf iu h rec path true
    (map (fun kv => (fst kv, Graph.Leaf (snd kv))) d)
  = Some (if ck && negb (document_keys_ok d) then Err InvalidKey
          else Ok (serializeEntries sf iu d)).
Proof.
  unfold document_keys_ok. rewrite keys_ok_document.
  induction d as [|[k x] r IH]; cbn [map Graph.serialize_entries forallb fst snd].
  - now rewrite andb_false_r.
  - cbn [Graph.serialize_one]. rewrite IH. rewrite andb_true_r.
    destruct ck; cbn [andb]; [|reflexivity].
    destruct (key_ok k); cbn [andb negb]; [|reflexivity].
    destruct (keys_ok x); cbn [andb negb]; [|reflexivity].
    destruct (forallb _ r); reflexivity.
Qed.

Lemma graph_of_document_serializes_alike buffer d ck start depth sf iu path path' :
  Graph.serializeInto buffer (Graph.of_document d) ck start depth sf iu path
  = serializeInto buffer d ck start depth sf iu path'.
Proof.
  unfold Graph.serializeInto, serializeInto, Graph.of_document.
  cbn [Graph.heap Graph.root]. rewrite map_size_singleton.
  cbn [Graph.serialize_object]. rewrite lookup_singleton_eq.
  cbn [Graph.entries_of Graph.is_document]. rewrite leaf_entries_serialize.
  destruct (ck && negb (document_keys_ok d)); reflexivity.
Qed.


(** ** Timestamp *)

Lemma toInt32_range z : - 2 ^ 31 <= toInt32 z < 2 ^ 31.
Proof. unfold toInt32. pose proof (Z.mod_pos_bound (z + 2 ^ 31) (2 ^ 32)). lia. Qed.

Lemma Long_bits_range l : 0 <= Long.bits l < 2 ^ 64.
Proof.
  unfold Long.bits.
  pose proof (Z.mod_pos_bound (Long.high l) (2 ^ 32)).
  pose proof (Z.mod_pos_bound (Long.low l) (2 ^ 32)). lia.
Qed.

(** C7: a Timestamp is flagged unsigned however it is constructed, and so
    denotes an integer of the unsigned 64-bit range; the constructions of the
    test suite are instances.  From [{t: 0xffffffff, i: 0xffffffff}], and as
    well from [{t: -1, i: -1}], it is [MAX_VALUE], the value with all 64
    bits set, 2^64 - 1, which [toString] prints as [18446744073709551615]
    and [toJSON] wraps under [$timestamp]. *)
Theorem timestamp_is_always_unsigned :
  (forall a, Long.unsigned (Timestamp.make a) = true)
  /\ (forall a, 0 <= Long.toZ (Timestamp.make a) < 2 ^ 64)
  /\ Forall (fun a => Long.unsigned (Timestamp.make a) = true) Timestamp.test_cases
  /\ Timestamp.toString (Timestamp.make (Timestamp.Pair 4294967295 4294967295))
     = "18446744073709551615"%string
  /\ Timestamp.toJSON (Timestamp.make (Timestamp.Pair 4294967295 4294967295))
     = [("$timestamp"%string, "18446744073709551615"%string)]
  /\ Timestamp.make (Timestamp.Pair (-1) (-1))
     = Timestamp.make (Timestamp.Pair 4294967295 4294967295)
  /\ Timestamp.MAX_VALUE = Long.MAX_UNSIGNED_VALUE
  /\ Timestamp.MAX_VALUE = Timestamp.make (Timestamp.Pair 4294967295 4294967295)
  /\ Long.bits Timestamp.MAX_VALUE = 2 ^ 64 - 1
  /\ Long.toZ Timestamp.MAX_VALUE = 2 ^ 64 - 1.
Proof.
  assert (Hflag : forall a, Long.unsigned (Timestamp.make a) = true)
    by (intros a; destruct a; reflexivity).
  split; [exact Hflag|]. split.
  { intros a. unfold Long.toZ. rewrite Hflag. apply Long_bits_range. }
  split; [apply Forall_forall; intros a _; apply Hflag|].
  repeat split; vm_compute; reflexivity.
Qed.

(** ** Extended JSON *)

Lemma parse_decimal_decimal z : parse_decimal (decimal z) = Some z.
Proof.
  unfold parse_decimal, decimal. rewrite NilZero.isi.
  - cbn. now rewrite DecimalZ.of_to.
  - destruct z; cbn; try discriminate. intros [= E]. now apply Unsigned.to_uint_nonnil in E.
  - destruct z; cbn; try discriminate. intros [= E]. now apply Unsigned.to_uint_nonnil in E.
Qed.

(** C9: [MinKey] and [MaxKey] convert to the single-entry objects
    [{$minKey: 1}] and [{$maxKey: 1}]; an [Int32] converts, when no options
    are given or [relaxed] is absent or false, to the single-entry object
    [{$numberInt: s}] where [s] is the decimal string of its value (reading
    [s] back as a decimal gives the value), and to the plain number when
    [relaxed] is true. *)
Theorem extended_json_of_MinKey_MaxKey_Int32 :
  (forall m, MinKey.toExtendedJSON m = JObject [("$minKey"%string, JNumber 1)])
  /\ (forall m, MaxKey.toExtendedJSON m = JObject [("$maxKey"%string, JNumber 1)])
  /\ (forall (i : Int32.t) (o : option EJSONOptions.t),
        o = None \/ o = Some (EJSONOptions.mk None) \/ o = Some (EJSONOptions.mk (Some false)) ->
        exists s,
          Int32.toExtendedJSON i o = JObject [("$numberInt"%string, JString s)]
          /\ s = Int32.toString i
          /\ parse_decimal s = Some (Int32.value i))
  /\ (forall (i : Int32.t),
        Int32.toExtendedJSON i (Some (EJSONOptions.mk (Some true))) = JNumber (Int32.value i))
  /\ Int32.toExtendedJSON (Int32.make (-5)) None
     = JObject [("$numberInt"%string, JString "-5")]
  /\ (forall v, - 2 ^ 31 <= Int32.value (Int32.make v) < 2 ^ 31).
Proof.
  split; [reflexivity|]. split; [reflexivity|]. split.
  { intros i o Ho. exists (decimal (Int32.value i)).
    split; [destruct Ho as [->|[->| ->]]; reflexivity|].
    split; [reflexivity | apply parse_decimal_decimal]. }
  split; [reflexivity|]. split; [reflexivity|].
  intros v. apply toInt32_range.
Qed.

(** ** Instances of the theorems on concrete inputs *)


Lemma serializeWithBufferAndIndex_shared_buffer_witness :
  buffer (snd (serializeWithBufferAndIndex serializeInto sample_document (replicate 64 0)
                 SerializationOptions.empty initial_state))
  = fst (serializeInto (buffer initial_state) sample_document false 0 0 false true None)
  /\ length (buffer (snd (serializeWithBufferAndIndex serializeInto sample_document
                            (replicate 64 0) SerializationOptions.empty initial_state)))
     = length (buffer initial_state).
Proof.
  pose proof (serializeWithBufferAndIndex_shared_buffer serializeInto serializeInto_length
                sample_document (replicate 64 0) SerializationOptions.empty initial_state)
    as H.
  cbv zeta in H.
  destruct (serializeWithBufferAndIndex serializeInto sample_document (replicate 64 0)
              SerializationOptions.empty initial_state) as [[r fb] st'].
  destruct H as (H1 & H2 & _). split; [exact H1 | exact H2].
Defined.

Lemma deserializeStream_stores_and_advances_witness :
  let out := deserializeStream internalDeserialize stream_data 2 2 ∅ 3
               DeserializationOptions.empty in
  fst out = Ok 86
  /\ snd out !! 3 = Some sample_document
  /\ snd out !! 4 = Some (nested 1).
Proof.
  pose proof (deserializeStream_stores_and_advances internalDeserialize
                [255; 255] stream_frames [7] [sample_document; nested 1] ∅ 3
                DeserializationOptions.empty) as H.
  cbv zeta in H.
  assert (Hframes : Forall framed stream_frames).
  { repeat constructor; try (vm_compute; lia); vm_compute;
      repeat constructor; try discriminate. }
  assert (Hdocs : Forall2 (fun off doc =>
             internalDeserialize ([255; 255] ++ concat stream_frames ++ [7])
               (DeserializationOptions.set_index
                  (DeserializationOptions.assign
                     (DeserializationOptions.mk None None (Some true) (Some 0))
                     DeserializationOptions.empty) off) = Ok doc)
            (offsets (zlen [255; 255]) stream_frames) [sample_document; nested 1]).
  { repeat constructor; vm_compute; reflexivity. }
  destruct (H Hframes Hdocs) as (Hret & _ & Hstored & _).
  change (zlen [255; 255]) with 2 in Hret, Hstored.
  change (zlen stream_frames) with 2 in Hret, Hstored.
  split; [|split].
  - unfold stream_data. rewrite Hret. vm_compute. reflexivity.
  - exact (Hstored 0%nat sample_document eq_refl).
  - exact (Hstored 1%nat (nested 1) eq_refl).
Defined.

Lemma serializeWithBufferAndIndex_returns_last_index_witness :
  fst (fst (serializeWithBufferAndIndex serializeInto sample_document (replicate 64 0)
              (SerializationOptions.mk None None None None (Some 3))
              (mkState (replicate 64 0))))
  = Ok 43.
Proof.
  destruct (serializeWithBufferAndIndex_returns_last_index serializeInto
              sample_document (replicate 64 0)
              (SerializationOptions.mk None None None None (Some 3))
              (mkState (replicate 64 0))
              (fst (serializeInto (replicate 64 0) sample_document false 0 0 false true None))
              41)
    as (fb & E & _).
  - vm_compute; reflexivity.
  - vm_compute; discriminate.
  - lia.
  - rewrite E. reflexivity.
Defined.


Lemma self_loop_closed : Graph.closed (Graph.heap Graph.self_loop).
Proof.
  intros r r' (o & k & Ho & Hin). cbn [Graph.heap Graph.self_loop] in *.
  apply lookup_singleton_Some in Ho as [<- <-]. cbn [Graph.entries_of] in Hin.
  apply elem_of_cons in Hin as [[=]|Hin].
  apply elem_of_cons in Hin as [[= _ ->]|Hin]; [|now apply elem_of_nil in Hin].
  rewrite lookup_singleton_eq. eauto.
Qed.

Lemma self_loop_cyclic : Graph.cyclic Graph.self_loop.
Proof.
  exists 0%nat. split; [apply rtc_refl|]. apply tc_once.
  eexists _, "self"%string. split; [apply lookup_singleton_eq|].
  cbn [Graph.entries_of]. right. left.
Qed.


Lemma internal_buffer_never_shrinks_witness :
  (length (buffer initial_state)
   <= length (buffer (run_all serializeInto sample_operations initial_state)))%nat.
Proof.
  exact (proj1 (internal_buffer_never_shrinks serializeInto serializeInto_length)
           sample_operations initial_state).
Defined.

(** ** A stream of encoded documents *)

Lemma framed_encoding sf iu d :
  zlen (encodeDocument sf iu d) < 2 ^ 31 -> framed (encodeDocument sf iu d).
Proof.
  intros Hsize. unfold framed, prefix_of. pose proof Hsize as Hsize'.
  unfold encodeDocument in *. rewrite zlen_frame in Hsize'.
  pose proof (zlen_nonneg (serializeEntries sf iu d)).
  assert (E : take 4 (frame (serializeEntries sf iu d))
              = int_le 4 (4 + zlen (serializeEntries sf iu d) + 1)).
  { unfold frame.
    rewrite <- (length_int_le 4 (4 + zlen (serializeEntries sf iu d) + 1)) at 1.
    apply take_app_length. }
  rewrite E. split; [|split; [|split]].
  - unfold frame. rewrite !length_app, length_int_le. lia.
  - apply int_le_bytes.
  - rewrite le_uint_int_le, zlen_frame. apply Z.mod_small. cbn. lia.
  - exact Hsize.
Qed.

Lemma internalDeserialize_at sf iu pre d rest options :
  supported_document (promotes options) d = true ->
  zlen (encodeDocument sf iu d) < 2 ^ 31 ->
  DeserializationOptions.index options = Some (zlen pre) ->
  DeserializationOptions.allowObjectSmallerThanBufferSize options = Some true ->
  internalDeserialize (pre ++ encodeDocument sf iu d ++ rest) options = Ok d.
Proof.
  intros Hsup Hsize Hindex Hallow. unfold internalDeserialize.
  rewrite Hindex, Hallow. cbn [default id].
  pose proof (zlen_nonneg pre).
  destruct (Z.ltb_spec (zlen pre) 0); [lia|].
  destruct (Z.ltb_spec (zlen (pre ++ encodeDocument sf iu d ++ rest)) (zlen pre)) as [Hlt|_].
  { rewrite zlen_app in Hlt. pose proof (zlen_nonneg (encodeDocument sf iu d ++ rest)). lia. }
  cbn [orb]. replace (Z.to_nat (zlen pre)) with (length pre) by (unfold zlen; lia).
  rewrite drop_app_length.
  rewrite (document_reads_back sf iu (promotes options) d rest Hsup Hsize).
  cbn [mbind result_bind]. destruct rest; reflexivity.
Qed.

Lemma encodings_parse sf iu ds : forall pre post options,
  Forall (fun d => supported_document (promotes options) d = true
                   /\ zlen (encodeDocument sf iu d) < 2 ^ 31) ds ->
  DeserializationOptions.allowObjectSmallerThanBufferSize options = Some true ->
  Forall2 (fun off doc =>
             internalDeserialize (pre ++ concat (map (encodeDocument sf iu) ds) ++ post)
               (DeserializationOptions.set_index options off) = Ok doc)
          (offsets (zlen pre) (map (encodeDocument sf iu) ds)) ds.
Proof.
  induction ds as [|d r IH]; intros pre post options Hds Hallow; [constructor|].
  inversion Hds as [|? ? [Hsup Hsize] Hrest]; subst.
  cbn [map offsets concat]. constructor.
  - rewrite <- app_assoc. now apply internalDeserialize_at.
  - replace (zlen pre + zlen (encodeDocument sf iu d))
      with (zlen (pre ++ encodeDocument sf iu d)) by apply zlen_app.
    replace (pre ++ (encodeDocument sf iu d ++ concat (map (encodeDocument sf iu) r)) ++ post)
      with ((pre ++ encodeDocument sf iu d) ++ concat (map (encodeDocument sf iu) r) ++ post)
      by now rewrite <- !app_assoc.
    now apply IH.
Qed.

(** On a buffer that holds the encodings of the documents [ds] back to back,
    [deserializeStream] stores [ds] from [docStartIndex] on and returns the
    index after the last encoding, provided the caller's options do not
    switch [allowObjectSmallerThanBufferSize] off. *)
Lemma deserializeStream_of_encodings sf iu ds pre post documents docStartIndex options :
  Forall (fun d => supported_document (promotes options) d = true
                   /\ zlen (encodeDocument sf iu d) < 2 ^ 31) ds ->
  DeserializationOptions.allowObjectSmallerThanBufferSize options <> Some false ->
  let frames := map (encodeDocument sf iu) ds in
  let out := deserializeStream internalDeserialize (pre ++ concat frames ++ post)
               (zlen pre) (zlen ds) documents docStartIndex options in
  fst out = Ok (zlen (pre ++ concat frames))
  /\ forall (i : nat) d, ds !! i = Some d ->
       snd out !! (docStartIndex + Z.of_nat i) = Some d.
Proof.
  intros Hds Hallow frames out. subst out.
  replace (zlen ds) with (zlen frames) by (unfold zlen, frames; now rewrite length_map).
  rewrite (deserializeStream_frames_result internalDeserialize pre frames post ds).
  - cbn [fst snd]. split; [now rewrite zlen_app|].
    intros i d Hi. now apply store_all_lookup.
  - unfold frames. clear -Hds. induction Hds as [|d r [_ Hsize] _ IH]; constructor;
      [now apply framed_encoding | exact IH].
  - apply encodings_parse.
    + eapply Forall_impl; [exact Hds|]. intros d H.
      replace (promotes (DeserializationOptions.assign _ options)) with (promotes options);
        [exact H|].
      unfold promotes. cbn [DeserializationOptions.assign DeserializationOptions.promoteLongs
                            DeserializationOptions.promoteValues].
      destruct (DeserializationOptions.promoteLongs options),
        (DeserializationOptions.promoteValues options); reflexivity.
    + cbn [DeserializationOptions.assign DeserializationOptions.allowObjectSmallerThanBufferSize].
      destruct (DeserializationOptions.allowObjectSmallerThanBufferSize options) as [[|]|];
        [reflexivity | contradiction | reflexivity].
Qed.

(** With [allowObjectSmallerThanBufferSize] switched off by the caller, the
    first of two documents in a stream is refused. *)
Example deserializeStream_without_allowance :
  fst (deserializeStream internalDeserialize stream_data 2 2 ∅ 3
         (DeserializationOptions.mk None None (Some false) None))
  = Err BadLengthPrefix.
Proof. vm_compute. reflexivity. Qed.

(** ** The fuel of the deserializer

    Every parsing function returns a suffix of its input, so the recursion
    of [parse_document] on fuel above the length of the input never reaches
    fuel 0: more fuel changes nothing. *)

Lemma read_bytes_rest n bs a r :
  read_bytes n bs = Ok (a, r) -> (length r <= length bs)%nat.
Proof.
  unfold read_bytes. destruct ((n <? 0) || (zlen bs <? n)); [discriminate|].
  intros [= _ <-]. rewrite length_drop. lia.
Qed.

Lemma read_uint_rest n bs u r :
  read_uint n bs = Ok (u, r) -> (length r <= length bs)%nat.
Proof.
  unfold read_uint. destruct (read_bytes n bs) as [[a r']|] eqn:E; [|discriminate].
  intros [= _ <-]. eapply read_bytes_rest, E.
Qed.

Lemma read_int_rest n bs z r :
  read_int n bs = Ok (z, r) -> (length r <= length bs)%nat.
Proof.
  unfold read_int. destruct (read_uint n bs) as [[u r']|] eqn:E; [|discriminate].
  intros [= _ <-]. eapply read_uint_rest, E.
Qed.

Lemma read_cstring_rest bs : forall s r,
  read_cstring bs = Ok (s, r) -> (length r < length bs)%nat.
Proof.
  induction bs as [|b bs IH]; intros s r; cbn [read_cstring]; [discriminate|].
  destruct (b =? 0); [intros [= _ <-]; cbn; lia|].
  destruct (read_cstring bs) as [[s' r']|] eqn:E; [|discriminate].
  intros [= _ <-]. specialize (IH _ _ eq_refl). cbn [length]. lia.
Qed.

Lemma read_lstring_rest bs s r :
  read_lstring bs = Ok (s, r) -> (length r <= length bs)%nat.
Proof.
  unfold read_lstring. destruct (read_int 4 bs) as [[n r1]|] eqn:E1; [|discriminate].
  cbn [mbind result_bind]. destruct (n <? 1); [discriminate|].
  destruct (read_bytes (n - 1) r1) as [[a r2]|] eqn:E2; [|discriminate].
  cbn [mbind result_bind]. destruct r2 as [|[| |] r3]; try discriminate.
  intros [= _ <-]. apply read_int_rest in E1. apply read_bytes_rest in E2.
  cbn [length] in E2. lia.
Qed.

Ltac read_step :=
  match goal with
  | |- context [read_uint ?n ?bs] =>
      let E := fresh "E" in
      destruct (read_uint n bs) as [[? ?]|] eqn:E; [apply read_uint_rest in E|]
  | |- context [read_int ?n ?bs] =>
      let E := fresh "E" in
      destruct (read_int n bs) as [[? ?]|] eqn:E; [apply read_int_rest in E|]
  | |- context [read_bytes ?n ?bs] =>
      let E := fresh "E" in
      destruct (read_bytes n bs) as [[? ?]|] eqn:E; [apply read_bytes_rest in E|]
  | |- context [read_lstring ?bs] =>
      let E := fresh "E" in
      destruct (read_lstring bs) as [[? ?]|] eqn:E; [apply read_lstring_rest in E|]
  | |- context [read_cstring ?bs] =>
      let E := fresh "E" in
      destruct (read_cstring bs) as [[? ?]|] eqn:E; [apply read_cstring_rest in E|]
  end; cbn [mbind result_bind].

Section Fuel.
Variable promote : bool.

Lemma parse_value_rest pd tag bs v r :
  (forall x d r', pd x = Ok (d, r') -> (length r' <= length x)%nat) ->
  parse_value promote pd tag bs = Ok (v, r) -> (length r <= length bs)%nat.
Proof.
  intros Hpd. unfold parse_value.
  repeat match goal with
  | |- context [if tag =? ?c then _ else _] => destruct (tag =? c)
  end;
  repeat (first [ read_step
                | match goal with
                  | |- context [pd ?x] =>
                      let E := fresh "E" in
                      destruct (pd x) as [[? ?]|] eqn:E; [apply Hpd in E|];
                      cbn [mbind result_bind]
                  | |- context [if ?c then _ else _] => destruct c
                  end ]);
  try discriminate; intros [= _ <-]; lia.
Qed.

Lemma parse_value_ext pd pd' tag bs :
  (forall x, (length x <= length bs)%nat -> pd x = pd' x) ->
  parse_value promote pd tag bs = parse_value promote pd' tag bs.
Proof.
  intros Hpd. unfold parse_value.
  repeat match goal with
  | |- context [if tag =? ?c then _ else _] => destruct (tag =? c)
  end; try reflexivity.
  - now rewrite Hpd.
  - now rewrite Hpd.
  - repeat read_step; try reflexivity. rewrite Hpd by lia. reflexivity.
Qed.

Lemma parse_document_rest fuel bs d r :
  parse_document promote fuel bs = Ok (d, r) -> (length r <= length bs)%nat.
Proof.
  destruct fuel as [|f]; cbn [parse_document]; [discriminate|].
  read_step; [|discriminate].
  destruct (_ <? 5); [discriminate|]. destruct (_ <? _); [discriminate|].
  destruct (last _) as [[| |]|]; try discriminate.
  destruct (parse_elements promote f _) as [[es [|? ?]]|]; try discriminate.
  cbn [mbind result_bind]. intros [= _ <-]. rewrite length_drop. lia.
Qed.

Lemma parse_elements_rest fuel : forall bs es r,
  parse_elements promote fuel bs = Ok (es, r) -> (length r < length bs)%nat.
Proof.
  induction fuel as [|f IH]; intros bs es r; cbn [parse_elements]; [discriminate|].
  destruct bs as [|tag bs]; [discriminate|].
  destruct (tag =? 0); [intros [= _ <-]; cbn; lia|].
  read_step; [|discriminate].
  destruct (parse_value promote (parse_document promote f) tag _) as [[v r2]|] eqn:Ev;
    [|discriminate].
  apply parse_value_rest in Ev; [|intros x d' r'; apply parse_document_rest].
  cbn [mbind result_bind].
  destruct (parse_elements promote f r2) as [[es' r3]|] eqn:Ee; [|discriminate].
  apply IH in Ee. cbn [mbind result_bind]. intros [= _ <-]. cbn [length]. lia.
Qed.

Lemma fuel_is_enough fuel : forall fuel' bs,
  (length bs < fuel)%nat -> (fuel <= fuel')%nat ->
  parse_document promote fuel' bs = parse_document promote fuel bs
  /\ parse_elements promote fuel' bs = parse_elements promote fuel bs.
Proof.
  induction fuel as [|f IH]; intros fuel' bs Hlen Hle; [lia|].
  destruct fuel' as [|f']; [lia|]. split.
  - cbn [parse_document].
    destruct (read_int 4 bs) as [[size r]|] eqn:E; [|reflexivity].
    cbn [mbind result_bind].
    destruct (size <? 5) eqn:H5; [reflexivity|].
    destruct (zlen bs <? size); [reflexivity|].
    destruct (last _) as [[| |]|]; try reflexivity.
    assert (Hr : (length r < length bs)%nat).
    { unfold read_int, read_uint, read_bytes in E. cbn [Z.ltb Z.compare orb] in E.
      destruct (zlen bs <? 4) eqn:H4; [discriminate|].
      cbn [mbind result_bind] in E. injection E as _ <-.
      apply Z.ltb_ge in H4. unfold zlen in H4. rewrite length_drop. lia. }
    rewrite (proj2 (IH f' (take (Z.to_nat (size - 4)) r)
                      ltac:(rewrite length_take; lia) ltac:(lia))).
    reflexivity.
  - cbn [parse_elements]. destruct bs as [|tag bs]; [reflexivity|].
    destruct (tag =? 0); [reflexivity|]. cbn [length] in Hlen.
    destruct (read_cstring bs) as [[key r1]|] eqn:E; [|reflexivity].
    apply read_cstring_rest in E. cbn [mbind result_bind].
    rewrite (parse_value_ext (parse_document promote f') (parse_document promote f))
      by (intros x Hx; apply IH; lia).
    destruct (parse_value promote (parse_document promote f) tag r1) as [[v r2]|] eqn:Ev;
      [|reflexivity].
    apply parse_value_rest in Ev; [|intros x d' r'; apply parse_document_rest].
    cbn [mbind result_bind].
    rewrite (proj2 (IH f' r2 ltac:(lia) ltac:(lia))). reflexivity.
Qed.

End Fuel.

(** * Further properties of the entry points *)

(** ** The internal buffer *)

Lemma zlen_replicate {A} (n : Z) (x : A) : 0 <= n -> zlen (replicate (Z.to_nat n) x) = n.
Proof. intros H. unfold zlen. rewrite length_replicate. lia. Qed.


Section BufferRequests.
Context {Doc : Type}.
Variable internalSerialize :
  Buffer -> Doc -> bool -> Z -> Z -> bool -> bool -> option (list Doc) -> Buffer * result Z.

(** X2: [serialize] resizes the internal buffer exactly as
    [setInternalBufferSize(minInternalBufferSize)] would ([MAXSIZE] when the
    option is absent): running that resize first changes neither what
    [serialize] returns nor the state it leaves. *)
Theorem serialize_resizes_like_setInternalBufferSize object options st :
  serialize internalSerialize object options st
  = serialize internalSerialize object options
      (setInternalBufferSize
         (default MAXSIZE (SerializationOptions.minInternalBufferSize options)) st).
Proof.
  set (m := default MAXSIZE (SerializationOptions.minInternalBufferSize options)).
  pose proof (zlen_nonneg (buffer st)) as Hnn.
  unfold serialize, setInternalBufferSize. fold m.
  destruct (Z.ltb_spec (zlen (buffer st)) m) as [Hlt|Hge].
  - rewrite Buffer_alloc_ok by lia. cbn [buffer]. rewrite zlen_replicate by lia.
    now rewrite Z.ltb_irrefl.
  - destruct (Z.ltb_spec (zlen (buffer st)) m); [lia|reflexivity].
Qed.

Hypothesis internalSerialize_length :
  forall buf object ck start depth sf iu path,
    length (fst (internalSerialize buf object ck start depth sf iu path)) = length buf.

Lemma run_requested op st :
  zlen (buffer (run internalSerialize op st)) = Z.max (zlen (buffer st)) (requested op).
Proof.
  pose proof (zlen_nonneg (buffer st)) as Hnn.
  destruct op as [size|object options|object finalBuffer options| | |];
    cbn [run requested]; try lia.
  - rewrite setInternalBufferSize_spec.
    destruct (Z.ltb_spec (zlen (buffer st)) size); [|lia].
    rewrite zlen_replicate by lia. lia.
  - now apply serialize_state.
  - unfold zlen. rewrite serializeWithBufferAndIndex_state, internalSerialize_length. lia.
Qed.

Lemma run_all_requested ops : forall st,
  zlen (buffer (run_all internalSerialize ops st)) = largest_request ops (zlen (buffer st)).
Proof.
  unfold run_all, largest_request.
  induction ops as [|op ops IH]; intros st; cbn [fold_left]; [reflexivity|].
  rewrite IH. now rewrite run_requested.
Qed.

Lemma largest_request_ge {D} (ops : list (@operation D)) : forall m, m <= largest_request ops m.
Proof.
  unfold largest_request. induction ops as [|op ops IH]; intros m; cbn [fold_left]; [lia|].
  etransitivity; [|apply IH]. lia.
Qed.

End BufferRequests.


(** ** What serialize returns *)

Section SerializeResults.
Context {Doc : Type}.
Variable internalSerialize :
  Buffer -> Doc -> bool -> Z -> Z -> bool -> bool -> option (list Doc) -> Buffer * result Z.

Lemma lookup_take_padded (l : list Z) (n i : nat) :
  (i < n)%nat ->
  (take n l ++ replicate (n - length l) 0) !! i = Some (default 0 (l !! i)).
Proof.
  intros Hi. destruct (Nat.lt_ge_cases i (length l)) as [Hlt|Hge].
  - rewrite lookup_app_l by (rewrite length_take; lia).
    rewrite lookup_take_lt by lia.
    destruct (lookup_lt_is_Some_2 l i Hlt) as [x Hx]. now rewrite Hx.
  - rewrite lookup_app_r by (rewrite length_take; lia).
    rewrite length_take, Nat.min_r by lia.
    rewrite (lookup_ge_None_2 l i) by lia. cbn [default].
    apply lookup_replicate_2. lia.
Qed.

(** X4: when the internal pass returns the end offset [n >= 0], [serialize]
    returns a buffer of exactly [n] bytes that copies the internal buffer
    from its start: byte [i] is byte [i] of the internal buffer, or 0 where
    the internal buffer has no byte [i].  The internal buffer stays as the
    pass left it. *)
Theorem serialize_returns_copy_of_internal_buffer object options st buffer1 n :
  internalSerialize (working_buffer options st) object
    (default false (SerializationOptions.checkKeys options)) 0 0
    (default false (SerializationOptions.serializeFunctions options))
    (default true (SerializationOptions.ignoreUndefined options)) (Some [])
  = (buffer1, Ok n) ->
  0 <= n ->
  exists bytes,
    serialize internalSerialize object options st = (Ok bytes, mkState buffer1)
    /\ zlen bytes = n
    /\ (forall i : nat, (i < length bytes)%nat ->
          bytes !! i = Some (default 0 (buffer1 !! i)))
    /\ (n <= zlen buffer1 -> bytes = take (Z.to_nat n) buffer1).
Proof.
  intros Hpass Hn. rewrite <- (Z2Nat.id n) in Hpass by lia.
  rewrite (serialize_result internalSerialize object options st buffer1 (Z.to_nat n) Hpass).
  eexists. split; [reflexivity|].
  assert (Hlen : length (take (Z.to_nat n) buffer1
                         ++ replicate (Z.to_nat n - length buffer1) 0) = Z.to_nat n)
    by (rewrite length_app, length_take, length_replicate; lia).
  split; [unfold zlen; rewrite Hlen; lia|]. split.
  - intros i Hi. apply lookup_take_padded. lia.
  - intros Hfit. unfold zlen in Hfit.
    replace (Z.to_nat n - length buffer1)%nat with 0%nat by lia.
    cbn [replicate]. apply app_nil_r.
Qed.

Lemma serialize_negative object options st buffer1 n :
  internalSerialize (working_buffer options st) object
    (default false (SerializationOptions.checkKeys options)) 0 0
    (default false (SerializationOptions.serializeFunctions options))
    (default true (SerializationOptions.ignoreUndefined options)) (Some [])
  = (buffer1, Ok n) ->
  n < 0 ->
  serialize internalSerialize object options st = (Err RangeError, mkState buffer1).
Proof.
  intros Hpass Hneg. unfold serialize. unfold working_buffer in Hpass.
  pose proof (zlen_nonneg (buffer st)).
  assert (Ha : Buffer_alloc n = Err RangeError).
  { unfold Buffer_alloc. destruct (Z.ltb_spec n 0); [reflexivity|lia]. }
  destruct (Z.ltb_spec (zlen (buffer st))
              (default MAXSIZE (SerializationOptions.minInternalBufferSize options)));
    rewrite ?Buffer_alloc_ok by lia; rewrite Hpass, Ha; reflexivity.
Qed.


End SerializeResults.

(** ** What serializeWithBufferAndIndex does to the caller's buffer *)

Lemma write_bytes_lookup_outside bs : forall buf start (i : nat),
  Z.of_nat i < start \/ start + zlen bs <= Z.of_nat i ->
  write_bytes buf start bs !! i = buf !! i.
Proof.
  induction bs as [|b r IH]; intros buf start i Hi; cbn [write_bytes]; [reflexivity|].
  rewrite zlen_cons in Hi. pose proof (zlen_nonneg r).
  rewrite IH by lia. unfold set_byte.
  destruct (Z.leb_spec 0 start); [|reflexivity].
  apply list_lookup_insert_ne. lia.
Qed.

Lemma write_bytes_lookup_inside bs : forall buf start (i : nat),
  0 <= start -> start <= Z.of_nat i < start + zlen bs -> (i < length buf)%nat ->
  write_bytes buf start bs !! i = bs !! (i - Z.to_nat start)%nat.
Proof.
  induction bs as [|b r IH]; intros buf start i Hstart Hi Hlt; cbn [write_bytes].
  - change (zlen (@nil Z)) with 0 in Hi. lia.
  - rewrite zlen_cons in Hi.
    destruct (decide (Z.of_nat i = start)) as [E|Hne].
    + rewrite write_bytes_lookup_outside by lia.
      unfold set_byte. destruct (Z.leb_spec 0 start); [|lia].
      replace (i - Z.to_nat start)%nat with 0%nat by lia. cbn [lookup list_lookup].
      replace (Z.to_nat start) with i by lia.
      now apply list_lookup_insert_eq.
    + rewrite IH by (rewrite ?length_set_byte; lia).
      replace (i - Z.to_nat start)%nat with (S (i - Z.to_nat (start + 1))) by lia.
      reflexivity.
Qed.

Section TargetBuffer.
Context {Doc : Type}.
Variable internalSerialize :
  Buffer -> Doc -> bool -> Z -> Z -> bool -> bool -> option (list Doc) -> Buffer * result Z.

(** X6: [serializeWithBufferAndIndex] never changes the length of the
    caller's buffer.  When the internal pass fails the caller's buffer is
    left as it was.  When the pass returns the end offset [n >= 0], the call
    returns [startIndex + n - 1] whether or not the encoding fits: the bytes
    outside [startIndex .. startIndex + n - 1] are untouched, the bytes of
    the buffer inside that range are bytes [0 ..] of the internal buffer, and
    what does not fit is dropped without an error; with [startIndex] at or
    beyond the end of the buffer nothing is written at all. *)
Theorem serializeWithBufferAndIndex_target object finalBuffer options st :
  let startIndex := default 0 (SerializationOptions.index options) in
  let pass := internalSerialize (buffer st) object
                (default false (SerializationOptions.checkKeys options)) 0 0
                (default false (SerializationOptions.serializeFunctions options))
                (default true (SerializationOptions.ignoreUndefined options)) None in
  let out := serializeWithBufferAndIndex internalSerialize object finalBuffer options st in
  0 <= startIndex ->
  length (snd (fst out)) = length finalBuffer
  /\ (forall e, snd pass = Err e -> fst (fst out) = Err e /\ snd (fst out) = finalBuffer)
  /\ (forall n, snd pass = Ok n -> 0 <= n ->
        fst (fst out) = Ok (startIndex + n - 1)
        /\ (forall i : nat, Z.of_nat i < startIndex \/ startIndex + n <= Z.of_nat i ->
              snd (fst out) !! i = finalBuffer !! i)
        /\ (forall i : nat, startIndex <= Z.of_nat i < startIndex + n ->
              (i < length finalBuffer)%nat ->
              (i - Z.to_nat startIndex < length (fst pass))%nat ->
              snd (fst out) !! i = fst pass !! (i - Z.to_nat startIndex)%nat)
        /\ (zlen finalBuffer <= startIndex -> snd (fst out) = finalBuffer)).
Proof.
  intros startIndex pass out Hstart. subst out.
  destruct pass as [b1 [n|e]] eqn:Hpass; cbn [fst snd]; subst pass.
  - destruct (Z.lt_ge_cases n 0) as [Hneg|Hn].
    + assert (E : serializeWithBufferAndIndex internalSerialize object finalBuffer options st
                  = (Err RangeError, finalBuffer, mkState b1)).
      { unfold serializeWithBufferAndIndex. rewrite Hpass. unfold Buffer_copy.
        destruct (Z.ltb_spec n 0); [|lia]. now rewrite !orb_true_r. }
      rewrite E. cbn [fst snd]. split; [reflexivity|]. split; [intros e [=]|].
      intros n' [= <-] ?. lia.
    + rewrite (serializeWithBufferAndIndex_result internalSerialize object finalBuffer
                 options st b1 n Hpass Hstart Hn).
      cbn [fst snd]. fold startIndex.
      split; [apply length_write_bytes|]. split; [intros e [=]|].
      intros n' [= <-] _. split; [reflexivity|].
      assert (Hl : zlen (take (Z.to_nat n) b1) <= n)
        by (unfold zlen; rewrite length_take; lia).
      split; [|split].
      * intros i Hi.
        destruct (Z.lt_ge_cases (Z.of_nat i) startIndex).
        -- apply write_bytes_lookup_outside. lia.
        -- apply write_bytes_lookup_outside. lia.
      * intros i Hi Hlt Hsrc.
        rewrite write_bytes_lookup_inside; [| lia | | exact Hlt].
        -- apply lookup_take_lt. lia.
        -- unfold zlen. rewrite length_take. lia.
      * intros Hend. now apply write_bytes_beyond.
  - rewrite (serializeWithBufferAndIndex_error internalSerialize object finalBuffer
               options st b1 e Hpass).
    cbn [fst snd]. split; [reflexivity|]. split; [now intros e' [= <-]|]. intros n [=].
Qed.

(** X7: [serializeWithBufferAndIndex] writes what [serialize] returns.  When
    the internal pass does not depend on the ancestor path it is started
    with, the internal buffer needs no resize and holds the whole encoding,
    and the caller's buffer has room for it from [startIndex] on, then the
    caller's buffer receives at [startIndex] exactly the bytes [serialize]
    returns for the same document and options, the rest of it is untouched,
    the index returned is that of the last of these bytes, and both calls
    leave the same internal buffer. *)
Theorem serializeWithBufferAndIndex_agrees_with_serialize
    object finalBuffer options st bytes :
  let startIndex := default 0 (SerializationOptions.index options) in
  let out := serializeWithBufferAndIndex internalSerialize object finalBuffer options st in
  (forall buf ck sf iu,
     internalSerialize buf object ck 0 0 sf iu None
     = internalSerialize buf object ck 0 0 sf iu (Some [])) ->
  default MAXSIZE (SerializationOptions.minInternalBufferSize options) <= zlen (buffer st) ->
  fst (serialize internalSerialize object options st) = Ok bytes ->
  zlen bytes <= zlen (buffer (snd (serialize internalSerialize object options st))) ->
  0 <= startIndex -> startIndex + zlen bytes <= zlen finalBuffer ->
  fst (fst out) = Ok (startIndex + zlen bytes - 1)
  /\ snd (fst out)
     = take (Z.to_nat startIndex) finalBuffer ++ bytes
       ++ drop (Z.to_nat (startIndex + zlen bytes)) finalBuffer
  /\ snd out = snd (serialize internalSerialize object options st).
Proof.
  intros startIndex out Hpath Hsize Hser Hheld Hstart Hroom. subst out.
  assert (Hwb : working_buffer options st = buffer st).
  { unfold working_buffer.
    destruct (Z.ltb_spec (zlen (buffer st))
                (default MAXSIZE (SerializationOptions.minInternalBufferSize options)));
      [lia|reflexivity]. }
  destruct (internalSerialize (buffer st) object
              (default false (SerializationOptions.checkKeys options)) 0 0
              (default false (SerializationOptions.serializeFunctions options))
              (default true (SerializationOptions.ignoreUndefined options)) (Some []))
    as [b1 [n|e]] eqn:Hpass.
  - destruct (Z.lt_ge_cases n 0) as [Hneg|Hn].
    + exfalso. rewrite <- Hwb in Hpass.
      rewrite (serialize_negative internalSerialize object options st b1 n Hpass Hneg)
        in Hser. discriminate Hser.
    + pose proof Hpass as Hpass'. rewrite <- Hwb in Hpass'.
      rewrite <- (Z2Nat.id n) in Hpass' by lia.
      pose proof (serialize_result internalSerialize object options st b1 (Z.to_nat n) Hpass')
        as E.
      rewrite E in Hser, Hheld |- *. cbn [fst snd buffer] in Hser, Hheld |- *.
      injection Hser as Hbytes.
      assert (Hlen : zlen bytes = n).
      { subst bytes. unfold zlen.
        rewrite length_app, length_take, length_replicate. lia. }
      rewrite Hlen in Hheld, Hroom |- *.
      assert (Hb : bytes = take (Z.to_nat n) b1).
      { subst bytes. unfold zlen in Hheld.
        replace (Z.to_nat n - length b1)%nat with 0%nat by lia.
        cbn [replicate]. apply app_nil_r. }
      rewrite <- Hpath in Hpass.
      rewrite (serializeWithBufferAndIndex_result internalSerialize object finalBuffer
                 options st b1 n Hpass Hstart Hn).
      cbn [fst snd]. fold startIndex. split; [reflexivity|]. split; [|reflexivity].
      rewrite <- Hb. unfold zlen in *.
      rewrite <- (Z2Nat.id startIndex) at 1 by lia.
      rewrite write_bytes_spec by lia.
      assert (Hbl : length bytes = Z.to_nat n) by lia.
      rewrite (take_ge bytes) by lia.
      replace (Z.to_nat startIndex + length bytes)%nat with (Z.to_nat (startIndex + n)) by lia.
      reflexivity.
  - exfalso. rewrite <- Hwb in Hpass.
    rewrite (serialize_error internalSerialize object options st b1 e Hpass) in Hser.
    discriminate Hser.
Qed.

End TargetBuffer.

(** ** The size calculator and the two serializing entry points *)

Section SizeAndEntryPoints.
Context {Doc : Type}.
Variable internalSerialize :
  Buffer -> Doc -> bool -> Z -> Z -> bool -> bool -> option (list Doc) -> Buffer * result Z.
Variable internalCalculateObjectSize : Doc -> bool -> bool -> Z.

(** X16: the three entry points unpack [serializeFunctions] and
    [ignoreUndefined] with the same defaults.  So when the end offset the
    internal serializer returns from offset 0 is the size the internal
    calculator gives under the same two flags, [calculateObjectSize] under
    the options of the call is the length of what [serialize] returns, and
    [serializeWithBufferAndIndex] returns [startIndex] plus that size minus
    1: a caller can size its buffer with [calculateObjectSize]. *)
Theorem calculateObjectSize_sizes_both_entry_points object options st :
  (forall buf ck sf iu path b n,
     internalSerialize buf object ck 0 0 sf iu path = (b, Ok n) ->
     n = internalCalculateObjectSize object sf iu) ->
  let size := calculateObjectSize internalCalculateObjectSize object
                (CalculateObjectSizeOptions.pick options) in
  (forall bytes, fst (serialize internalSerialize object options st) = Ok bytes ->
     zlen bytes = size)
  /\ (forall finalBuffer last,
        fst (fst (serializeWithBufferAndIndex internalSerialize object finalBuffer options st))
        = Ok last ->
        last = default 0 (SerializationOptions.index options) + size - 1).
Proof.
  intros Hagree size. subst size.
  unfold calculateObjectSize, CalculateObjectSizeOptions.pick.
  cbn [CalculateObjectSizeOptions.serializeFunctions CalculateObjectSizeOptions.ignoreUndefined].
  split.
  - intros bytes Hser.
    destruct (internalSerialize (working_buffer options st) object
                (default false (SerializationOptions.checkKeys options)) 0 0
                (default false (SerializationOptions.serializeFunctions options))
                (default true (SerializationOptions.ignoreUndefined options)) (Some []))
      as [b1 [n|e]] eqn:Hpass.
    + destruct (Z.lt_ge_cases n 0) as [Hneg|Hnn].
      * rewrite (serialize_negative internalSerialize object options st b1 n Hpass Hneg)
          in Hser. discriminate Hser.
      * pose proof (Hagree _ _ _ _ _ _ _ Hpass) as Hsize.
        pose proof Hpass as Hpass'. rewrite <- (Z2Nat.id n Hnn) in Hpass'.
        rewrite (serialize_result internalSerialize object options st b1 _ Hpass') in Hser.
        cbn [fst] in Hser. injection Hser as <-.
        unfold zlen. rewrite length_app, length_take, length_replicate. lia.
    + rewrite (serialize_error internalSerialize object options st b1 e Hpass) in Hser.
      discriminate Hser.
  - intros finalBuffer last. unfold serializeWithBufferAndIndex.
    destruct (internalSerialize (buffer st) object _ 0 0 _ _ None) as [b1 [n|e]] eqn:Hpass;
      [|discriminate].
    destruct (Buffer_copy _ _ _ _ _); [|discriminate].
    cbn [fst]. intros [= <-]. f_equal. f_equal. eapply Hagree. exact Hpass.
Qed.

End SizeAndEntryPoints.

(** ** The length prefix deserializeStream advances by *)

Lemma js_shl_high_byte b :
  is_byte b -> js_shl b 24 = (if b <? 128 then b else b - 256) * 2 ^ 24.
Proof.
  intros Hb. unfold is_byte in Hb.
  destruct (Z.ltb_spec b 128) as [Hlt|Hge].
  - apply js_shl_byte; [exact Hb | lia | lia].
  - unfold js_shl. rewrite Z.mod_small by lia. rewrite (toInt32_small b) by lia.
    rewrite Z.shiftl_mul_pow2 by lia. unfold toInt32.
    replace (b * 2 ^ 24 + 2 ^ 31) with ((b * 2 ^ 24 - 2 ^ 31) + 1 * 2 ^ 32) by lia.
    rewrite Z.mod_add by lia. rewrite Z.mod_small by lia. lia.
Qed.

Lemma byte_at_byte data i : Forall is_byte data -> is_byte (byte_at data i).
Proof.
  intros Hdata. unfold byte_at.
  destruct (0 <=? i); [|unfold is_byte; lia].
  destruct (data !! Z.to_nat i) as [b|] eqn:E; cbn [default]; [|unfold is_byte; lia].
  rewrite Forall_forall in Hdata. apply Hdata. eapply list_elem_of_lookup_2. exact E.
Qed.

Lemma size_expression_signed b0 b1 b2 b3 :
  is_byte b0 -> is_byte b1 -> is_byte b2 -> is_byte b3 ->
  js_or (js_or (js_or b0 (js_shl b1 8)) (js_shl b2 16)) (js_shl b3 24)
  = to_signed 32 (le_uint [b0; b1; b2; b3]).
Proof.
  intros H0 H1 H2 H3.
  assert (Hu : le_uint [b0; b1; b2; b3] = b0 + b1 * 2 ^ 8 + b2 * 2 ^ 16 + b3 * 2 ^ 24)
    by (cbn [le_uint]; lia).
  unfold is_byte in *. unfold to_signed. change (32 - 1) with 31.
  destruct (Z.ltb_spec (le_uint [b0; b1; b2; b3]) (2 ^ 31)) as [Hlt|Hge].
  - apply size_expression; unfold is_byte; (lia || assumption).
  - assert (Hb3 : 128 <= b3) by lia.
    rewrite (js_shl_high_byte b3) by (unfold is_byte; lia).
    destruct (Z.ltb_spec b3 128); [lia|].
    rewrite !js_shl_byte by (unfold is_byte; lia).
    unfold js_or.
    rewrite (toInt32_small b0), (toInt32_small (b1 * 2 ^ 8)) by lia.
    rewrite (lor_disjoint b0 b1 8) by lia.
    rewrite (toInt32_small (b0 + b1 * 2 ^ 8)) by lia.
    rewrite (toInt32_small (b0 + b1 * 2 ^ 8)), (toInt32_small (b2 * 2 ^ 16)) by lia.
    rewrite (lor_disjoint (b0 + b1 * 2 ^ 8) b2 16) by lia.
    rewrite (toInt32_small (b0 + b1 * 2 ^ 8 + b2 * 2 ^ 16)) by lia.
    rewrite (toInt32_small (b0 + b1 * 2 ^ 8 + b2 * 2 ^ 16)),
      (toInt32_small ((b3 - 256) * 2 ^ 24)) by lia.
    rewrite (lor_disjoint (b0 + b1 * 2 ^ 8 + b2 * 2 ^ 16) (b3 - 256) 24) by lia.
    rewrite toInt32_small by lia. lia.
Qed.

(** X8: the size [deserializeStream] advances by is the four bytes at
    [index] read as a little-endian two's-complement 32-bit integer, a byte
    beyond the end of the data (or before its start) counting as 0: it lies
    in the signed 32-bit range, and it is negative exactly when the byte at
    [index + 3] is 128 or more. *)
Theorem size_at_is_signed_little_endian data index :
  Forall is_byte data ->
  size_at data index = to_signed 32 (le_uint (prefix_at data index))
  /\ - 2 ^ 31 <= size_at data index < 2 ^ 31
  /\ (size_at data index < 0 <-> 128 <= byte_at data (index + 3)).
Proof.
  intros Hdata.
  pose proof (byte_at_byte data index Hdata) as H0.
  pose proof (byte_at_byte data (index + 1) Hdata) as H1.
  pose proof (byte_at_byte data (index + 2) Hdata) as H2.
  pose proof (byte_at_byte data (index + 3) Hdata) as H3.
  assert (E : size_at data index = to_signed 32 (le_uint (prefix_at data index)))
    by (unfold size_at, prefix_at; now apply size_expression_signed).
  rewrite E. unfold prefix_at, to_signed, is_byte in *. cbn [le_uint].
  change (32 - 1) with 31.
  set (b0 := byte_at data index) in *. set (b1 := byte_at data (index + 1)) in *.
  set (b2 := byte_at data (index + 2)) in *. set (b3 := byte_at data (index + 3)) in *.
  split; [reflexivity|].
  destruct (Z.ltb_spec (b0 + 256 * (b1 + 256 * (b2 + 256 * (b3 + 256 * 0)))) (2 ^ 31));
    split; lia.
Qed.

(** ** The loop of deserializeStream *)

Section StreamLoop.
Context {Doc : Type}.
Variable internalDeserialize : Buffer -> DeserializationOptions.t -> result Doc.

(** The loop sets [index] in its options before every parse: the [index] it
    is started with does not matter. *)
Lemma loop_set_index n : forall data o j docStartIndex i index documents,
  deserializeStream_loop internalDeserialize n data
    (DeserializationOptions.set_index o j) docStartIndex i index documents
  = deserializeStream_loop internalDeserialize n data o docStartIndex i index documents.
Proof. destruct n; intros; reflexivity. Qed.

(** Only the sum [docStartIndex + i] matters to the loop. *)
Lemma loop_shift n : forall data o docStartIndex i docStartIndex' i' index documents,
  docStartIndex + i = docStartIndex' + i' ->
  deserializeStream_loop internalDeserialize n data o docStartIndex i index documents
  = deserializeStream_loop internalDeserialize n data o docStartIndex' i' index documents.
Proof.
  induction n as [|n IH]; intros data o a i a' i' index documents E; [reflexivity|].
  cbn [deserializeStream_loop].
  destruct (internalDeserialize data (DeserializationOptions.set_index o index)); [|reflexivity].
  rewrite E. apply IH. lia.
Qed.

Lemma loop_app n : forall m data o docStartIndex i index documents,
  deserializeStream_loop internalDeserialize (n + m) data o docStartIndex i index documents
  = match deserializeStream_loop internalDeserialize n data o docStartIndex i index
            documents with
    | (Ok index', documents') =>
        deserializeStream_loop internalDeserialize m data o docStartIndex
          (i + Z.of_nat n) index' documents'
    | (Err e, documents') => (Err e, documents')
    end.
Proof.
  induction n as [|n IH]; intros m data o a i index documents.
  - cbn [Nat.add deserializeStream_loop]. apply loop_shift. lia.
  - cbn [Nat.add deserializeStream_loop].
    destruct (internalDeserialize data (DeserializationOptions.set_index o index));
      [|reflexivity].
    rewrite IH.
    destruct (deserializeStream_loop internalDeserialize n data _ a (i + 1) _ _)
      as [[index'|e] documents']; [|reflexivity].
    rewrite loop_set_index. apply loop_shift. lia.
Qed.

(** The loop while the parses succeed. *)
Lemma loop_parsed docs : forall data o docStartIndex i index documents,
  (forall (k : nat) doc, docs !! k = Some doc ->
     internalDeserialize data (DeserializationOptions.set_index o (advance k data index))
     = Ok doc) ->
  deserializeStream_loop internalDeserialize (length docs) data o docStartIndex i index
    documents
  = (Ok (advance (length docs) data index), store_all (docStartIndex + i) docs documents).
Proof.
  induction docs as [|d r IH]; intros data o a i index documents Hdocs; [reflexivity|].
  cbn [length deserializeStream_loop advance store_all].
  pose proof (Hdocs 0%nat d eq_refl) as H0. cbn [advance] in H0. rewrite H0.
  rewrite loop_set_index. rewrite IH.
  - replace (a + (i + 1)) with (a + i + 1) by lia. reflexivity.
  - intros k doc Hk. apply (Hdocs (S k) doc Hk).
Qed.

(** X9: parsing [n + m] documents is parsing [n] of them and then [m] more
    from the index the first call returns, storing them from
    [docStartIndex + n] on; when the first [n] fail, so does the whole, with
    the same error and the same documents stored.  With no document to
    parse (a count of 0 or less) the call returns [startIndex] and stores
    nothing, whatever the data; parsing one document is [deserialize] at
    [startIndex], under the caller's options with
    [allowObjectSmallerThanBufferSize] on by default, followed by the store
    at [docStartIndex] and the advance by the length prefix. *)
Theorem deserializeStream_splits data startIndex n m documents docStartIndex options :
  0 <= n -> 0 <= m ->
  deserializeStream internalDeserialize data startIndex (n + m) documents docStartIndex
    options
  = match deserializeStream internalDeserialize data startIndex n documents docStartIndex
            options with
    | (Ok index, documents') =>
        deserializeStream internalDeserialize data index m documents' (docStartIndex + n)
          options
    | (Err e, documents') => (Err e, documents')
    end
  /\ (forall z, z <= 0 ->
        deserializeStream internalDeserialize data startIndex z documents docStartIndex
          options = (Ok startIndex, documents))
  /\ deserializeStream internalDeserialize data startIndex 1 documents docStartIndex options
     = match deserialize internalDeserialize data
               (DeserializationOptions.set_index (stream_options options) startIndex) with
       | Ok doc =>
           (Ok (startIndex + size_at data startIndex), <[docStartIndex := doc]> documents)
       | Err e => (Err e, documents)
       end.
Proof.
  intros Hn Hm. split; [|split].
  - unfold deserializeStream, ensureBuffer.
    rewrite Z2Nat.inj_add by lia. rewrite loop_app.
    destruct (deserializeStream_loop internalDeserialize (Z.to_nat n) data _ docStartIndex 0
                startIndex documents) as [[index|e] documents']; [|reflexivity].
    apply loop_shift. lia.
  - intros z Hz. unfold deserializeStream.
    replace (Z.to_nat z) with 0%nat by lia. reflexivity.
  - unfold deserializeStream, deserialize, ensureBuffer, stream_options.
    change (Z.to_nat 1) with 1%nat. cbn [deserializeStream_loop].
    destruct (internalDeserialize data _); [|reflexivity].
    now rewrite Z.add_0_r.
Qed.

(** X10: [deserializeStream] parses the documents one after the other, each
    at the index the length prefixes before it lead to, whatever the parser
    made of them.  When all [numberOfDocuments] parses succeed it returns
    that index after the last one and has stored every document; when the
    parse after the documents [docs] fails, the call fails with that error,
    the documents parsed before it stay stored from [docStartIndex] on, and
    nothing else is stored. *)
Theorem deserializeStream_stops_at_first_failure
    data startIndex numberOfDocuments docs documents docStartIndex options :
  (forall (k : nat) doc, docs !! k = Some doc ->
     internalDeserialize data
       (DeserializationOptions.set_index (stream_options options) (advance k data startIndex))
     = Ok doc) ->
  let out := deserializeStream internalDeserialize data startIndex numberOfDocuments
               documents docStartIndex options in
  (zlen docs = numberOfDocuments ->
   out = (Ok (advance (length docs) data startIndex), store_all docStartIndex docs documents))
  /\ (forall e, zlen docs < numberOfDocuments ->
        internalDeserialize data
          (DeserializationOptions.set_index (stream_options options)
             (advance (length docs) data startIndex)) = Err e ->
        out = (Err e, store_all docStartIndex docs documents)).
Proof.
  intros Hdocs out. subst out. unfold deserializeStream, ensureBuffer. fold (stream_options options).
  split.
  - intros <-. replace (Z.to_nat (zlen docs)) with (length docs) by (unfold zlen; lia).
    rewrite loop_parsed by exact Hdocs. now rewrite Z.add_0_r.
  - intros e Hlt Herr. unfold zlen in Hlt.
    replace (Z.to_nat numberOfDocuments)
      with (length docs + S (Z.to_nat numberOfDocuments - S (length docs)))%nat by lia.
    rewrite loop_app, loop_parsed by exact Hdocs.
    cbn [deserializeStream_loop]. rewrite Herr. now rewrite Z.add_0_r.
Qed.

(** X11: the [index] among the caller's options is never used:
    [deserializeStream] overwrites it with the position of each document
    before parsing, so the call with [index] set to any [j] is the call
    without. *)
Theorem deserializeStream_ignores_index_option
    data startIndex numberOfDocuments documents docStartIndex options j :
  deserializeStream internalDeserialize data startIndex numberOfDocuments documents
    docStartIndex (DeserializationOptions.set_index options j)
  = deserializeStream internalDeserialize data startIndex numberOfDocuments documents
      docStartIndex options.
Proof.
  unfold deserializeStream.
  rewrite <- (loop_set_index _ _ (DeserializationOptions.assign _ options) 0).
  rewrite <- (loop_set_index _ _
                (DeserializationOptions.assign _ (DeserializationOptions.set_index options j)) 0).
  reflexivity.
Qed.

End StreamLoop.

(** ** Int32 *)

Lemma toInt32_congruent v : (toInt32 v - v) mod 2 ^ 32 = 0.
Proof.
  unfold toInt32.
  replace ((v + 2 ^ 31) mod 2 ^ 32 - 2 ^ 31 - v)
    with ((v + 2 ^ 31) mod 2 ^ 32 - (v + 2 ^ 31)) by lia.
  rewrite Zminus_mod, Z.mod_mod, Z.sub_diag by lia. reflexivity.
Qed.

Lemma toInt32_eq_iff v w : toInt32 v = toInt32 w <-> (v - w) mod 2 ^ 32 = 0.
Proof.
  unfold toInt32. split.
  - intros E. assert (E' : (v + 2 ^ 31) mod 2 ^ 32 = (w + 2 ^ 31) mod 2 ^ 32) by lia.
    replace (v - w) with ((v + 2 ^ 31) - (w + 2 ^ 31)) by lia.
    rewrite Zminus_mod, E', Z.sub_diag. reflexivity.
  - intros E. f_equal.
    replace (v + 2 ^ 31) with ((w + 2 ^ 31) + (v - w)) by lia.
    rewrite Zplus_mod, E, Z.add_0_r, Z.mod_mod by lia. reflexivity.
Qed.

(** X12: the [Int32] constructor keeps a value of the signed 32-bit range
    and wraps any other integer into it modulo 2^32 instead of rejecting it:
    two integers give the same [Int32] exactly when they differ by a multiple
    of 2^32, so 2^31 becomes -2^31 and -2^31 - 1 becomes 2^31 - 1. *)
Theorem Int32_constructor_wraps :
  (forall v, - 2 ^ 31 <= v < 2 ^ 31 -> Int32.valueOf (Int32.make v) = v)
  /\ (forall v, (Int32.valueOf (Int32.make v) - v) mod 2 ^ 32 = 0)
  /\ (forall v w, Int32.make v = Int32.make w <-> (v - w) mod 2 ^ 32 = 0)
  /\ (forall v, Int32.make (Int32.valueOf (Int32.make v)) = Int32.make v)
  /\ Int32.valueOf (Int32.make (2 ^ 31)) = - 2 ^ 31
  /\ Int32.valueOf (Int32.make (- 2 ^ 31 - 1)) = 2 ^ 31 - 1.
Proof.
  split; [|split; [|split; [|split; [|split]]]].
  - intros v Hv. now apply toInt32_small.
  - intros v. apply toInt32_congruent.
  - intros v w. rewrite <- toInt32_eq_iff. unfold Int32.make. split.
    + now intros [= E].
    + now intros ->.
  - intros v. unfold Int32.make, Int32.valueOf. cbn [Int32.value]. f_equal.
    apply toInt32_small. apply toInt32_range.
  - reflexivity.
  - reflexivity.
Qed.

Lemma integer_of_string_decimal z :
  Z.abs z <= 2 ^ 53 -> integer_of_string (decimal z) = Some z.
Proof.
  intros Hz. unfold integer_of_string. rewrite parse_decimal_decimal.
  cbn [mbind option_bind]. destruct (Z.leb_spec (Z.abs z) (2 ^ 53)); [reflexivity|lia].
Qed.

(** X13: an [Int32] survives the way through Extended JSON.  From the object
    [toExtendedJSON] gives in canonical mode, [fromExtendedJSON] rebuilds an
    equal [Int32] in canonical mode and returns its plain value in relaxed
    mode; the constructor rebuilds it from its [toString] as well. *)
Theorem Int32_extended_json_round_trip v :
  let i := Int32.make v in
  exists doc,
    as_Int32Extended (Int32.toExtendedJSON i None) = Some doc
    /\ Int32Extended.numberInt doc = Int32.toString i
    /\ Int32_fromExtendedJSON doc None = Some (inr i)
    /\ Int32_fromExtendedJSON doc (Some (EJSONOptions.mk None)) = Some (inr i)
    /\ Int32_fromExtendedJSON doc (Some (EJSONOptions.mk (Some true)))
       = Some (inl (Int32.valueOf i))
    /\ Int32_of_string (Int32.toString i) = Some i.
Proof.
  intros i. exists (Int32Extended.mk (Int32.toString i)).
  pose proof (toInt32_range v) as Hr.
  assert (Hs : integer_of_string (Int32.toString i) = Some (toInt32 v)).
  { apply integer_of_string_decimal. lia. }
  assert (Hi : Int32.make (toInt32 v) = i).
  { unfold i, Int32.make. f_equal. now apply toInt32_small. }
  assert (Hc : Int32_of_string (Int32.toString i) = Some i).
  { unfold Int32_of_string. rewrite Hs. cbn [fmap option_fmap option_map]. now rewrite Hi. }
  split; [reflexivity|]. split; [reflexivity|].
  unfold Int32_fromExtendedJSON.
  cbn [Int32Extended.numberInt mbind option_bind EJSONOptions.relaxed default id].
  rewrite Hc, Hs. repeat split; reflexivity.
Qed.

(** ** The test on wrapper types *)


(** ** Packing with serializeWithBufferAndIndex, unpacking with deserializeStream *)

Lemma write_bytes_within (fb bs : list Z) (i : nat) :
  (i + length bs <= length fb)%nat ->
  write_bytes fb (Z.of_nat i) bs = take i fb ++ bs ++ drop (i + length bs) fb.
Proof.
  intros H. rewrite write_bytes_spec by lia. now rewrite (take_ge bs) by lia.
Qed.

Lemma serializeWithBufferAndIndex_encoding d fb (i : nat) st :
  let enc := encodeDocument false true d in
  zlen enc <= zlen (buffer st) ->
  (i + length enc <= length fb)%nat ->
  serializeWithBufferAndIndex serializeInto d fb
    (SerializationOptions.mk None None None None (Some (Z.of_nat i))) st
  = (Ok (Z.of_nat i + zlen enc - 1),
     take i fb ++ enc ++ drop (i + length enc) fb,
     mkState (write_bytes (buffer st) 0 enc)).
Proof.
  intros enc Hheld Hroom. unfold zlen in Hheld.
  rewrite (serializeWithBufferAndIndex_result serializeInto d fb _ st
             (write_bytes (buffer st) 0 enc) (zlen enc)).
  - cbn [SerializationOptions.index default id].
    rewrite write_bytes_at_start by lia.
    replace (Z.to_nat (zlen enc)) with (length enc) by (unfold zlen; lia).
    rewrite take_app_length. now rewrite write_bytes_within by lia.
  - unfold serializeInto. cbn [SerializationOptions.checkKeys
      SerializationOptions.serializeFunctions SerializationOptions.ignoreUndefined
      default id andb]. fold enc. now rewrite Z.add_0_l.
  - cbn [SerializationOptions.index default id]. lia.
  - apply zlen_nonneg.
Qed.

Lemma pack_documents_result ds : forall fb (i : nat) st,
  Forall (fun d => zlen (encodeDocument false true d) <= zlen (buffer st)) ds ->
  let packed := concat (map (encodeDocument false true) ds) in
  (i + length packed <= length fb)%nat ->
  exists st',
    pack_documents ds fb (Z.of_nat i) st
    = (Ok (Z.of_nat i + zlen packed),
       take i fb ++ packed ++ drop (i + length packed) fb, st').
Proof.
  induction ds as [|d r IH]; intros fb i st Hheld packed Hroom.
  - exists st. cbn [pack_documents]. subst packed. cbn [map concat length app zlen].
    change (zlen (@nil Z)) with 0.
    rewrite Z.add_0_r, Nat.add_0_r, take_drop. reflexivity.
  - inversion Hheld as [|? ? Hd Hr]; subst.
    subst packed. cbn [map concat] in Hroom |- *.
    set (enc := encodeDocument false true d) in *.
    set (rest := concat (map (encodeDocument false true) r)) in *.
    rewrite length_app in Hroom.
    cbn [pack_documents].
    rewrite serializeWithBufferAndIndex_encoding by (fold enc; lia). fold enc.
    set (fb1 := take i fb ++ enc ++ drop (i + length enc) fb).
    set (st1 := mkState (write_bytes (buffer st) 0 enc)).
    assert (Hlen1 : length fb1 = length fb).
    { unfold fb1. rewrite !length_app, length_take, length_drop. lia. }
    replace (Z.of_nat i + zlen enc - 1 + 1) with (Z.of_nat (i + length enc))
      by (unfold zlen; lia).
    destruct (IH fb1 (i + length enc)%nat st1) as (st' & E).
    + eapply Forall_impl; [exact Hr|]. intros x Hx. unfold st1. cbn [buffer].
      unfold zlen in *. now rewrite length_write_bytes.
    + fold rest. lia.
    + fold rest in E. exists st'. rewrite E. f_equal. f_equal.
      * f_equal. rewrite zlen_app. unfold zlen. lia.
      * assert (Ht : length (take i fb) = i) by (rewrite length_take; lia).
        assert (Ht1 : take (i + length enc) fb1 = take i fb ++ enc).
        { unfold fb1. rewrite app_assoc. apply take_app_length'.
          rewrite length_app. lia. }
        assert (Hd1 : drop (i + length enc + length rest) fb1
                      = drop (i + (length enc + length rest)) fb).
        { unfold fb1. rewrite app_assoc. rewrite <- drop_drop.
          rewrite drop_app_length' by (rewrite length_app; lia).
          rewrite drop_drop. f_equal. lia. }
        rewrite Ht1, Hd1, length_app, <- !app_assoc. reflexivity.
Qed.


(** ** Instances of the further properties *)


Lemma serialize_returns_copy_of_internal_buffer_witness :
  exists bytes,
    fst (serialize serializeInto sample_document
           (SerializationOptions.mk None None None (Some 64) None)
           (mkState (replicate 16 0))) = Ok bytes
    /\ zlen bytes = 41.
Proof.
  destruct (serialize_returns_copy_of_internal_buffer serializeInto sample_document
              (SerializationOptions.mk None None None (Some 64) None)
              (mkState (replicate 16 0))
              (fst (serializeInto (replicate 64 0) sample_document false 0 0 false true
                      (Some [])))
              41)
    as (bytes & E & Hlen & _).
  - vm_compute; reflexivity.
  - lia.
  - exists bytes. rewrite E. split; [reflexivity | exact Hlen].
Defined.

Lemma serializeWithBufferAndIndex_target_witness :
  let out := serializeWithBufferAndIndex serializeInto sample_document (replicate 64 0)
               (SerializationOptions.mk None None None None (Some 60))
               (mkState (replicate 64 0)) in
  length (snd (fst out)) = 64%nat /\ fst (fst out) = Ok 100.
Proof.
  destruct (serializeWithBufferAndIndex_target serializeInto sample_document (replicate 64 0)
              (SerializationOptions.mk None None None None (Some 60))
              (mkState (replicate 64 0)))
    as (Hlen & _ & Hok).
  - vm_compute; discriminate.
  - split; [exact Hlen|].
    destruct (Hok 41) as (Hret & _); [vm_compute; reflexivity | lia | exact Hret].
Defined.

Lemma serializeWithBufferAndIndex_agrees_with_serialize_witness :
  let options := SerializationOptions.mk None None None (Some 64) (Some 3) in
  let st := mkState (replicate 64 0) in
  let out := serializeWithBufferAndIndex serializeInto sample_document (replicate 64 0)
               options st in
  fst (fst out) = Ok 43
  /\ snd (fst out) = [0; 0; 0] ++ encodeDocument false true sample_document ++ replicate 20 0
  /\ snd out = snd (serialize serializeInto sample_document options st).
Proof.
  destruct (serializeWithBufferAndIndex_agrees_with_serialize serializeInto sample_document
              (replicate 64 0) (SerializationOptions.mk None None None (Some 64) (Some 3))
              (mkState (replicate 64 0)) (encodeDocument false true sample_document))
    as (Hret & Hbuf & Hst).
  - intros; reflexivity.
  - vm_compute; discriminate.
  - vm_compute; reflexivity.
  - vm_compute; discriminate.
  - vm_compute; discriminate.
  - vm_compute; discriminate.
  - split; [exact Hret|]. split; [exact Hbuf | exact Hst].
Defined.

Lemma size_at_is_signed_little_endian_witness :
  size_at [255; 255; 255; 255; 1] 0 = -1 /\ size_at [255; 255; 255; 255; 1] 3 = 511.
Proof.
  assert (H : Forall is_byte [255; 255; 255; 255; 1])
    by (repeat constructor; unfold is_byte; lia).
  split.
  - rewrite (proj1 (size_at_is_signed_little_endian [255; 255; 255; 255; 1] 0 H)).
    reflexivity.
  - rewrite (proj1 (size_at_is_signed_little_endian [255; 255; 255; 255; 1] 3 H)).
    reflexivity.
Defined.

Lemma deserializeStream_splits_witness :
  deserializeStream internalDeserialize stream_data 2 (1 + 1) ∅ 3
    DeserializationOptions.empty
  = match deserializeStream internalDeserialize stream_data 2 1 ∅ 3
            DeserializationOptions.empty with
    | (Ok index, documents') =>
        deserializeStream internalDeserialize stream_data index 1 documents' (3 + 1)
          DeserializationOptions.empty
    | (Err e, documents') => (Err e, documents')
    end.
Proof.
  apply (proj1 (deserializeStream_splits internalDeserialize stream_data 2 1 1 ∅ 3
                  DeserializationOptions.empty ltac:(lia) ltac:(lia))).
Defined.

Lemma deserializeStream_stops_at_first_failure_witness :
  deserializeStream internalDeserialize stream_data 2 3 ∅ 3 DeserializationOptions.empty
  = (Err TruncatedDocument, store_all 3 [sample_document; nested 1] ∅).
Proof.
  apply (deserializeStream_stops_at_first_failure internalDeserialize stream_data 2 3
           [sample_document; nested 1] ∅ 3 DeserializationOptions.empty).
  - intros [|[|k]] doc Hk; [injection Hk as <- | injection Hk as <- | discriminate Hk];
      vm_compute; reflexivity.
  - vm_compute; reflexivity.
  - vm_compute; reflexivity.
Defined.


Lemma serializeInto_offset_is_size (d : Document) buf ck sf iu path b n :
  serializeInto buf d ck 0 0 sf iu path = (b, Ok n) ->
  n = internalCalculateObjectSize d sf iu.
Proof.
  unfold serializeInto. destruct (ck && negb (document_keys_ok d)); [discriminate|].
  intros [= _ <-]. rewrite <- encodeDocument_size. lia.
Qed.

Lemma calculateObjectSize_sizes_both_entry_points_witness :
  43 = 3 + calculateObjectSize internalCalculateObjectSize sample_document
             (CalculateObjectSizeOptions.pick
                (SerializationOptions.mk None None None (Some 64) (Some 3))) - 1.
Proof.
  apply (proj2 (calculateObjectSize_sizes_both_entry_points serializeInto
                  internalCalculateObjectSize sample_document
                  (SerializationOptions.mk None None None (Some 64) (Some 3))
                  (mkState (replicate 64 0))
                  (serializeInto_offset_is_size sample_document))
           (replicate 64 0) 43).
  vm_compute; reflexivity.
Defined.
